(** * Transit: a shallow embedding of [wormhole/twisted/transit.py]

    The Python module is embedded function by function.  Byte strings are
    [list byte], Python integers are [Z], text is [string]; a call that may
    raise returns a [res], whose [Raise] carries the exception.  Objects that
    the code mutates ([Connection], [Common]) are records threaded through
    the calls that mutate them; what a call writes to its transport or hands
    to a Deferred is appended to a log kept in the record. *)

From Stdlib Require Import ZArith NArith Lia Bool Ascii String.
From Stdlib.Strings Require Import Byte.
From Stdlib Require QArith_base.
From Stdlib Require Import List Permutation.
Import ListNotations.

Set Implicit Arguments.

(** ** Exceptions and results *)

(** The argument of [BadHandshake(...)], one constructor per message the
    module builds. *)
Inductive handshake_reason : Type :=
| GotWant (got want : list byte)   (* "got %r want %r" % (buf, expected) *)
| Abandoned                        (* "abandoned" *)
| TimedOut                         (* "timeout" *)
| ConnectionLost.                  (* "connection lost" *)

Inductive exn : Type :=
| BadHandshake (why : handshake_reason)
| BadNonce (got expected : Z)
| UsageError
| AssertionError
| ValueError
| IndexError
| TypeError
| AttributeError
| CryptoError
| BinasciiError
| RuntimeError
| CancelledError
| ConnectionClosed.

Inductive res (A : Type) : Type :=
| Ok (a : A)
| Raise (e : exn).
Arguments Ok {A} a.
Arguments Raise {A} e.

Definition bind {A B : Type} (r : res A) (k : A -> res B) : res B :=
  match r with
  | Ok a => k a
  | Raise e => Raise e
  end.

Declare Scope res_scope.
Delimit Scope res_scope with res.
Notation "x <- r ;; k" := (bind r (fun x => k))
  (at level 61, r at next level, right associativity) : res_scope.
Notation "' p <- r ;; k" := (bind r (fun x => let p := x in k))
  (at level 61, p pattern, r at next level, right associativity) : res_scope.

Definition isinstance_BadHandshake (e : exn) : bool :=
  match e with
  | BadHandshake _ => true
  | _ => false
  end.

(** ** [binascii.hexlify], [binascii.unhexlify], [int(_, 16)] and ["%0Nx"]

    The module converts between integers and big-endian byte strings through
    hexadecimal text, so the text is modelled too: a hex string is a
    [list ascii]. *)

Definition bytes : Type := list byte.

Module Hex.

(** The digits [hexlify] and ["%x"] write. *)
Definition hexdigits : string := "0123456789abcdef".

Definition hexchar (n : N) : ascii :=
  match String.get (N.to_nat n) hexdigits with
  | Some c => c
  | None => "f"%char
  end.

(** The value of one hexadecimal digit; [int(_, 16)] and [unhexlify] read
    both cases. *)
Definition hexval (c : ascii) : option N :=
  let n := N_of_ascii c in
  if ((48 <=? n) && (n <=? 57))%N then Some (n - 48)%N
  else if ((97 <=? n) && (n <=? 102))%N then Some (n - 87)%N
  else if ((65 <=? n) && (n <=? 70))%N then Some (n - 55)%N
  else None.

Definition byte_of_N (n : N) : byte :=
  match Byte.of_N n with
  | Some b => b
  | None => x00
  end.

(** [binascii.hexlify(bs)]: two lower-case digits per byte. *)
Fixpoint hexlify (bs : bytes) : list ascii :=
  match bs with
  | [] => []
  | b :: rest =>
      hexchar (Byte.to_N b / 16) :: hexchar (Byte.to_N b mod 16) :: hexlify rest
  end.

(** [binascii.unhexlify(s)]: [binascii.Error] on an odd number of digits
    or on a character that is no hex digit. *)
Fixpoint unhexlify (s : list ascii) : res bytes :=
  match s with
  | [] => Ok []
  | [_] => Raise BinasciiError
  | h :: l :: rest =>
      match hexval h, hexval l with
      | Some a, Some b =>
          match unhexlify rest with
          | Ok bs => Ok (byte_of_N (16 * a + b) :: bs)
          | Raise e => Raise e
          end
      | _, _ => Raise BinasciiError
      end
  end.

Fixpoint int_digits (s : list ascii) (acc : N) : option N :=
  match s with
  | [] => Some acc
  | c :: rest =>
      match hexval c with
      | Some d => int_digits rest (16 * acc + d)
      | None => None
      end
  end.

(** [int(s, 16)] on a string of hex digits, as [hexlify] produces them:
    [ValueError] on the empty string and on any other character. *)
Definition int_base16 (s : list ascii) : res Z :=
  match s with
  | [] => Raise ValueError
  | _ =>
      match int_digits s 0 with
      | Some n => Ok (Z.of_N n)
      | None => Raise ValueError
      end
  end.

Fixpoint hex_digits_aux (fuel : nat) (n : N) (acc : list ascii) : list ascii :=
  match fuel with
  | O => acc
  | S fuel' =>
      if (n =? 0)%N then acc
      else hex_digits_aux fuel' (n / 16) (hexchar (n mod 16) :: acc)
  end.

(** The digits of ["%x" % n] for [n >= 0]: no leading zero, ["0"] for 0.
    [N.size n] bounds the number of digits. *)
Definition hex_digits (n : N) : list ascii :=
  if (n =? 0)%N then ["0"%char]
  else hex_digits_aux (N.to_nat (N.size n)) n [].

Definition zero_pad (width : nat) (ds : list ascii) : list ascii :=
  repeat "0"%char (width - length ds) ++ ds.

(** ["%0<width>x" % z]: zero-padded to [width] characters, never
    truncated; the sign of a negative number counts in the width. *)
Definition format_0x (width : nat) (z : Z) : list ascii :=
  if (z <? 0)%Z
  then "-"%char :: zero_pad (width - 1) (hex_digits (Z.to_N (- z)))
  else zero_pad width (hex_digits (Z.to_N z)).

(** The value of a byte string read as a big-endian number. *)
Definition be_value (bs : bytes) : Z :=
  fold_left (fun acc b => 256 * acc + Z.of_N (Byte.to_N b))%Z bs 0%Z.

End Hex.

(** ** Python values and byte-string helpers *)

(** What a caller may pass where the code tests [isinstance(_, type(b""))]
    or [isinstance(_, type(u""))]. *)
Inductive pyobj : Type :=
| PyBytes (b : bytes)
| PyText (s : string)
| PyInt (z : Z)
| PyNone.

Definition bytes_eqb (a b : bytes) : bool :=
  if list_eq_dec Byte.byte_eq_dec a b then true else false.

(** [s.startswith(prefix)] on byte strings. *)
Fixpoint startswith (s prefix : bytes) : bool :=
  match prefix, s with
  | [], _ => true
  | _ :: _, [] => false
  | p :: prefix', c :: s' => Byte.eqb c p && startswith s' prefix'
  end.

(** [b"..."] literals. *)
Definition b_ok : bytes := list_byte_of_string "ok" ++ [x0a].
Definition b_go : bytes := list_byte_of_string "go" ++ [x0a].
Definition b_nevermind : bytes := list_byte_of_string "nevermind" ++ [x0a].

(** ** External collaborators

    [nacl.secret.SecretBox], [HKDF] and the three handshake builders of
    [transit_common] are imported by the module, not defined in it; they are
    taken as parameters.  A [SecretBox] object is its key. *)
Record Primitives : Type := {
  HKDF : bytes -> bytes -> bytes;                       (* key, CTXinfo *)
  crypto_secretbox : bytes -> bytes -> bytes -> bytes;  (* key, message, nonce *)
  crypto_secretbox_open : bytes -> bytes -> bytes -> option bytes;
                                                        (* key, ciphertext, nonce *)
  build_sender_handshake : bytes -> bytes;
  build_receiver_handshake : bytes -> bytes;
  build_relay_handshake : bytes -> bytes
}.

Definition NONCE_SIZE : nat := 24.

(** [SecretBox.encrypt(plaintext, nonce)]: the result is the nonce followed
    by the sealed message. *)
Definition SecretBox_encrypt (P : Primitives) (key plaintext nonce : bytes) : res bytes :=
  if Nat.eqb (length nonce) NONCE_SIZE
  then Ok (nonce ++ crypto_secretbox P key plaintext nonce)
  else Raise ValueError.

(** [SecretBox.decrypt(ciphertext)] with no nonce argument: the nonce is the
    first [NONCE_SIZE] bytes of its argument. *)
Definition SecretBox_decrypt (P : Primitives) (key ciphertext : bytes) : res bytes :=
  let nonce := firstn NONCE_SIZE ciphertext in
  let sealed := skipn NONCE_SIZE ciphertext in
  if Nat.eqb (length nonce) NONCE_SIZE
  then match crypto_secretbox_open P key sealed nonce with
       | Some plaintext => Ok plaintext
       | None => Raise CryptoError
       end
  else Raise ValueError.

(** What the authenticated encryption promises: opening what was sealed
    under the same key and nonce gives the message back. *)
Definition box_correct (P : Primitives) : Prop :=
  forall key msg nonce,
    crypto_secretbox_open P key (crypto_secretbox P key msg nonce) nonce = Some msg.

(** ** [class Common], [TransitSender], [TransitReceiver] *)

(** The values [Connection.state] takes.  The code keeps them as strings;
    [state_name] gives the string of each.  [StateExn] is the exception a
    test may store in [state]. *)
Inductive conn_state : Type :=
| TooEarly | Relay | Start | Handshake | WaitForDecision
| Go | Nevermind | Records | HungUp
| StateExn (e : exn).

Definition state_name (s : conn_state) : string :=
  match s with
  | TooEarly => "too-early"
  | Relay => "relay"
  | Start => "start"
  | Handshake => "handshake"
  | WaitForDecision => "wait-for-decision"
  | Go => "go"
  | Nevermind => "nevermind"
  | Records => "records"
  | HungUp => "hung up"
  | StateExn _ => "<exception>"
  end.

(** A [Connection] object is referred to by its identity.  [Connection]
    defines neither [__bool__] nor [__len__], so every such object is true
    where the code writes [if self._winner:]. *)
Definition conn_ref : Type := nat.

Record Common : Type := {
  is_sender : bool;                    (* class attribute of the subclass *)
  _transit_relay : option string;
  _transit_key : option bytes;
  _winner : option conn_ref;
  _winner_description : option string;
  _listener_d : bool;                  (* get_direct_hints made the listener *)
  _their_direct_hints : option (list string);
  _their_relay_hints : option (list string)
}.

(** [Common.__init__] as [TransitSender(transit_relay)] and
    [TransitReceiver(transit_relay)] run it.  [_listener_d] and the two
    hint attributes do not exist until [get_direct_hints] and
    [add_their_*_hints] create them: [false] and [None] stand for a missing
    attribute.  A hint set is kept as the list of its elements in the order
    the set iterates them. *)
Definition Common_init (sender : bool) (transit_relay : option string) : Common :=
  {| is_sender := sender;
     _transit_relay := transit_relay;
     _transit_key := None;
     _winner := None;
     _winner_description := None;
     _listener_d := false;
     _their_direct_hints := None;
     _their_relay_hints := None |}.

Definition TransitSender : option string -> Common := Common_init true.
Definition TransitReceiver : option string -> Common := Common_init false.

Definition set_winner (o : Common) (p : conn_ref) (description : option string) : Common :=
  {| is_sender := is_sender o; _transit_relay := _transit_relay o;
     _transit_key := _transit_key o; _winner := Some p;
     _winner_description := description; _listener_d := _listener_d o;
     _their_direct_hints := _their_direct_hints o;
     _their_relay_hints := _their_relay_hints o |}.

(** [Common.set_transit_key(self, key)], without the waiters it wakes. *)
Definition set_transit_key (o : Common) (key : bytes) : Common :=
  {| is_sender := is_sender o; _transit_relay := _transit_relay o;
     _transit_key := Some key; _winner := _winner o;
     _winner_description := _winner_description o;
     _listener_d := _listener_d o;
     _their_direct_hints := _their_direct_hints o;
     _their_relay_hints := _their_relay_hints o |}.

Definition set_listener_d (o : Common) : Common :=
  {| is_sender := is_sender o; _transit_relay := _transit_relay o;
     _transit_key := _transit_key o; _winner := _winner o;
     _winner_description := _winner_description o; _listener_d := true;
     _their_direct_hints := _their_direct_hints o;
     _their_relay_hints := _their_relay_hints o |}.

Definition set_their_direct_hints (o : Common) (hints : list string) : Common :=
  {| is_sender := is_sender o; _transit_relay := _transit_relay o;
     _transit_key := _transit_key o; _winner := _winner o;
     _winner_description := _winner_description o;
     _listener_d := _listener_d o; _their_direct_hints := Some hints;
     _their_relay_hints := _their_relay_hints o |}.

Definition set_their_relay_hints (o : Common) (hints : list string) : Common :=
  {| is_sender := is_sender o; _transit_relay := _transit_relay o;
     _transit_key := _transit_key o; _winner := _winner o;
     _winner_description := _winner_description o;
     _listener_d := _listener_d o;
     _their_direct_hints := _their_direct_hints o;
     _their_relay_hints := Some hints |}.

(** The text of every hint, or [TypeError] at the first that is not
    [type(u"")]. *)
Fixpoint all_text (hints : list pyobj) : res (list string) :=
  match hints with
  | [] => Ok []
  | PyText h :: rest =>
      match all_text rest with
      | Ok hs => Ok (h :: hs)
      | Raise e => Raise e
      end
  | _ :: _ => Raise TypeError
  end.

(** [Common.add_their_direct_hints(self, hints)]: [set(hints)] drops the
    repeats. *)
Definition add_their_direct_hints (o : Common) (hints : list pyobj) : res Common :=
  match all_text hints with
  | Ok hs => Ok (set_their_direct_hints o (nodup string_dec hs))
  | Raise e => Raise e
  end.

Definition add_their_relay_hints (o : Common) (hints : list pyobj) : res Common :=
  match all_text hints with
  | Ok hs => Ok (set_their_relay_hints o (nodup string_dec hs))
  | Raise e => Raise e
  end.

Definition get_relay_hints (o : Common) : list string :=
  match _transit_relay o with
  | Some r => if String.eqb r "" then [] else [r]
  | None => []
  end.

(** [Common.connection_ready(self, p, description)]: the new owner and the
    state the calling connection moves to. *)
Definition connection_ready (self : Common) (p : conn_ref) (description : option string)
  : Common * conn_state :=
  if negb (is_sender self) then (self, WaitForDecision)
  else match _winner self with
       | Some _ => (self, Nevermind)
       | None => (set_winner self p description, Go)
       end.

(** [Common.describe(self)]; [None] is Python's [None]. *)
Definition describe (self : Common) : option string :=
  match _winner self with
  | None => Some "not yet established"%string
  | Some _ => _winner_description self
  end.

Section WithPrimitives.
Variable P : Primitives.

(** The key-dependent helpers raise [TypeError] when no key was set. *)
Definition with_key (self : Common) (f : bytes -> bytes) : res bytes :=
  match _transit_key self with
  | Some k => Ok (f k)
  | None => Raise TypeError
  end.

Definition _send_this (self : Common) : res bytes :=
  if is_sender self
  then with_key self (build_sender_handshake P)
  else with_key self (build_receiver_handshake P).

Definition _expect_this (self : Common) : res bytes :=
  if is_sender self
  then with_key self (build_receiver_handshake P)
  else with_key self (build_sender_handshake P).

Definition info_sender_key : bytes := list_byte_of_string "transit_record_sender_key".
Definition info_receiver_key : bytes := list_byte_of_string "transit_record_receiver_key".

Definition _sender_record_key (self : Common) : res bytes :=
  if is_sender self
  then with_key self (fun k => HKDF P k info_sender_key)
  else with_key self (fun k => HKDF P k info_receiver_key).

Definition _receiver_record_key (self : Common) : res bytes :=
  if is_sender self
  then with_key self (fun k => HKDF P k info_receiver_key)
  else with_key self (fun k => HKDF P k info_sender_key).

End WithPrimitives.

(** ** [class Connection] *)

(** What a connection does to the objects around it: its transport, its
    timer, its consumer, the Deferreds it fires. *)
Inductive effect : Type :=
| TransportWrite (data : bytes)          (* self.transport.write(data) *)
| LoseConnection                         (* self.transport.loseConnection() *)
| SetTimeout (seconds : option Z)        (* self.setTimeout(_) *)
| ConsumerWrite (consumer : nat) (r : bytes)
| ConsumerRegister (consumer : nat)
| ConsumerUnregister (consumer : nat)
| ReadCallback (d : nat) (r : bytes)     (* d.callback(r) on a waiting read *)
| ReadErrback (d : nat) (e : exn)
| NegotiationCallback                    (* self._negotiation_d.callback(self) *)
| NegotiationErrback (e : exn).

Definition TIMEOUT : Z := 15.

Record Connection : Type := {
  c_id : conn_ref;
  state : conn_state;
  buf : bytes;
  relay_handshake : option bytes;
  description : option string;
  _negotiation_d : bool;
  _error : option exn;
  _consumer : option nat;
  _inbound_records : list bytes;
  _waiting_reads : list nat;
  send_box : option bytes;
  send_nonce : option Z;
  receive_box : option bytes;
  next_receive_nonce : option Z;
  effects : list effect
}.

Definition set_state (c : Connection) (v : conn_state) : Connection :=
  {| c_id := c_id c; state := v; buf := buf c;
     relay_handshake := relay_handshake c; description := description c;
     _negotiation_d := _negotiation_d c; _error := _error c;
     _consumer := _consumer c; _inbound_records := _inbound_records c;
     _waiting_reads := _waiting_reads c; send_box := send_box c;
     send_nonce := send_nonce c; receive_box := receive_box c;
     next_receive_nonce := next_receive_nonce c; effects := effects c |}.

Definition set_buf (c : Connection) (v : bytes) : Connection :=
  {| c_id := c_id c; state := state c; buf := v;
     relay_handshake := relay_handshake c; description := description c;
     _negotiation_d := _negotiation_d c; _error := _error c;
     _consumer := _consumer c; _inbound_records := _inbound_records c;
     _waiting_reads := _waiting_reads c; send_box := send_box c;
     send_nonce := send_nonce c; receive_box := receive_box c;
     next_receive_nonce := next_receive_nonce c; effects := effects c |}.

Definition set_description (c : Connection) (v : option string) : Connection :=
  {| c_id := c_id c; state := state c; buf := buf c;
     relay_handshake := relay_handshake c; description := v;
     _negotiation_d := _negotiation_d c; _error := _error c;
     _consumer := _consumer c; _inbound_records := _inbound_records c;
     _waiting_reads := _waiting_reads c; send_box := send_box c;
     send_nonce := send_nonce c; receive_box := receive_box c;
     next_receive_nonce := next_receive_nonce c; effects := effects c |}.

Definition set_negotiation_d (c : Connection) (v : bool) : Connection :=
  {| c_id := c_id c; state := state c; buf := buf c;
     relay_handshake := relay_handshake c; description := description c;
     _negotiation_d := v; _error := _error c; _consumer := _consumer c;
     _inbound_records := _inbound_records c;
     _waiting_reads := _waiting_reads c; send_box := send_box c;
     send_nonce := send_nonce c; receive_box := receive_box c;
     next_receive_nonce := next_receive_nonce c; effects := effects c |}.

Definition set_error (c : Connection) (v : option exn) : Connection :=
  {| c_id := c_id c; state := state c; buf := buf c;
     relay_handshake := relay_handshake c; description := description c;
     _negotiation_d := _negotiation_d c; _error := v;
     _consumer := _consumer c; _inbound_records := _inbound_records c;
     _waiting_reads := _waiting_reads c; send_box := send_box c;
     send_nonce := send_nonce c; receive_box := receive_box c;
     next_receive_nonce := next_receive_nonce c; effects := effects c |}.

Definition set_consumer (c : Connection) (v : option nat) : Connection :=
  {| c_id := c_id c; state := state c; buf := buf c;
     relay_handshake := relay_handshake c; description := description c;
     _negotiation_d := _negotiation_d c; _error := _error c; _consumer := v;
     _inbound_records := _inbound_records c;
     _waiting_reads := _waiting_reads c; send_box := send_box c;
     send_nonce := send_nonce c; receive_box := receive_box c;
     next_receive_nonce := next_receive_nonce c; effects := effects c |}.

Definition set_inbound_records (c : Connection) (v : list bytes) : Connection :=
  {| c_id := c_id c; state := state c; buf := buf c;
     relay_handshake := relay_handshake c; description := description c;
     _negotiation_d := _negotiation_d c; _error := _error c;
     _consumer := _consumer c; _inbound_records := v;
     _waiting_reads := _waiting_reads c; send_box := send_box c;
     send_nonce := send_nonce c; receive_box := receive_box c;
     next_receive_nonce := next_receive_nonce c; effects := effects c |}.

Definition set_waiting_reads (c : Connection) (v : list nat) : Connection :=
  {| c_id := c_id c; state := state c; buf := buf c;
     relay_handshake := relay_handshake c; description := description c;
     _negotiation_d := _negotiation_d c; _error := _error c;
     _consumer := _consumer c; _inbound_records := _inbound_records c;
     _waiting_reads := v; send_box := send_box c; send_nonce := send_nonce c;
     receive_box := receive_box c;
     next_receive_nonce := next_receive_nonce c; effects := effects c |}.

Definition set_send_box (c : Connection) (v : option bytes) : Connection :=
  {| c_id := c_id c; state := state c; buf := buf c;
     relay_handshake := relay_handshake c; description := description c;
     _negotiation_d := _negotiation_d c; _error := _error c;
     _consumer := _consumer c; _inbound_records := _inbound_records c;
     _waiting_reads := _waiting_reads c; send_box := v;
     send_nonce := send_nonce c; receive_box := receive_box c;
     next_receive_nonce := next_receive_nonce c; effects := effects c |}.

Definition set_send_nonce (c : Connection) (v : option Z) : Connection :=
  {| c_id := c_id c; state := state c; buf := buf c;
     relay_handshake := relay_handshake c; description := description c;
     _negotiation_d := _negotiation_d c; _error := _error c;
     _consumer := _consumer c; _inbound_records := _inbound_records c;
     _waiting_reads := _waiting_reads c; send_box := send_box c;
     send_nonce := v; receive_box := receive_box c;
     next_receive_nonce := next_receive_nonce c; effects := effects c |}.

Definition set_receive_box (c : Connection) (v : option bytes) : Connection :=
  {| c_id := c_id c; state := state c; buf := buf c;
     relay_handshake := relay_handshake c; description := description c;
     _negotiation_d := _negotiation_d c; _error := _error c;
     _consumer := _consumer c; _inbound_records := _inbound_records c;
     _waiting_reads := _waiting_reads c; send_box := send_box c;
     send_nonce := send_nonce c; receive_box := v;
     next_receive_nonce := next_receive_nonce c; effects := effects c |}.

Definition set_next_receive_nonce (c : Connection) (v : option Z) : Connection :=
  {| c_id := c_id c; state := state c; buf := buf c;
     relay_handshake := relay_handshake c; description := description c;
     _negotiation_d := _negotiation_d c; _error := _error c;
     _consumer := _consumer c; _inbound_records := _inbound_records c;
     _waiting_reads := _waiting_reads c; send_box := send_box c;
     send_nonce := send_nonce c; receive_box := receive_box c;
     next_receive_nonce := v; effects := effects c |}.

Definition set_effects (c : Connection) (v : list effect) : Connection :=
  {| c_id := c_id c; state := state c; buf := buf c;
     relay_handshake := relay_handshake c; description := description c;
     _negotiation_d := _negotiation_d c; _error := _error c;
     _consumer := _consumer c; _inbound_records := _inbound_records c;
     _waiting_reads := _waiting_reads c; send_box := send_box c;
     send_nonce := send_nonce c; receive_box := receive_box c;
     next_receive_nonce := next_receive_nonce c; effects := v |}.

Definition emit (c : Connection) (v : effect) : Connection :=
  {| c_id := c_id c; state := state c; buf := buf c;
     relay_handshake := relay_handshake c; description := description c;
     _negotiation_d := _negotiation_d c; _error := _error c;
     _consumer := _consumer c; _inbound_records := _inbound_records c;
     _waiting_reads := _waiting_reads c; send_box := send_box c;
     send_nonce := send_nonce c; receive_box := receive_box c;
     next_receive_nonce := next_receive_nonce c;
     effects := effects c ++ [v] |}.

(** A call on an object either returns a value or raises; either way the
    object is left in some state, which the outcome carries. *)
Inductive outcome (S A : Type) : Type :=
| Returned (a : A) (s : S)
| Raised (e : exn) (s : S).
Arguments Returned {S A} a s.
Arguments Raised {S A} e s.

Definition final {S A : Type} (o : outcome S A) : S :=
  match o with
  | Returned _ s => s
  | Raised _ s => s
  end.

Definition raised {S A : Type} (o : outcome S A) : option exn :=
  match o with
  | Returned _ _ => None
  | Raised e _ => Some e
  end.

(** [Connection.__init__(owner, relay_handshake, start)]. *)
Definition Connection_init (id : conn_ref) (relay : option bytes) : Connection :=
  {| c_id := id;
     state := TooEarly;
     buf := [];
     relay_handshake := relay;
     description := None;
     _negotiation_d := true;
     _error := None;
     _consumer := None;
     _inbound_records := [];
     _waiting_reads := [];
     send_box := None;
     send_nonce := None;
     receive_box := None;
     next_receive_nonce := None;
     effects := [] |}.

(** [Connection._check_and_remove(self, expected)]: the returned boolean and
    the connection with its buffer after the call. *)
Definition _check_and_remove (self : Connection) (expected : bytes)
  : res (bool * Connection) :=
  if negb (startswith (buf self) (firstn (length (buf self)) expected))
  then Raise (BadHandshake (GotWant (buf self) expected))
  else if Nat.ltb (length (buf self)) (length expected)
  then Ok (false, self)
  else Ok (true, set_buf self (skipn (length expected) (buf self))).

(** [Connection._deliverRecords]: the [while] loop pairs the two queues off
    from their left ends. *)
Fixpoint deliver_loop (inbound : list bytes) (waiting : list nat) (log : list effect)
  : list bytes * list nat * list effect :=
  match inbound, waiting with
  | r :: inbound', d :: waiting' =>
      deliver_loop inbound' waiting' (log ++ [ReadCallback d r])
  | _, _ => (inbound, waiting, log)
  end.

Definition _deliverRecords (self : Connection) : Connection :=
  let '(inbound, waiting, log) :=
    deliver_loop (_inbound_records self) (_waiting_reads self) (effects self) in
  set_effects (set_waiting_reads (set_inbound_records self inbound) waiting) log.

(** [Connection.recordReceived(self, record)]. *)
Definition recordReceived (self : Connection) (record : bytes) : Connection :=
  match _consumer self with
  | Some consumer => emit self (ConsumerWrite consumer record)
  | None =>
      _deliverRecords (set_inbound_records self (_inbound_records self ++ [record]))
  end.

(** [Connection.receive_record(self)]; [d] is the Deferred it creates and
    returns. *)
Definition receive_record (self : Connection) (d : nat) : Connection :=
  _deliverRecords (set_waiting_reads self (_waiting_reads self ++ [d])).

Section ConnectionMethods.
Variable P : Primitives.

(** [Connection._decrypt_record(self, encrypted)]. *)
Definition _decrypt_record (self : Connection) (encrypted : bytes)
  : outcome Connection bytes :=
  let nonce_buf := firstn NONCE_SIZE encrypted in
  match Hex.int_base16 (Hex.hexlify nonce_buf) with
  | Raise e => Raised e self
  | Ok nonce =>
      match next_receive_nonce self with
      | None => Raised AttributeError self
      | Some expected =>
          if negb (Z.eqb nonce expected)
          then Raised (BadNonce nonce expected) self
          else
            let self := set_next_receive_nonce self (Some (expected + 1)%Z) in
            match receive_box self with
            | None => Raised AttributeError self
            | Some key =>
                match SecretBox_decrypt P key encrypted with
                | Ok record => Returned record self
                | Raise e => Raised e self
                end
            end
      end
  end.

(** [Connection.dataReceivedRECORDS(self)]: one pass, no loop. *)
Definition dataReceivedRECORDS (self : Connection) : outcome Connection unit :=
  if Nat.ltb (length (buf self)) 4 then Returned tt self
  else
    match Hex.int_base16 (Hex.hexlify (firstn 4 (buf self))) with
    | Raise e => Raised e self
    | Ok len =>
        if (Z.of_nat (length (buf self)) <? 4 + len)%Z then Returned tt self
        else
          let encrypted := firstn (Z.to_nat len) (skipn 4 (buf self)) in
          let self := set_buf self (skipn (4 + Z.to_nat len) (buf self)) in
          match _decrypt_record self encrypted with
          | Returned record self => Returned tt (recordReceived self record)
          | Raised e self => Raised e self
          end
    end.

(** [Connection.send_record(self, record)]. *)
Definition send_record (self : Connection) (record : pyobj) : outcome Connection unit :=
  match record with
  | PyBytes record =>
      match send_nonce self with
      | None => Raised AttributeError self
      | Some n =>
          if negb (n <? 2 ^ (8 * 24))%Z then Raised AssertionError self
          else if negb (Z.of_nat (length record) <? 2 ^ (8 * 4))%Z
          then Raised AssertionError self
          else
            match Hex.unhexlify (Hex.format_0x 48 n) with
            | Raise e => Raised e self
            | Ok nonce =>
                let self := set_send_nonce self (Some (n + 1)%Z) in
                match send_box self with
                | None => Raised AttributeError self
                | Some key =>
                    match SecretBox_encrypt P key record nonce with
                    | Raise e => Raised e self
                    | Ok encrypted =>
                        match Hex.unhexlify
                                (Hex.format_0x 8 (Z.of_nat (length encrypted))) with
                        | Raise e => Raised e self
                        | Ok len =>
                            Returned tt (emit (emit self (TransportWrite len))
                                              (TransportWrite encrypted))
                        end
                    end
                end
            end
      end
  | _ => Raised UsageError self
  end.

(** [Connection._negotiationSuccessful(self)]. *)
Definition _negotiationSuccessful (owner : Common) (self : Connection)
  : outcome Connection unit :=
  let self := set_state self Records in
  let self := emit self (SetTimeout None) in
  match _sender_record_key P owner with
  | Raise e => Raised e self
  | Ok send_key =>
      let self := set_send_nonce (set_send_box self (Some send_key)) (Some 0%Z) in
      match _receiver_record_key P owner with
      | Raise e => Raised e self
      | Ok receive_key =>
          let self := set_next_receive_nonce
                        (set_receive_box self (Some receive_key)) (Some 0%Z) in
          if _negotiation_d self
          then Returned tt (emit (set_negotiation_d self false) NegotiationCallback)
          else Raised AttributeError (set_negotiation_d self false)
      end
  end.

(** *** The handshake state machine, [Connection._dataReceived]

    The method is a row of [if self.state == ...:] blocks, each falling
    through to the next unless it returns or raises.  Each block is a
    function of the blocks after it.  The state is the owner (which
    [connection_ready] may change) and the connection. *)
Definition world : Type := (Common * Connection)%type.
Definition block : Type := world -> outcome world unit.

Definition lift_conn (owner : Common) (o : outcome Connection unit) : outcome world unit :=
  match o with
  | Returned a c => Returned a (owner, c)
  | Raised e c => Raised e (owner, c)
  end.

Definition expecting (expected : bytes) (k : block) : block :=
  fun '(owner, self) =>
    match _check_and_remove self expected with
    | Raise e => Raised e (owner, self)
    | Ok (false, self) => Returned tt (owner, self)
    | Ok (true, self) => k (owner, self)
    end.

Definition block_relay (k : block) : block :=
  fun '(owner, self) =>
    match state self with
    | Relay => expecting b_ok (fun '(owner, self) => k (owner, set_state self Start))
                 (owner, self)
    | _ => k (owner, self)
    end.

Definition block_start (k : block) : block :=
  fun '(owner, self) =>
    match state self with
    | Start =>
        match _send_this P owner with
        | Raise e => Raised e (owner, self)
        | Ok hs => k (owner, set_state (emit self (TransportWrite hs)) Handshake)
        end
    | _ => k (owner, self)
    end.

Definition block_handshake (k : block) : block :=
  fun '(owner, self) =>
    match state self with
    | Handshake =>
        match _expect_this P owner with
        | Raise e => Raised e (owner, self)
        | Ok expected =>
            expecting expected
              (fun '(owner, self) =>
                 match description self with
                 | None => Raised AttributeError (owner, self)
                 | Some _ =>
                     let '(owner, next) :=
                       connection_ready owner (c_id self) (description self) in
                     k (owner, set_state self next)
                 end)
              (owner, self)
        end
    | _ => k (owner, self)
    end.

Definition block_wait_for_decision (k : block) : block :=
  fun '(owner, self) =>
    match state self with
    | WaitForDecision =>
        expecting b_go
          (fun '(owner, self) =>
             match _negotiationSuccessful owner self with
             | Returned _ self => k (owner, self)
             | Raised e self => Raised e (owner, self)
             end)
          (owner, self)
    | _ => k (owner, self)
    end.

Definition block_go (k : block) : block :=
  fun '(owner, self) =>
    match state self with
    | Go =>
        match _negotiationSuccessful owner (emit self (TransportWrite b_go)) with
        | Returned _ self => k (owner, self)
        | Raised e self => Raised e (owner, self)
        end
    | _ => k (owner, self)
    end.

Definition block_nevermind (k : block) : block :=
  fun '(owner, self) =>
    match state self with
    | Nevermind =>
        Raised (BadHandshake Abandoned)
               (owner, emit self (TransportWrite b_nevermind))
    | _ => k (owner, self)
    end.

Definition block_records (k : block) : block :=
  fun '(owner, self) =>
    match state self with
    | Records => lift_conn owner (dataReceivedRECORDS self)
    | _ => k (owner, self)
    end.

Definition block_exception : block :=
  fun '(owner, self) =>
    match state self with
    | StateExn e => Raised e (owner, self)
    | _ => Returned tt (owner, self)
    end.

Definition _dataReceived (w : world) (data : bytes) : outcome world unit :=
  let '(owner, self) := w in
  let self := set_buf self (buf self ++ data) in
  match state self with
  | TooEarly => Raised AssertionError (owner, self)
  | _ =>
      block_relay
        (block_start
           (block_handshake
              (block_wait_for_decision
                 (block_go
                    (block_nevermind
                       (block_records block_exception))))))
        (owner, self)
  end.

(** [Connection.dataReceived(self, data)]: every exception hangs the
    connection up; all but [BadHandshake] are raised again. *)
Definition dataReceived (w : world) (data : bytes) : outcome world unit :=
  match _dataReceived w data with
  | Returned a w' => Returned a w'
  | Raised e (owner, self) =>
      let self := emit self (SetTimeout None) in
      let self := set_error self (Some e) in
      let self := emit self LoseConnection in
      let self := set_state self HungUp in
      if isinstance_BadHandshake e
      then Returned tt (owner, self)
      else Raised e (owner, self)
  end.

(** [Connection.startNegotiation(self, description)]. *)
Definition startNegotiation (w : world) (descr : string) : outcome world unit :=
  let '(owner, self) := w in
  let self := set_description self (Some descr) in
  let self :=
    match relay_handshake self with
    | Some hs => set_state (emit self (TransportWrite hs)) Relay
    | None => set_state self Start
    end in
  dataReceived (owner, self) [].

End ConnectionMethods.

(** [Connection.connectionMade(self)], up to the factory's callback. *)
Definition connectionMade (self : Connection) : Connection :=
  emit self (SetTimeout (Some TIMEOUT)).

(** [Connection._cancel(self, d)], the canceller of [_negotiation_d]. *)
Definition Connection_cancel (self : Connection) : Connection :=
  let self := set_state self HungUp in
  let self := set_error self (Some CancelledError) in
  let self := emit self LoseConnection in
  set_negotiation_d self false.

(** [Connection.timeoutConnection(self)]. *)
Definition timeoutConnection (self : Connection) : Connection :=
  emit (set_error self (Some (BadHandshake TimedOut))) LoseConnection.

(** [Connection.connectionLost(self, reason)]. *)
Definition connectionLost (self : Connection) : Connection :=
  let self := emit self (SetTimeout None) in
  if _negotiation_d self
  then
    let e := match _error self with
             | Some e => e
             | None => BadHandshake ConnectionLost
             end in
    emit (set_negotiation_d self false) (NegotiationErrback e)
  else self.

(** [Connection.close(self)]. *)
Definition close (self : Connection) : Connection :=
  let self := emit self LoseConnection in
  set_effects (set_waiting_reads self [])
    (effects self ++ map (fun d => ReadErrback d ConnectionClosed) (_waiting_reads self)).

(** [Connection.connectConsumer(self, consumer)]. *)
Definition connectConsumer (self : Connection) (consumer : nat) : outcome Connection unit :=
  match _consumer self with
  | Some _ => Raised RuntimeError self
  | None =>
      let drained := map (ConsumerWrite consumer) (_inbound_records self) in
      let self := set_consumer self (Some consumer) in
      let self := set_effects (set_inbound_records self []) (effects self ++ drained) in
      Returned tt (emit self (ConsumerRegister consumer))
  end.

(** [Connection.disconnectConsumer(self)]. *)
Definition disconnectConsumer (self : Connection) : outcome Connection unit :=
  match _consumer self with
  | None => Raised AttributeError self
  | Some consumer =>
      Returned tt (set_consumer (emit self (ConsumerUnregister consumer)) None)
  end.

(** The bytes a connection wrote to its transport, in order. *)
Definition written (self : Connection) : bytes :=
  flat_map (fun ev => match ev with TransportWrite data => data | _ => [] end)
           (effects self).

(** The records handed to waiting reads, in order. *)
Definition read_callbacks (log : list effect) : list (nat * bytes) :=
  flat_map (fun ev => match ev with ReadCallback d r => [(d, r)] | _ => [] end) log.

(** ** Dialing: [_endpoint_from_hint], [_connect], [_not_forever] *)

(** [s.split(sep)] for a one-character separator: never empty. *)
Fixpoint split_on (sep : ascii) (s : string) : list string :=
  match s with
  | EmptyString => [EmptyString]
  | String c rest =>
      if Ascii.eqb c sep then EmptyString :: split_on sep rest
      else match split_on sep rest with
           | piece :: pieces => String c piece :: pieces
           | [] => [String c EmptyString]
           end
  end.

(** [sep in s] for a one-character [sep]. *)
Fixpoint contains (sep : ascii) (s : string) : bool :=
  match s with
  | EmptyString => false
  | String c rest => Ascii.eqb c sep || contains sep rest
  end.

(** [endpoints.HostnameEndpoint(reactor, host, port)]. *)
Record HostnameEndpoint : Type := {
  ep_host : string;
  ep_port : Z
}.

(** Seconds, as the reactor takes them: the code passes the integer [0], the
    float [2.0] and the integer [2*TIMEOUT]. *)
Definition seconds : Type := QArith_base.Q.
Definition RELAY_DELAY : seconds := QArith_base.Qmake 2 1.
Definition no_delay : seconds := QArith_base.Qmake 0 1.

(** The Deferreds [_connect] collects, by what each stands for. *)
Inductive contender : Type :=
| ListenerD                               (* self._listener_d *)
| StartConnector (ep : HostnameEndpoint) (description : string)
    (* self._start_connector(ep, description) *)
| DeferLater (delay : seconds) (ep : HostnameEndpoint) (description : string).
    (* task.deferLater(reactor, delay, self._start_connector, ep,
                       description, is_relay=True) *)

(** [_not_forever(timeout, d)]: [reactor.callLater(timeout, d.cancel)] on
    the Deferred that [there_can_be_only_one(contenders)] returned; the call
    is withdrawn when [d] fires first. *)
Record not_forever : Type := {
  nf_timeout : Z;                 (* seconds until [d.cancel] is called *)
  nf_contenders : list contender  (* what [d] arbitrates *)
}.

Section Dialing.
(** The built-in [int] on text. *)
Variable py_int : string -> res Z.

(** [Common._endpoint_from_hint(self, hint)]; [Ok None] is a returned
    [None]. *)
Definition _endpoint_from_hint (hint : string) : res (option HostnameEndpoint) :=
  if negb (contains ":" hint) then Ok None
  else
    let hint_type := hd EmptyString (split_on ":" hint) in
    if negb (String.eqb hint_type "tcp") then Ok None
    else
      let pieces := split_on ":" hint in
      match nth_error pieces 1 with
      | None => Raise IndexError
      | Some host =>
          match nth_error pieces 2 with
          | None => Raise IndexError
          | Some port =>
              match py_int port with
              | Ok n => Ok (Some {| ep_host := host; ep_port := n |})
              | Raise e => Raise e
              end
          end
      end.

(** The first loop of [_connect]: the contenders so far and [relay_delay]
    are the loop's state. *)
Fixpoint direct_loop (hints : list string) (contenders : list contender)
  (relay_delay : seconds) : outcome (list contender) seconds :=
  match hints with
  | [] => Returned relay_delay contenders
  | hint :: rest =>
      match _endpoint_from_hint hint with
      | Raise e => Raised e contenders
      | Ok None => direct_loop rest contenders relay_delay
      | Ok (Some ep) =>
          direct_loop rest
            (contenders ++ [StartConnector ep ("->" ++ hint)])
            RELAY_DELAY
      end
  end.

(** The second loop of [_connect]. *)
Fixpoint relay_loop (hints : list string) (contenders : list contender)
  (relay_delay : seconds) : outcome (list contender) unit :=
  match hints with
  | [] => Returned tt contenders
  | hint :: rest =>
      match _endpoint_from_hint hint with
      | Raise e => Raised e contenders
      | Ok None => relay_loop rest contenders relay_delay
      | Ok (Some ep) =>
          relay_loop rest
            (contenders ++ [DeferLater relay_delay ep ("->relay:" ++ hint)])
            relay_delay
      end
  end.

(** [Common._connect(self, _)]: the Deferreds it created, and the timer it
    set on their arbiter when it returns. *)
Definition _connect (self : Common) : outcome (list contender) not_forever :=
  if negb (_listener_d self) then Raised AttributeError []
  else
    let contenders := [ListenerD] in
    let relay_delay := no_delay in
    match _their_direct_hints self with
    | None => Raised AttributeError contenders
    | Some direct =>
        match direct_loop direct contenders relay_delay with
        | Raised e contenders => Raised e contenders
        | Returned relay_delay contenders =>
            match _their_relay_hints self with
            | None => Raised AttributeError contenders
            | Some relay =>
                match relay_loop relay contenders relay_delay with
                | Raised e contenders => Raised e contenders
                | Returned _ contenders =>
                    Returned {| nf_timeout := 2 * TIMEOUT;
                                nf_contenders := contenders |}
                             contenders
                end
            end
        end
    end.

End Dialing.

(** A hint is viable when [_endpoint_from_hint] returns an endpoint for it. *)
Definition viable (py_int : string -> res Z) (hint : string) : bool :=
  match _endpoint_from_hint py_int hint with
  | Ok (Some _) => true
  | _ => false
  end.

Definition is_relay_dial (c : contender) : bool :=
  match c with
  | DeferLater _ _ _ => true
  | _ => false
  end.

Definition dial_delay (c : contender) : seconds :=
  match c with
  | DeferLater delay _ _ => delay
  | _ => no_delay
  end.

(** ** The race arbiter, [class _ThereCanBeOnlyOne]

    The contenders are Twisted Deferreds.  A Deferred is either waiting or
    was called with a result; a callback added to a called Deferred runs at
    once, one added to a waiting Deferred runs when it is called.
    [d.cancel()] does nothing to a called Deferred and calls a waiting one
    with [CancelledError] (a canceller that fires its Deferred with a value
    of its own is not modelled).  The contenders are numbered by their
    position in the list given to the arbiter. *)

Module Arbiter.

Section WithValues.
(** What a successful contender fires with. *)
Variable V : Type.

Inductive result : Type :=
| Success (v : V)
| Failure (e : exn).

Inductive deferred : Type :=
| Waiting
| Called (r : result).

Record T : Type := {
  contenders : list deferred;    (* the contender Deferreds, by number *)
  hooked : list nat;             (* those [run] added its callbacks to *)
  cancelled : list nat;          (* those a [cancel()] found waiting *)
  _remaining : list nat;         (* the set, in the order it iterates *)
  _winner_d : deferred;
  _first_success : option V;
  _first_failure : option exn;
  _have_winner : bool;
  _fired : bool
}.

Definition status (a : T) (d : nat) : deferred :=
  nth d (contenders a) Waiting.

Fixpoint set_nth (d : nat) (x : deferred) (l : list deferred) : list deferred :=
  match d, l with
  | _, [] => []
  | O, _ :: rest => x :: rest
  | S d', y :: rest => y :: set_nth d' x rest
  end.

Definition mem (d : nat) (l : list nat) : bool :=
  existsb (Nat.eqb d) l.

(** [_ThereCanBeOnlyOne.__init__(self, contenders)]; [order] is the order
    in which [set(contenders)] iterates. *)
Definition init (cs : list deferred) (order : list nat) : T :=
  {| contenders := cs;
     hooked := [];
     cancelled := [];
     _remaining := order;
     _winner_d := Waiting;
     _first_success := None;
     _first_failure := None;
     _have_winner := false;
     _fired := false |}.

(** [self._remove(res, d)]. *)
Definition _remove (a : T) (d : nat) : T :=
  {| contenders := contenders a;
     hooked := hooked a;
     cancelled := cancelled a;
     _remaining := List.remove Nat.eq_dec d (_remaining a);
     _winner_d := _winner_d a;
     _first_success := _first_success a;
     _first_failure := _first_failure a;
     _have_winner := _have_winner a;
     _fired := _fired a |}.

(** [self._failed(f)]. *)
Definition _failed (a : T) (f : exn) : T :=
  match _first_failure a with
  | Some _ => a
  | None =>
      {| contenders := contenders a;
         hooked := hooked a;
         cancelled := cancelled a;
         _remaining := _remaining a;
         _winner_d := _winner_d a;
         _first_success := _first_success a;
         _first_failure := Some f;
         _have_winner := _have_winner a;
         _fired := _fired a |}
  end.

(** [self._maybe_done(_)].  [callback] and [errback] on a Deferred that
    was called already raise [AlreadyCalledError] and leave it as it is;
    [errback(None)] outside an [except] block raises inside Twisted and
    leaves [_winner_d] waiting.  [_have_winner] and [_first_success] are
    set together, so the summary is never fired with a missing success. *)
Definition _maybe_done (a : T) : T :=
  match _remaining a with
  | _ :: _ => a
  | [] =>
      if _fired a then a
      else
        {| contenders := contenders a;
           hooked := hooked a;
           cancelled := cancelled a;
           _remaining := _remaining a;
           _winner_d :=
             match _winner_d a with
             | Called r => Called r
             | Waiting =>
                 if _have_winner a
                 then match _first_success a with
                      | Some v => Called (Success v)
                      | None => Waiting
                      end
                 else match _first_failure a with
                      | Some e => Called (Failure e)
                      | None => Waiting
                      end
             end;
           _first_success := _first_success a;
           _first_failure := _first_failure a;
           _have_winner := _have_winner a;
           _fired := true |}
  end.

(** The callbacks [run] adds, on a contender called with a failure:
    [_remove], [_failed], [_maybe_done]. *)
Definition on_failure (a : T) (d : nat) (f : exn) : T :=
  _maybe_done (_failed (_remove a d) f).

(** A contender Deferred is called with [r]. *)
Definition mark_called (a : T) (d : nat) (r : result) : T :=
  {| contenders := set_nth d (Called r) (contenders a);
     hooked := hooked a;
     cancelled := cancelled a;
     _remaining := _remaining a;
     _winner_d := _winner_d a;
     _first_success := _first_success a;
     _first_failure := _first_failure a;
     _have_winner := _have_winner a;
     _fired := _fired a |}.

Definition mark_cancelled (a : T) (d : nat) : T :=
  {| contenders := contenders a;
     hooked := hooked a;
     cancelled := cancelled a ++ [d];
     _remaining := _remaining a;
     _winner_d := _winner_d a;
     _first_success := _first_success a;
     _first_failure := _first_failure a;
     _have_winner := _have_winner a;
     _fired := _fired a |}.

(** [d.cancel()] on contender [d]. *)
Definition cancel_contender (a : T) (d : nat) : T :=
  match status a d with
  | Called _ => a
  | Waiting =>
      let a := mark_cancelled (mark_called a d (Failure CancelledError)) d in
      if mem d (hooked a) then on_failure a d CancelledError else a
  end.

(** [for d in list(self._remaining): d.cancel()]. *)
Definition cancel_remaining (a : T) : T :=
  fold_left cancel_contender (_remaining a) a.

(** [self._succeeded(res)]. *)
Definition _succeeded (a : T) (v : V) : T :=
  cancel_remaining
    {| contenders := contenders a;
       hooked := hooked a;
       cancelled := cancelled a;
       _remaining := _remaining a;
       _winner_d := _winner_d a;
       _first_success := Some v;
       _first_failure := _first_failure a;
       _have_winner := true;
       _fired := _fired a |}.

(** The callbacks [run] adds, on a contender called with [r]. *)
Definition on_called (a : T) (d : nat) (r : result) : T :=
  match r with
  | Success v => _maybe_done (_succeeded (_remove a d) v)
  | Failure f => on_failure a d f
  end.

Definition hook (a : T) (d : nat) : T :=
  {| contenders := contenders a;
     hooked := hooked a ++ [d];
     cancelled := cancelled a;
     _remaining := _remaining a;
     _winner_d := _winner_d a;
     _first_success := _first_success a;
     _first_failure := _first_failure a;
     _have_winner := _have_winner a;
     _fired := _fired a |}.

(** One turn of the loop of [run]: the three [add...] calls on [d]. *)
Definition run_step (a : T) (d : nat) : T :=
  let a := hook a d in
  match status a d with
  | Called r => on_called a d r
  | Waiting => a
  end.

(** [self.run()]. *)
Definition run (a : T) : T :=
  fold_left run_step (_remaining a) a.

(** [there_can_be_only_one(contenders)]. *)
Definition there_can_be_only_one (cs : list deferred) (order : list nat) : T :=
  run (init cs order).

(** Afterwards: a waiting contender is called with [r]. *)
Definition fire (a : T) (d : nat) (r : result) : T :=
  match status a d with
  | Called _ => a
  | Waiting =>
      let a := mark_called a d r in
      if mem d (hooked a) then on_called a d r else a
  end.

(** Afterwards: [cancel()] on the summary Deferred.  Its canceller is
    [self._cancel]; a Deferred its canceller left waiting is then called
    with [CancelledError]. *)
Definition cancel (a : T) : T :=
  match _winner_d a with
  | Called _ => a
  | Waiting =>
      let a := cancel_remaining a in
      match _winner_d a with
      | Called _ => a
      | Waiting =>
          {| contenders := contenders a;
             hooked := hooked a;
             cancelled := cancelled a;
             _remaining := _remaining a;
             _winner_d := Called (Failure CancelledError);
             _first_success := _first_success a;
             _first_failure := _first_failure a;
             _have_winner := _have_winner a;
             _fired := _fired a |}
      end
  end.

End WithValues.

Arguments Waiting {V}.
Arguments Failure {V} e.

End Arbiter.

(** ** Events on a transit and its connections

    A run of one [Common] object and the connections that name it as their
    owner: the calls the application and the reactor make, one at a time. *)

Record system : Type := {
  sys_owner : Common;
  sys_conns : list Connection     (* a connection's identity is its index *)
}.

Inductive event : Type :=
| EvSetTransitKey (key : bytes)
| EvGetDirectHints
| EvAddTheirDirectHints (hints : list pyobj)
| EvAddTheirRelayHints (hints : list pyobj)
| EvBuildProtocol (relay : option bytes)      (* a factory builds a Connection *)
| EvStartNegotiation (i : nat) (descr : string)
| EvDataReceived (i : nat) (data : bytes)
| EvSendRecord (i : nat) (record : pyobj)
| EvReceiveRecord (i : nat) (d : nat)
| EvConnectConsumer (i : nat) (consumer : nat)
| EvCancel (i : nat)
| EvTimeoutConnection (i : nat)
| EvConnectionLost (i : nat)
| EvClose (i : nat).

Fixpoint replace_nth {A : Type} (i : nat) (x : A) (l : list A) : list A :=
  match i, l with
  | _, [] => []
  | O, _ :: rest => x :: rest
  | S i', y :: rest => y :: replace_nth i' x rest
  end.

Definition on_conn (s : system) (i : nat) (f : Connection -> Connection) : system :=
  match nth_error (sys_conns s) i with
  | Some c => {| sys_owner := sys_owner s;
                 sys_conns := replace_nth i (f c) (sys_conns s) |}
  | None => s
  end.

Definition on_world (s : system) (i : nat) (f : world -> outcome world unit) : system :=
  match nth_error (sys_conns s) i with
  | Some c =>
      let '(owner, c') := final (f (sys_owner s, c)) in
      {| sys_owner := owner; sys_conns := replace_nth i c' (sys_conns s) |}
  | None => s
  end.

Definition with_owner (s : system) (owner : Common) : system :=
  {| sys_owner := owner; sys_conns := sys_conns s |}.

Definition step (P : Primitives) (s : system) (ev : event) : system :=
  match ev with
  | EvSetTransitKey key => with_owner s (set_transit_key (sys_owner s) key)
  | EvGetDirectHints => with_owner s (set_listener_d (sys_owner s))
  | EvAddTheirDirectHints hints =>
      match add_their_direct_hints (sys_owner s) hints with
      | Ok owner => with_owner s owner
      | Raise _ => s
      end
  | EvAddTheirRelayHints hints =>
      match add_their_relay_hints (sys_owner s) hints with
      | Ok owner => with_owner s owner
      | Raise _ => s
      end
  | EvBuildProtocol relay =>
      {| sys_owner := sys_owner s;
         sys_conns := sys_conns s
                      ++ [connectionMade
                            (Connection_init (length (sys_conns s)) relay)] |}
  | EvStartNegotiation i descr => on_world s i (fun w => startNegotiation P w descr)
  | EvDataReceived i data => on_world s i (fun w => dataReceived P w data)
  | EvSendRecord i record => on_conn s i (fun c => final (send_record P c record))
  | EvReceiveRecord i d => on_conn s i (fun c => receive_record c d)
  | EvConnectConsumer i consumer =>
      on_conn s i (fun c => final (connectConsumer c consumer))
  | EvCancel i => on_conn s i Connection_cancel
  | EvTimeoutConnection i => on_conn s i timeoutConnection
  | EvConnectionLost i => on_conn s i connectionLost
  | EvClose i => on_conn s i close
  end.

Definition boot (owner : Common) : system :=
  {| sys_owner := owner; sys_conns := [] |}.

Definition run_events (P : Primitives) (s : system) (evs : list event) : system :=
  fold_left (step P) evs s.

(** The calls [recordReceived] and [receive_record] on one connection. *)
Inductive queue_op : Type :=
| Arrive (record : bytes)     (* recordReceived(record) *)
| Read (d : nat).             (* receive_record(), returning Deferred d *)

Definition queue_step (c : Connection) (op : queue_op) : Connection :=
  match op with
  | Arrive r => recordReceived c r
  | Read d => receive_record c d
  end.

Definition arrivals (ops : list queue_op) : list bytes :=
  flat_map (fun op => match op with Arrive r => [r] | Read _ => [] end) ops.

Definition readers (ops : list queue_op) : list nat :=
  flat_map (fun op => match op with Arrive _ => [] | Read d => [d] end) ops.

(** [connection_ready] called once per arriving connection, in order: the
    owner afterwards and the state each caller was given. *)
Fixpoint ready_calls (owner : Common) (calls : list (conn_ref * option string))
  : Common * list conn_state :=
  match calls with
  | [] => (owner, [])
  | (p, descr) :: rest =>
      let '(owner1, next) := connection_ready owner p descr in
      let '(owner2, nexts) := ready_calls owner1 rest in
      (owner2, next :: nexts)
  end.

(** ** Fixtures

    Stand-ins for the external collaborators, to run the model on concrete
    inputs: a "box" that prepends sixteen zero bytes, a key derivation that
    appends the context, handshakes that are the key behind a one-byte tag,
    and [int] on unsigned decimal text. *)
Module Fixture.

Definition tag : bytes := repeat x00 16.

Definition seal (key msg nonce : bytes) : bytes := tag ++ msg.

Definition unseal (key sealed nonce : bytes) : option bytes :=
  if bytes_eqb (firstn 16 sealed) tag then Some (skipn 16 sealed) else None.

Definition primitives : Primitives :=
  {| HKDF := fun key info => key ++ info;
     crypto_secretbox := seal;
     crypto_secretbox_open := unseal;
     build_sender_handshake := fun key => x01 :: key;
     build_receiver_handshake := fun key => x02 :: key;
     build_relay_handshake := fun key => x03 :: key |}.

Fixpoint decimal (s : string) (acc : Z) : res Z :=
  match s with
  | EmptyString => Ok acc
  | String c rest =>
      let n := N_of_ascii c in
      if ((48 <=? n) && (n <=? 57))%N
      then decimal rest (10 * acc + Z.of_N (n - 48))
      else Raise ValueError
  end.

Definition int (s : string) : res Z :=
  match s with
  | EmptyString => Raise ValueError
  | _ => decimal s 0
  end.

Definition key : bytes := [x6b].

(** A connection of a sender and one of a receiver, both after
    [_negotiationSuccessful] under the same transit key. *)
Definition sender : Common := set_transit_key (TransitSender None) key.
Definition receiver : Common := set_transit_key (TransitReceiver None) key.

Definition negotiated (owner : Common) : Connection :=
  final (_negotiationSuccessful primitives owner (Connection_init 0 None)).

Definition m0 : bytes := list_byte_of_string "hello".
Definition m1 : bytes := list_byte_of_string "world".

(** The sender sends [m0], then [m1]. *)
Definition sent : Connection :=
  final (send_record primitives
           (final (send_record primitives (negotiated sender) (PyBytes m0)))
           (PyBytes m1)).

(** A record of 2^32 zero bytes. *)
Definition oversized : bytes := repeat x00 (Z.to_nat (2 ^ 32)).

End Fixture.

(** ** Specification-side definitions *)

(** The [k] low hexadecimal digits of [n], most significant first. *)
Fixpoint digits_fixed (k : nat) (n : N) : list ascii :=
  match k with
  | O => []
  | S k' => digits_fixed k' (n / 16) ++ [Hex.hexchar (n mod 16)]
  end.

(** "[w]-byte big-endian": the [w] low bytes of [n], most significant
    first. *)
Fixpoint big_endian (w : nat) (n : N) : bytes :=
  match w with
  | O => []
  | S w' => big_endian w' (n / 256) ++ [Hex.byte_of_N (n mod 256)]
  end.

(** "Some byte of [got] deviates from the corresponding byte of [want]". *)
Definition deviates (got want : bytes) : Prop :=
  exists i g w, nth_error got i = Some g /\ nth_error want i = Some w /\ g <> w.

(** The callers [connection_ready] told to go ahead. *)
Definition is_go (s : conn_state) : bool :=
  match s with
  | Go => true
  | _ => false
  end.

Definition winners (answers : list conn_state) : nat :=
  length (filter is_go answers).

(** The callbacks that hand each record to its reader. *)
Definition callbacks_of (pairs : list (nat * bytes)) : list effect :=
  map (fun dr => ReadCallback (fst dr) (snd dr)) pairs.

(** What the two queues and the log hold, given every record that arrived
    and every reader that asked, in order. *)
Definition queues_reflect (c0 c : Connection) (records : list bytes) (asked : list nat)
  : Prop :=
  _consumer c = None /\
  _inbound_records c = skipn (length asked) records /\
  _waiting_reads c = skipn (length records) asked /\
  read_callbacks (effects c)
  = read_callbacks (effects c0) ++ combine asked records.

(** A block keeps the owner when, run for a receiver, it ends with the owner
    it started with. *)
Definition keeps_owner (b : block) : Prop :=
  forall owner c, is_sender owner = false -> fst (final (b (owner, c))) = owner.

(** The dials [_connect] starts for the direct hints, and those it schedules
    for the relay hints: one per hint that [_endpoint_from_hint] accepts. *)
Definition direct_dials (py_int : string -> res Z) (hints : list string) : list contender :=
  flat_map (fun hint => match _endpoint_from_hint py_int hint with
                        | Ok (Some ep) => [StartConnector ep ("->" ++ hint)]
                        | _ => []
                        end) hints.

Definition relay_dials (py_int : string -> res Z) (delay : seconds) (hints : list string)
  : list contender :=
  flat_map (fun hint => match _endpoint_from_hint py_int hint with
                        | Ok (Some ep) => [DeferLater delay ep ("->relay:" ++ hint)]
                        | _ => []
                        end) hints.

(** The timer that [_not_forever] set expires: it calls [d.cancel] on the
    arbiter's Deferred.  When [d] fired first, [_done] has withdrawn the
    timer and nothing happens. *)
Definition timer_expires {V : Type} (a : Arbiter.T V) : Arbiter.T V :=
  match Arbiter._winner_d a with
  | Arbiter.Waiting => Arbiter.cancel a
  | Arbiter.Called _ => a
  end.

(** The arbiter is still racing: nothing has won, the summary has not
    fired, and every contender it waits for is a waiting Deferred that
    carries its callbacks. *)
Definition racing {V : Type} (a : Arbiter.T V) : Prop :=
  NoDup (Arbiter._remaining a) /\
  (forall d, In d (Arbiter._remaining a) ->
     d < length (Arbiter.contenders a) /\
     Arbiter.status a d = Arbiter.Waiting /\
     Arbiter.mem d (Arbiter.hooked a) = true) /\
  Arbiter._have_winner a = false /\
  Arbiter._fired a = false /\
  Arbiter._winner_d a = Arbiter.Waiting.

(** The error the summary gets when everything fails: the first one
    recorded, or [f] when none was recorded before. *)
Definition first_recorded {V : Type} (a : Arbiter.T V) (f : exn) : exn :=
  match Arbiter._first_failure a with
  | Some e => e
  | None => f
  end.

(** The error of the first contender, in the order they are handled, that
    has failed. *)
Fixpoint first_failure_of {V : Type} (cs : list (Arbiter.deferred V)) (order : list nat)
  : option exn :=
  match order with
  | [] => None
  | d :: rest =>
      match nth d cs Arbiter.Waiting with
      | Arbiter.Called (Arbiter.Failure e) => Some e
      | _ => first_failure_of cs rest
      end
  end.

(** ** More specification-side definitions *)

(** What [after] wrote to its transport since it was [before]. *)
Definition new_bytes (before after : Connection) : bytes :=
  skipn (length (written before)) (written after).

(** The sender sends the records one by one; after each [send_record] the
    transport hands what was written to the peer's [dataReceived] as one
    chunk. *)
Fixpoint relay_records (P : Primitives) (s : Connection) (w : world) (ms : list bytes)
  : Connection * world :=
  match ms with
  | [] => (s, w)
  | m :: rest =>
      let s' := final (send_record P s (PyBytes m)) in
      relay_records P s' (final (dataReceived P w (new_bytes s s'))) rest
  end.

(** The buffer does not hold a whole frame yet: fewer than four bytes, or
    fewer than the four bytes of the length say. *)
Definition frame_incomplete (b : bytes) : bool :=
  Nat.ltb (length b) 4
  || (Z.of_nat (length b) <? 4 + Hex.be_value (firstn 4 b))%Z.

(** A connection that sends under [key] and will use nonce [n] next. *)
Definition sending (s : Connection) (key : bytes) (n : Z) : Prop :=
  send_nonce s = Some n /\ send_box s = Some key.

(** A connection in state "records" that receives under [key] and expects
    nonce [n], with nothing buffered and neither a consumer nor a reader
    attached. *)
Definition receiving (r : Connection) (key : bytes) (n : Z) : Prop :=
  state r = Records /\ next_receive_nonce r = Some n /\ receive_box r = Some key /\
  buf r = [] /\ _consumer r = None /\ _waiting_reads r = [].

(** What [dataReceived] leaves of a connection on which [_dataReceived]
    raised [e]: the timer cleared, the error kept, the transport told to
    close, the state "hung up". *)
Definition hung_up (c : Connection) (e : exn) : Connection :=
  set_state (emit (set_error (emit c (SetTimeout None)) (Some e)) LoseConnection)
            HungUp.

(** What [_negotiationSuccessful] leaves of a connection whose negotiation
    Deferred is pending, given the two record keys. *)
Definition negotiated_as (c : Connection) (send_key receive_key : bytes) : Connection :=
  emit (set_negotiation_d
          (set_next_receive_nonce
             (set_receive_box
                (set_send_nonce
                   (set_send_box (emit (set_state c Records) (SetTimeout None))
                                 (Some send_key))
                   (Some 0%Z))
                (Some receive_key))
             (Some 0%Z))
          false)
       NegotiationCallback.

(** The chunks reach [dataReceived] one after the other. *)
Definition feed (P : Primitives) (w : world) (chunks : list bytes) : world :=
  fold_left (fun w data => final (dataReceived P w data)) chunks w.

(** The firings of the negotiation Deferred that a connection's log holds. *)
Definition is_result (ev : effect) : bool :=
  match ev with
  | NegotiationCallback | NegotiationErrback _ => true
  | _ => false
  end.

Definition negotiation_results (c : Connection) : list effect :=
  filter is_result (effects c).

(** A pending negotiation Deferred has not been fired; one that is gone
    was fired at most once. *)
Definition once (c : Connection) : Prop :=
  if _negotiation_d c then negotiation_results c = []
  else length (negotiation_results c) <= 1.

(** A connection in state "records" has finished negotiating: its Deferred
    was fired, once and with success, and both directions have their key
    and a nonce that is not negative. *)
Definition ready (c : Connection) : Prop :=
  state c = Records ->
  negotiation_results c = [NegotiationCallback] /\
  _negotiation_d c = false /\
  (exists key n, send_box c = Some key /\ send_nonce c = Some n /\ (0 <= n)%Z) /\
  (exists key n, receive_box c = Some key /\ next_receive_nonce c = Some n /\
                 (0 <= n)%Z).

Definition conn_inv (c : Connection) : Prop := once c /\ ready c.

(** A block keeps the invariant: what it returns satisfies it, and what it
    leaves behind when it raises has still fired its Deferred at most
    once. *)
Definition keeps_inv (b : block) : Prop :=
  forall owner c, conn_inv c ->
    match b (owner, c) with
    | Returned _ w => conn_inv (snd w)
    | Raised _ w => once (snd w)
    end.

(** A block that leaves an owner with a winner as it is. *)
Definition keeps_winner (b : block) : Prop :=
  forall owner c, _winner owner <> None -> fst (final (b (owner, c))) = owner.

(** How each read ended, in the order of the log: with a record, or with
    the error given to its errback. *)
Definition read_results (log : list effect) : list (nat * res bytes) :=
  flat_map (fun ev => match ev with
                      | ReadCallback d r => [(d, Ok r)]
                      | ReadErrback d e => [(d, Raise e)]
                      | _ => []
                      end) log.

(** The contenders named are called with a failure, one after the other. *)
Definition fail_all {V : Type} (a : Arbiter.T V) (failures : list (nat * exn))
  : Arbiter.T V :=
  fold_left (fun a df => Arbiter.fire a (fst df) (Arbiter.Failure (snd df)))
            failures a.

(** ** Waiting for the transit key: [set_transit_key], [_get_transit_key]

    The part of a [Common] object that the key and its waiters make up.
    [waiters] is [None] once [del self._waiting_for_transit_key] has run;
    [called] lists the [d.callback(key)] calls made, in order.  A waiter
    is named by a number.  The waiters are Deferreds nobody has fired or
    cancelled when the key arrives, so each [d.callback(key)] goes
    through. *)
Module KeyWait.

Record T : Type := {
  key : option bytes;           (* self._transit_key *)
  waiters : option (list nat);  (* self._waiting_for_transit_key *)
  called : list (nat * bytes)   (* d.callback(key) *)
}.

(** As [Common.__init__] leaves them. *)
Definition init : T := {| key := None; waiters := Some []; called := [] |}.

(** What [_get_transit_key] returns: [defer.succeed(key)], or the new
    Deferred. *)
Inductive answer : Type :=
| Succeeded (k : bytes)
| Pending (d : nat).

(** [Common._get_transit_key(self)]; [d] is the Deferred it creates.
    [if self._transit_key:] is false for [None] and for the empty byte
    string. *)
Definition _get_transit_key (self : T) (d : nat) : outcome T answer :=
  match key self with
  | Some (b :: k) => Returned (Succeeded (b :: k)) self
  | _ =>
      match waiters self with
      | None => Raised AttributeError self
      | Some ws =>
          Returned (Pending d)
                   {| key := key self; waiters := Some (ws ++ [d]);
                      called := called self |}
      end
  end.

(** [Common.set_transit_key(self, key)]: the key is assigned before the
    list of waiters is read. *)
Definition set_transit_key (self : T) (k : bytes) : outcome T unit :=
  match waiters self with
  | None =>
      Raised AttributeError
             {| key := Some k; waiters := None; called := called self |}
  | Some ws =>
      Returned tt
               {| key := Some k; waiters := None;
                  called := called self ++ map (fun d => (d, k)) ws |}
  end.

(** [_get_transit_key] is called once for each of [ds]. *)
Definition ask_all (self : T) (ds : list nat) : T :=
  fold_left (fun self d => final (_get_transit_key self d)) ds self.

End KeyWait.

(** ** The frames of a series of records *)

(** One frame: the four-byte big-endian length of what follows, the
    24-byte big-endian nonce, the sealed record. *)
Definition frame (P : Primitives) (key : bytes) (n : Z) (m : bytes) : bytes :=
  let nonce := big_endian 24 (Z.to_N n) in
  let sealed := crypto_secretbox P key m nonce in
  big_endian 4 (N.of_nat (24 + length sealed)) ++ nonce ++ sealed.

(** The frames of [ms], the first with nonce [n], each next one with the
    nonce one higher. *)
Fixpoint frames (P : Primitives) (key : bytes) (n : Z) (ms : list bytes) : bytes :=
  match ms with
  | [] => []
  | m :: rest => frame P key n m ++ frames P key (n + 1) rest
  end.

(** [send_record] is called for each of [ms] in turn. *)
Definition send_all (P : Primitives) (s : Connection) (ms : list bytes) : Connection :=
  fold_left (fun s m => final (send_record P s (PyBytes m))) ms s.

(** ** The one connection a sender chooses *)

(** The connection as [startNegotiation] has it when it calls
    [dataReceived]. *)
Definition negotiation_start (c : Connection) (descr : string) : Connection :=
  let self := set_description c (Some descr) in
  match relay_handshake self with
  | Some hs => set_state (emit self (TransportWrite hs)) Relay
  | None => set_state self Start
  end.

(** On a sender, a connection is past the decision only if it is the
    winner, and no connection waits for a decision. *)
Definition chosen_ok (o : Common) (c : Connection) : Prop :=
  is_sender o = true /\
  state c <> WaitForDecision /\
  (state c = Go \/ state c = Records -> _winner o = Some (c_id c)).

Definition keeps_choice (b : block) : Prop :=
  forall o c, chosen_ok o c ->
    match b (o, c) with
    | Returned _ w => chosen_ok (fst w) (snd w) /\ c_id (snd w) = c_id c
    | Raised _ w => is_sender (fst w) = true /\ c_id (snd w) = c_id c
    end.

(** Every connection is known by its place in the list, and the sender's
    choice holds of each. *)
Definition sys_ok (s : system) : Prop :=
  is_sender (sys_owner s) = true /\
  forall i c, nth_error (sys_conns s) i = Some c ->
    c_id c = i /\ state c <> WaitForDecision /\
    (state c = Go \/ state c = Records -> _winner (sys_owner s) = Some i).

(** * Theorems *)

(** ** Hexadecimal text and big-endian bytes *)

Section HexFacts.
Import Hex.
Local Open Scope N_scope.

Lemma hexval_hexchar (n : N) : n < 16 -> hexval (hexchar n) = Some n.
Proof.
  intros H. rewrite <- (N2Nat.id n).
  assert (N.to_nat n < 16)%nat as Hk by lia.
  generalize dependent (N.to_nat n). clear H. intros k Hk.
  do 16 (destruct k as [|k]; [reflexivity |]).
  lia.
Qed.

Lemma nibbles_of_byte (b : byte) :
  Byte.to_N b / 16 < 16 /\ Byte.to_N b mod 16 < 16 /\
  16 * (Byte.to_N b / 16) + Byte.to_N b mod 16 = Byte.to_N b.
Proof.
  pose proof (Byte.to_N_bounded b) as Hb.
  repeat split.
  - apply N.Div0.div_lt_upper_bound. lia.
  - apply N.mod_lt. lia.
  - symmetry. apply N.div_mod. lia.
Qed.

Lemma byte_of_to_N (b : byte) : byte_of_N (Byte.to_N b) = b.
Proof. unfold byte_of_N. now rewrite Byte.of_to_N. Qed.

Lemma to_N_byte_of_N (n : N) : n < 256 -> Byte.to_N (byte_of_N n) = n.
Proof.
  intros H. unfold byte_of_N.
  destruct (Byte.of_N n) as [b|] eqn:E.
  - now apply Byte.to_of_N.
  - apply Byte.of_N_None_iff in E. lia.
Qed.

Lemma hexlify_app (a b : bytes) : hexlify (a ++ b) = (hexlify a ++ hexlify b)%list.
Proof.
  induction a as [|x a IH]; simpl; [reflexivity | now rewrite IH].
Qed.

Lemma length_hexlify (bs : bytes) : length (hexlify bs) = (2 * length bs)%nat.
Proof.
  induction bs as [|b bs IH]; simpl; [reflexivity | rewrite IH; lia].
Qed.

Lemma unhexlify_hexlify (bs : bytes) : unhexlify (hexlify bs) = Ok bs.
Proof.
  induction bs as [|b bs IH]; [reflexivity |].
  destruct (nibbles_of_byte b) as (Hhi & Hlo & Hsum).
  cbn [hexlify unhexlify].
  rewrite (hexval_hexchar Hhi), (hexval_hexchar Hlo), IH, Hsum, byte_of_to_N.
  reflexivity.
Qed.

Lemma int_digits_hexlify (bs : bytes) (acc : N) :
  int_digits (hexlify bs) acc =
  Some (fold_left (fun a b => 256 * a + Byte.to_N b) bs acc).
Proof.
  revert acc. induction bs as [|b bs IH]; intros acc; [reflexivity |].
  destruct (nibbles_of_byte b) as (Hhi & Hlo & Hsum).
  cbn [hexlify int_digits fold_left].
  rewrite (hexval_hexchar Hhi), (hexval_hexchar Hlo), IH.
  do 2 f_equal. lia.
Qed.

Lemma be_value_fold (bs : bytes) (acc : N) :
  Z.of_N (fold_left (fun a b => 256 * a + Byte.to_N b) bs acc) =
  fold_left (fun a b => 256 * a + Z.of_N (Byte.to_N b))%Z bs (Z.of_N acc).
Proof.
  revert acc. induction bs as [|b bs IH]; intros acc; [reflexivity |].
  cbn [fold_left]. rewrite IH. f_equal. lia.
Qed.

(** [int(hexlify(bs), 16)] is the big-endian value of a byte string that is
    not empty, and [ValueError] on the empty one. *)
Lemma int_base16_hexlify (b : byte) (bs : bytes) :
  int_base16 (hexlify (b :: bs)) = Ok (be_value (b :: bs)).
Proof.
  unfold int_base16. rewrite int_digits_hexlify.
  cbn [hexlify]. unfold be_value. now rewrite be_value_fold.
Qed.

Lemma int_base16_hexlify_nil : int_base16 (hexlify []) = Raise ValueError.
Proof. reflexivity. Qed.

Lemma length_digits_fixed (k : nat) (n : N) : length (digits_fixed k n) = k.
Proof.
  revert n. induction k as [|k IH]; intros n; simpl; [reflexivity |].
  rewrite length_app, IH. simpl. lia.
Qed.

Lemma digits_fixed_zero (k : nat) : digits_fixed k 0 = repeat "0"%char k.
Proof.
  induction k as [|k IH]; [reflexivity |].
  cbn [digits_fixed]. change (0 / 16) with 0. rewrite IH.
  change (hexchar (0 mod 16)) with "0"%char.
  now rewrite <- repeat_cons.
Qed.

Lemma digits_fixed_pad (k j : nat) (n : N) :
  n < 16 ^ N.of_nat j -> (j <= k)%nat ->
  digits_fixed k n = (repeat "0"%char (k - j) ++ digits_fixed j n)%list.
Proof.
  revert j n. induction k as [|k IH]; intros j n Hn Hj.
  - assert (j = 0%nat) by lia. subst j. reflexivity.
  - destruct j as [|j].
    + assert (n = 0) by (cbn in Hn; lia). subst n.
      rewrite digits_fixed_zero. cbn [digits_fixed].
      now rewrite app_nil_r, Nat.sub_0_r.
    + cbn [digits_fixed].
      rewrite (IH j (n / 16)); [| | lia].
      * rewrite <- app_assoc. reflexivity.
      * apply N.Div0.div_lt_upper_bound.
        rewrite Nat2N.inj_succ, N.pow_succ_r' in Hn. exact Hn.
Qed.

(** The loop of ["%x"] produces the digits of [n] and no more: [j] of them,
    where [j] is the least number of digits [n] fits in. *)
Lemma hex_digits_aux_spec (fuel : nat) (n : N) (acc : list ascii) :
  n < 2 ^ N.of_nat fuel ->
  exists j, hex_digits_aux fuel n acc = (digits_fixed j n ++ acc)%list /\
            n < 16 ^ N.of_nat j /\
            forall k, n < 16 ^ N.of_nat k -> (j <= k)%nat.
Proof.
  revert n acc. induction fuel as [|fuel IH]; intros n acc Hn.
  - exists 0%nat. cbn in *. repeat split; lia.
  - cbn [hex_digits_aux]. destruct (N.eqb_spec n 0) as [-> | Hnz].
    + exists 0%nat. cbn. repeat split; lia.
    + destruct (IH (n / 16) (hexchar (n mod 16) :: acc)) as (j & Hj & Hlt & Hmin).
      * rewrite Nat2N.inj_succ, N.pow_succ_r' in Hn.
        apply N.Div0.div_lt_upper_bound. lia.
      * exists (S j). repeat split.
        -- rewrite Hj. cbn [digits_fixed]. now rewrite <- app_assoc.
        -- rewrite Nat2N.inj_succ, N.pow_succ_r'.
           pose proof (N.div_mod n 16 ltac:(lia)) as Hdm.
           pose proof (N.mod_lt n 16 ltac:(lia)) as Hml.
           lia.
        -- intros [|k] Hk.
           ++ cbn in Hk. lia.
           ++ apply le_n_S, Hmin.
              rewrite Nat2N.inj_succ, N.pow_succ_r' in Hk.
              now apply N.Div0.div_lt_upper_bound.
Qed.

Lemma size_bound (n : N) : n < 2 ^ N.of_nat (N.to_nat (N.size n)).
Proof.
  rewrite N2Nat.id. destruct n as [|p]; [cbn; lia |].
  apply N.size_gt.
Qed.

(** Zero-padding the digits of [n] to [k] characters gives its [k] low
    digits, when [n] fits in them. *)
Lemma zero_pad_hex_digits (k : nat) (n : N) :
  (1 <= k)%nat -> n < 16 ^ N.of_nat k ->
  zero_pad k (hex_digits n) = digits_fixed k n.
Proof.
  intros Hk Hn. unfold zero_pad, hex_digits.
  destruct (N.eqb_spec n 0) as [-> | Hnz].
  - rewrite digits_fixed_zero. cbn [length].
    replace k with (S (k - 1)) at 2 by lia.
    cbn [repeat]. rewrite repeat_cons. reflexivity.
  - destruct (@hex_digits_aux_spec (N.to_nat (N.size n)) n [] (size_bound n))
      as (j & Hj & Hlt & Hmin).
    rewrite Hj, app_nil_r, length_digits_fixed.
    symmetry. apply digits_fixed_pad; [exact Hlt | now apply Hmin].
Qed.

(** The [2w] low digits of [n] are the hexadecimal text of its [w] low
    bytes. *)
Lemma digits_fixed_big_endian (w : nat) (n : N) :
  digits_fixed (2 * w) n = hexlify (big_endian w n).
Proof.
  revert n. induction w as [|w IH]; intros n; [reflexivity |].
  replace (2 * S w)%nat with (S (S (2 * w))) by lia.
  cbn [digits_fixed big_endian].
  rewrite hexlify_app, <- IH, <- app_assoc. cbn [hexlify app].
  assert (n mod 256 < 256) as Hb by (apply N.mod_lt; lia).
  rewrite (to_N_byte_of_N Hb).
  replace (n / 16 / 16) with (n / 256) by (rewrite N.Div0.div_div; reflexivity).
  replace (n mod 256 / 16) with (n / 16 mod 16).
  2:{ change 256 with (16 * 16). rewrite N.Div0.mod_mul_r.
      rewrite N.mul_comm, N.div_add by lia.
      rewrite (N.div_small (n mod 16)) by (apply N.mod_lt; lia). lia. }
  replace (n mod 256 mod 16) with (n mod 16).
  2:{ change 256 with (16 * 16). rewrite N.Div0.mod_mul_r.
      rewrite N.mul_comm, N.Div0.mod_add. now rewrite N.Div0.mod_mod. }
  reflexivity.
Qed.

Lemma length_big_endian (w : nat) (n : N) : length (big_endian w n) = w.
Proof.
  revert n. induction w as [|w IH]; intros n; [reflexivity |].
  cbn [big_endian]. rewrite length_app, IH. simpl. lia.
Qed.

Lemma be_value_app (a : bytes) (b : byte) :
  be_value (a ++ [b]) = (256 * be_value a + Z.of_N (Byte.to_N b))%Z.
Proof. unfold be_value. now rewrite fold_left_app. Qed.

Lemma be_value_big_endian (w : nat) (n : N) :
  n < 256 ^ N.of_nat w -> be_value (big_endian w n) = Z.of_N n.
Proof.
  revert n. induction w as [|w IH]; intros n Hn.
  - cbn in Hn. assert (n = 0) by lia. now subst n.
  - cbn [big_endian]. rewrite be_value_app.
    rewrite Nat2N.inj_succ, N.pow_succ_r' in Hn.
    rewrite IH by (apply N.Div0.div_lt_upper_bound; exact Hn).
    rewrite to_N_byte_of_N by (apply N.mod_lt; lia).
    pose proof (N.div_mod n 256 ltac:(lia)). lia.
Qed.

(** [unhexlify("%0<2w>x" % z)] is the [w]-byte big-endian form of [z], for
    [0 <= z < 256^w]. *)
Lemma unhexlify_format (w : nat) (z : Z) :
  (1 <= w)%nat -> (0 <= z < 256 ^ Z.of_nat w)%Z ->
  unhexlify (format_0x (2 * w) z) = Ok (big_endian w (Z.to_N z)).
Proof.
  intros Hw Hz. unfold format_0x.
  destruct (Z.ltb_spec z 0) as [Hneg | _]; [lia |].
  assert (Z.to_N z < 256 ^ N.of_nat w) as Hn.
  { apply N2Z.inj_lt. rewrite N2Z.inj_pow, Z2N.id, nat_N_Z by lia. apply Hz. }
  rewrite zero_pad_hex_digits.
  - rewrite digits_fixed_big_endian. apply unhexlify_hexlify.
  - lia.
  - replace (N.of_nat (2 * w)) with (2 * N.of_nat w) by lia.
    rewrite N.pow_mul_r. exact Hn.
Qed.

End HexFacts.

(** ** The prefix check, [_check_and_remove] *)

Lemma byte_eqb_refl (b : byte) : Byte.eqb b b = true.
Proof. now apply Byte.byte_dec_lb. Qed.

Lemma startswith_app (p rest : bytes) : startswith (p ++ rest) p = true.
Proof.
  induction p as [|b p IH]; [now destruct rest |].
  cbn. now rewrite byte_eqb_refl, IH.
Qed.

Lemma startswith_self (s : bytes) : startswith s s = true.
Proof.
  rewrite <- (app_nil_r s) at 1. apply startswith_app.
Qed.

Lemma deviates_cons (b : byte) (got want : bytes) :
  deviates (b :: got) (b :: want) <-> deviates got want.
Proof.
  split.
  - intros (i & g & w & Hg & Hw & Hne). destruct i as [|i].
    + cbn in Hg, Hw. congruence.
    + now exists i, g, w.
  - intros (i & g & w & Hg & Hw & Hne). now exists (S i), g, w.
Qed.

(** The test of [_check_and_remove] fails exactly when a byte deviates. *)
Lemma startswith_firstn_false (got want : bytes) :
  startswith got (firstn (length got) want) = false <-> deviates got want.
Proof.
  revert want. induction got as [|b got IH]; intros want.
  - cbn. split; [discriminate |].
    intros (i & g & w & Hg & _). destruct i; discriminate.
  - destruct want as [|e want].
    + cbn. split; [discriminate |].
      intros (i & g & w & _ & Hw & _). destruct i; discriminate.
    + cbn [length firstn startswith].
      destruct (Byte.eqb b e) eqn:E.
      * apply Byte.byte_dec_bl in E. subst e. cbn [andb].
        rewrite IH. symmetry. apply deviates_cons.
      * cbn [andb]. split; [intros _ | reflexivity].
        exists 0%nat, b, e. repeat split. now apply Byte.eqb_false.
Qed.

(** C5.  [_check_and_remove] raises exactly when some byte of the buffer
    deviates from the corresponding byte of [expected], and what it raises
    is [BadHandshake("got ... want ...")]; when the buffer is a strict
    prefix of [expected] it returns [False] and leaves the buffer as it
    was; when the buffer starts with all of [expected] it returns [True]
    and the buffer keeps exactly the surplus bytes. *)
Theorem check_and_remove_spec (self : Connection) (expected : bytes) :
  ((exists e, _check_and_remove self expected = Raise e) <->
   deviates (buf self) expected) /\
  (forall e, _check_and_remove self expected = Raise e ->
             e = BadHandshake (GotWant (buf self) expected)) /\
  (forall more, more <> [] -> expected = buf self ++ more ->
                _check_and_remove self expected = Ok (false, self)) /\
  (forall surplus, buf self = expected ++ surplus ->
                   _check_and_remove self expected = Ok (true, set_buf self surplus)).
Proof.
  unfold _check_and_remove.
  repeat split.
  - intros [e He].
    apply startswith_firstn_false.
    destruct (startswith (buf self) (firstn (length (buf self)) expected));
      [| reflexivity].
    cbn [negb] in He.
    destruct (Nat.ltb (length (buf self)) (length expected)); discriminate He.
  - intros Hdev. apply startswith_firstn_false in Hdev. rewrite Hdev. cbn. eauto.
  - intros e He.
    destruct (startswith (buf self) (firstn (length (buf self)) expected));
      cbn [negb] in He.
    + destruct (Nat.ltb (length (buf self)) (length expected)); discriminate He.
    + congruence.
  - intros more Hmore ->.
    rewrite firstn_app, Nat.sub_diag, firstn_all, firstn_O, app_nil_r.
    rewrite startswith_self. cbn [negb].
    destruct (Nat.ltb_spec (length (buf self)) (length (buf self ++ more)))
      as [_ | Hge]; [reflexivity |].
    rewrite length_app in Hge. destruct more; [congruence | cbn in Hge; lia].
  - intros surplus Hbuf. rewrite Hbuf.
    rewrite firstn_all2 by (rewrite length_app; lia).
    rewrite startswith_app. cbn [negb].
    destruct (Nat.ltb_spec (length (expected ++ surplus)) (length expected))
      as [Hlt | _]; [rewrite length_app in Hlt; lia |].
    rewrite skipn_app, skipn_all, Nat.sub_diag. reflexivity.
Qed.

(** The relay's reply ["ok\n"] checked against a buffer that holds ["o"]
    (keep waiting), ["ok\nX"] (consumed, [X] stays) and ["no"] (refused). *)
Lemma check_and_remove_spec_witness :
  let at_buf b := set_buf (Connection_init 0 None) (list_byte_of_string b) in
  _check_and_remove (at_buf "o"%string) b_ok = Ok (false, at_buf "o"%string) /\
  _check_and_remove (set_buf (Connection_init 0 None) (b_ok ++ [x58])) b_ok
  = Ok (true, set_buf (set_buf (Connection_init 0 None) (b_ok ++ [x58])) [x58]) /\
  (exists e, _check_and_remove (at_buf "no"%string) b_ok = Raise e).
Proof.
  intros at_buf. split; [| split].
  - apply (proj1 (proj2 (proj2 (check_and_remove_spec (at_buf "o"%string) b_ok))))
      with (more := [x6b; x0a]); [intros H; discriminate H | reflexivity].
  - apply (proj2 (proj2 (proj2 (check_and_remove_spec
             (set_buf (Connection_init 0 None) (b_ok ++ [x58])) b_ok)))).
    reflexivity.
  - apply (proj1 (check_and_remove_spec (at_buf "no"%string) b_ok)).
    exists 0%nat, x6e, x6f. repeat split. discriminate.
Defined.

(** ** Winner arbitration, [connection_ready] *)

Lemma ready_calls_receiver (owner : Common) (calls : list (conn_ref * option string)) :
  is_sender owner = false ->
  ready_calls owner calls = (owner, map (fun _ => WaitForDecision) calls).
Proof.
  intros Hrole. induction calls as [|[p descr] calls IH]; [reflexivity |].
  cbn [ready_calls map]. unfold connection_ready. rewrite Hrole. cbn [negb].
  now rewrite IH.
Qed.

Lemma ready_calls_decided (owner : Common) (calls : list (conn_ref * option string)) :
  is_sender owner = true -> _winner owner <> None ->
  ready_calls owner calls = (owner, map (fun _ => Nevermind) calls).
Proof.
  intros Hrole Hwin. induction calls as [|[p descr] calls IH]; [reflexivity |].
  cbn [ready_calls map]. unfold connection_ready. rewrite Hrole. cbn [negb].
  destruct (_winner owner) eqn:E; [| congruence].
  now rewrite IH.
Qed.

Lemma winners_none (A : Type) (answer : conn_state) (calls : list A) :
  is_go answer = false -> winners (map (fun _ => answer) calls) = 0.
Proof.
  intros H. unfold winners. induction calls as [|c calls IH]; [reflexivity |].
  cbn [map filter]. now rewrite H.
Qed.

(** C3.  On a receiver every [connection_ready] call answers
    "wait-for-decision" and leaves the object as it was, [_winner]
    included.  On a sender without a winner the first call answers "go" and
    records the caller and its description; every later call answers
    "nevermind" and changes nothing.  Whatever the object and the calls, at
    most one call is answered "go". *)
Theorem connection_ready_arbitration
  (owner : Common) (p : conn_ref) (descr : option string)
  (later : list (conn_ref * option string)) :
  (is_sender owner = false ->
   ready_calls owner ((p, descr) :: later)
   = (owner, map (fun _ => WaitForDecision) ((p, descr) :: later))) /\
  (is_sender owner = true -> _winner owner = None ->
   ready_calls owner ((p, descr) :: later)
   = (set_winner owner p descr, Go :: map (fun _ => Nevermind) later) /\
   _winner (fst (ready_calls owner ((p, descr) :: later))) = Some p /\
   _winner_description (fst (ready_calls owner ((p, descr) :: later))) = descr) /\
  winners (snd (ready_calls owner ((p, descr) :: later))) <= 1 /\
  map state_name [WaitForDecision; Go; Nevermind]
  = ["wait-for-decision"; "go"; "nevermind"]%string.
Proof.
  assert (is_sender owner = true -> _winner owner = None ->
          ready_calls owner ((p, descr) :: later)
          = (set_winner owner p descr, Go :: map (fun _ => Nevermind) later))
    as Hfirst.
  { intros Hrole Hnone. cbn [ready_calls]. unfold connection_ready at 1.
    rewrite Hrole, Hnone. cbn [negb].
    rewrite ready_calls_decided; [reflexivity | exact Hrole | discriminate]. }
  split; [| split; [| split]].
  - apply ready_calls_receiver.
  - intros Hrole Hnone. rewrite (Hfirst Hrole Hnone). repeat split.
  - destruct (is_sender owner) eqn:Hrole.
    + destruct (_winner owner) eqn:Hwin.
      * rewrite ready_calls_decided; [| exact Hrole | congruence].
        cbn [snd]. rewrite winners_none; [lia | reflexivity].
      * rewrite (Hfirst eq_refl eq_refl). cbn [snd]. unfold winners.
        cbn [filter is_go length].
        change (length (filter is_go (map (fun _ => Nevermind) later)))
          with (winners (map (fun _ : conn_ref * option string => Nevermind) later)).
        rewrite winners_none; [lia | reflexivity].
    + rewrite ready_calls_receiver by exact Hrole.
      cbn [snd]. rewrite winners_none; [lia | reflexivity].
  - reflexivity.
Qed.

(** Three connections report to a sender and to a receiver. *)
Lemma connection_ready_arbitration_witness :
  ready_calls (TransitSender None)
    [(0, Some "->a"%string); (1, Some "->b"%string); (2, Some "<-c"%string)]
  = (set_winner (TransitSender None) 0 (Some "->a"%string), [Go; Nevermind; Nevermind]) /\
  ready_calls (TransitReceiver None)
    [(0, Some "->a"%string); (1, Some "->b"%string); (2, Some "<-c"%string)]
  = (TransitReceiver None, [WaitForDecision; WaitForDecision; WaitForDecision]).
Proof.
  split.
  - apply (proj1 (proj1 (proj2 (connection_ready_arbitration
             (TransitSender None) 0 (Some "->a"%string)
             [(1, Some "->b"%string); (2, Some "<-c"%string)])) eq_refl eq_refl)).
  - apply (proj1 (connection_ready_arbitration
             (TransitReceiver None) 0 (Some "->a"%string)
             [(1, Some "->b"%string); (2, Some "<-c"%string)]) eq_refl).
Defined.

(** ** The delivery queues, [_deliverRecords] *)

(** The loop hands the first records to the first readers, pair by pair,
    and stops when one queue is used up. *)
Lemma deliver_loop_spec (inbound : list bytes) (waiting : list nat) (log : list effect) :
  deliver_loop inbound waiting log
  = (skipn (length waiting) inbound,
     skipn (length inbound) waiting,
     log ++ callbacks_of (combine waiting inbound)).
Proof.
  revert waiting log.
  induction inbound as [|r inbound IH]; intros waiting log.
  - cbn. now rewrite skipn_nil, combine_nil, app_nil_r.
  - destruct waiting as [|d waiting].
    + cbn. now rewrite app_nil_r.
    + cbn [deliver_loop]. rewrite IH. cbn. now rewrite <- app_assoc.
Qed.

Lemma deliver_loop_empties (inbound : list bytes) (waiting : list nat) (log : list effect) :
  fst (fst (deliver_loop inbound waiting log)) = [] \/
  snd (fst (deliver_loop inbound waiting log)) = [].
Proof.
  rewrite deliver_loop_spec. cbn [fst snd].
  destruct (Nat.le_gt_cases (length inbound) (length waiting)).
  - left. now apply skipn_all2.
  - right. apply skipn_all2. lia.
Qed.

Lemma deliverRecords_fields (c : Connection) :
  _inbound_records (_deliverRecords c)
  = skipn (length (_waiting_reads c)) (_inbound_records c) /\
  _waiting_reads (_deliverRecords c)
  = skipn (length (_inbound_records c)) (_waiting_reads c) /\
  effects (_deliverRecords c)
  = effects c ++ callbacks_of (combine (_waiting_reads c) (_inbound_records c)) /\
  _consumer (_deliverRecords c) = _consumer c.
Proof.
  unfold _deliverRecords. rewrite deliver_loop_spec. repeat split.
Qed.

Lemma read_callbacks_app (a b : list effect) :
  read_callbacks (a ++ b) = read_callbacks a ++ read_callbacks b.
Proof. apply flat_map_app. Qed.

Lemma read_callbacks_of (pairs : list (nat * bytes)) :
  read_callbacks (callbacks_of pairs) = pairs.
Proof.
  induction pairs as [|[d r] pairs IH]; [reflexivity |].
  cbn. f_equal. exact IH.
Qed.

Lemma combine_app_r (A B : Type) (l : list A) (r x : list B) :
  combine l (r ++ x) = combine l r ++ combine (skipn (length r) l) x.
Proof.
  revert l. induction r as [|b r IH]; intros l.
  - now rewrite combine_nil.
  - destruct l as [|a l]; [reflexivity |].
    cbn. now rewrite IH.
Qed.

Lemma combine_app_l (A B : Type) (l y : list A) (r : list B) :
  combine (l ++ y) r = combine l r ++ combine y (skipn (length l) r).
Proof.
  revert r. induction l as [|a l IH]; intros r.
  - reflexivity.
  - destruct r as [|b r]; [cbn; now rewrite combine_nil |].
    cbn. now rewrite IH.
Qed.

Lemma skipn_short (A : Type) (n : nat) (x : A) : 1 <= n -> skipn n [x] = [].
Proof. intros H. apply skipn_all2. cbn. lia. Qed.

Lemma queues_reflect_arrive c0 c records asked r :
  queues_reflect c0 c records asked ->
  queues_reflect c0 (recordReceived c r) (records ++ [r]) asked.
Proof.
  intros (Hcons & Hin & Hwait & Hlog).
  unfold recordReceived. rewrite Hcons.
  destruct (deliverRecords_fields
              (set_inbound_records c (_inbound_records c ++ [r])))
    as (Ein & Ewait & Elog & Econs).
  cbn [_inbound_records _waiting_reads effects _consumer set_inbound_records]
    in Ein, Ewait, Elog, Econs.
  unfold queues_reflect. rewrite Ein, Ewait, Elog, Econs.
  rewrite read_callbacks_app, read_callbacks_of, Hlog.
  rewrite (combine_app_r asked records [r]), <- Hwait, <- app_assoc.
  split; [exact Hcons |].
  clear Ein Ewait Elog Econs.
  destruct (Nat.le_gt_cases (length asked) (length records)) as [Hle | Hgt].
  - assert (_waiting_reads c = []) as Hw
        by (rewrite Hwait; now apply skipn_all2).
    rewrite Hw, Hin. cbn [length skipn combine].
    repeat split.
    + rewrite skipn_app. replace (length asked - length records) with 0 by lia.
      reflexivity.
    + rewrite skipn_nil. symmetry. apply skipn_all2. rewrite length_app. cbn. lia.
  - assert (_inbound_records c = []) as Hi
        by (rewrite Hin; apply skipn_all2; lia).
    rewrite Hi. cbn [app length].
    repeat split.
    + rewrite skipn_short by (rewrite Hwait, length_skipn; lia).
      symmetry. apply skipn_all2. rewrite length_app. cbn. lia.
    + rewrite Hwait, skipn_skipn, length_app. cbn [length]. f_equal. lia.
Qed.

Lemma queues_reflect_read c0 c records asked d :
  queues_reflect c0 c records asked ->
  queues_reflect c0 (receive_record c d) records (asked ++ [d]).
Proof.
  intros (Hcons & Hin & Hwait & Hlog).
  unfold receive_record.
  destruct (deliverRecords_fields
              (set_waiting_reads c (_waiting_reads c ++ [d])))
    as (Ein & Ewait & Elog & Econs).
  cbn [_inbound_records _waiting_reads effects _consumer set_waiting_reads]
    in Ein, Ewait, Elog, Econs.
  unfold queues_reflect. rewrite Ein, Ewait, Elog, Econs.
  rewrite read_callbacks_app, read_callbacks_of, Hlog.
  rewrite (combine_app_l asked [d] records), <- Hin, <- app_assoc.
  split; [exact Hcons |].
  clear Ein Ewait Elog Econs.
  destruct (Nat.le_gt_cases (length records) (length asked)) as [Hle | Hgt].
  - assert (_inbound_records c = []) as Hi
        by (rewrite Hin; now apply skipn_all2).
    rewrite Hi, Hwait. cbn [length skipn combine].
    rewrite combine_nil.
    repeat split.
    + rewrite skipn_nil. symmetry. apply skipn_all2. rewrite length_app. cbn. lia.
    + rewrite skipn_app. replace (length records - length asked) with 0 by lia.
      reflexivity.
  - assert (_waiting_reads c = []) as Hw
        by (rewrite Hwait; apply skipn_all2; lia).
    rewrite Hw. cbn [app length].
    repeat split.
    + rewrite Hin, skipn_skipn, length_app. cbn [length]. f_equal. lia.
    + rewrite skipn_short by (rewrite Hin, length_skipn; lia).
      symmetry. apply skipn_all2. rewrite length_app. cbn. lia.
Qed.

Lemma queues_reflect_run c0 (ops : list queue_op) :
  _consumer c0 = None -> _inbound_records c0 = [] -> _waiting_reads c0 = [] ->
  queues_reflect c0 (fold_left queue_step ops c0) (arrivals ops) (readers ops).
Proof.
  intros Hcons Hin Hwait.
  induction ops as [|op ops IH] using rev_ind.
  - cbn. unfold queues_reflect. rewrite Hcons, Hin, Hwait, app_nil_r. auto.
  - rewrite fold_left_app. unfold arrivals, readers in *.
    rewrite !flat_map_app. cbn [fold_left flat_map queue_step].
    destruct op as [r | d]; rewrite !app_nil_r.
    + now apply queues_reflect_arrive.
    + now apply queues_reflect_read.
Qed.

(** C9.  After [recordReceived] (with no consumer attached) and after
    [receive_record], one of the two queues is empty.  From a connection
    whose queues are empty, after any series of these calls the readers
    were handed the records pairwise in the order both arrived: the log of
    callbacks is the readers zipped with the records, and what is left in
    either queue is what was not paired. *)
Theorem deliver_records_fifo (c : Connection) (ops : list queue_op) :
  _consumer c = None -> _inbound_records c = [] -> _waiting_reads c = [] ->
  (forall c1 r, _consumer c1 = None ->
     _inbound_records (recordReceived c1 r) = [] \/
     _waiting_reads (recordReceived c1 r) = []) /\
  (forall c1 d,
     _inbound_records (receive_record c1 d) = [] \/
     _waiting_reads (receive_record c1 d) = []) /\
  (_inbound_records (fold_left queue_step ops c) = [] \/
   _waiting_reads (fold_left queue_step ops c) = []) /\
  read_callbacks (effects (fold_left queue_step ops c))
  = read_callbacks (effects c) ++ combine (readers ops) (arrivals ops) /\
  _inbound_records (fold_left queue_step ops c)
  = skipn (length (readers ops)) (arrivals ops) /\
  _waiting_reads (fold_left queue_step ops c)
  = skipn (length (arrivals ops)) (readers ops).
Proof.
  intros Hcons Hin Hwait.
  assert (forall c1, _inbound_records (_deliverRecords c1) = [] \/
                     _waiting_reads (_deliverRecords c1) = []) as Hdeliver.
  { intros c1. destruct (deliverRecords_fields c1) as (Ein & Ewait & _).
    rewrite Ein, Ewait.
    destruct (Nat.le_gt_cases (length (_inbound_records c1))
                              (length (_waiting_reads c1))).
    - left. now apply skipn_all2.
    - right. apply skipn_all2. lia. }
  destruct (@queues_reflect_run c ops Hcons Hin Hwait) as (_ & Ein & Ewait & Elog).
  repeat split.
  - intros c1 r Hc1. unfold recordReceived. rewrite Hc1. apply Hdeliver.
  - intros c1 d. apply Hdeliver.
  - rewrite Ein, Ewait.
    destruct (Nat.le_gt_cases (length (arrivals ops)) (length (readers ops))).
    + left. now apply skipn_all2.
    + right. apply skipn_all2. lia.
  - exact Elog.
  - exact Ein.
  - exact Ewait.
Qed.

(** Two records arrive before anyone reads; three reads follow. *)
Lemma deliver_records_fifo_witness :
  let ops := [Arrive [x61]; Arrive [x62]; Read 7; Read 8; Read 9] in
  let c := fold_left queue_step ops (Connection_init 0 None) in
  read_callbacks (effects c) = [(7, [x61]); (8, [x62])] /\
  _inbound_records c = [] /\ _waiting_reads c = [9].
Proof.
  intros ops c.
  destruct (deliver_records_fifo (Connection_init 0 None) ops
              eq_refl eq_refl eq_refl) as (_ & _ & _ & Hlog & Hin & Hwait).
  split; [exact Hlog | split; [exact Hin | exact Hwait]].
Defined.

(** ** [describe] on a receiver *)

Section ReceiverOwner.
Variable P : Primitives.

Lemma keeps_expecting expected k : keeps_owner k -> keeps_owner (expecting expected k).
Proof.
  intros Hk owner c Hrole. unfold expecting.
  destruct (_check_and_remove c expected) as [[[|] c'] | e];
    [now apply Hk | reflexivity | reflexivity].
Qed.

Lemma keeps_relay k : keeps_owner k -> keeps_owner (block_relay k).
Proof.
  intros Hk owner c Hrole. unfold block_relay.
  destruct (state c); auto.
  apply keeps_expecting; [| exact Hrole].
  intros owner' c' Hrole'. now apply Hk.
Qed.

Lemma keeps_start k : keeps_owner k -> keeps_owner (block_start P k).
Proof.
  intros Hk owner c Hrole. unfold block_start.
  destruct (state c); auto.
  destruct (_send_this P owner) as [hs | e]; [| reflexivity].
  now apply Hk.
Qed.

Lemma keeps_handshake k : keeps_owner k -> keeps_owner (block_handshake P k).
Proof.
  intros Hk owner c Hrole. unfold block_handshake.
  destruct (state c); auto.
  destruct (_expect_this P owner) as [expected | e]; [| reflexivity].
  apply keeps_expecting; [| exact Hrole].
  intros owner' c' Hrole'.
  destruct (description c'); [| reflexivity].
  unfold connection_ready. rewrite Hrole'. cbn [negb]. now apply Hk.
Qed.

Lemma keeps_wait_for_decision k :
  keeps_owner k -> keeps_owner (block_wait_for_decision P k).
Proof.
  intros Hk owner c Hrole. unfold block_wait_for_decision.
  destruct (state c); auto.
  apply keeps_expecting; [| exact Hrole].
  intros owner' c' Hrole'.
  destruct (_negotiationSuccessful P owner' c'); [| reflexivity].
  now apply Hk.
Qed.

Lemma keeps_go k : keeps_owner k -> keeps_owner (block_go P k).
Proof.
  intros Hk owner c Hrole. unfold block_go.
  destruct (state c); auto.
  destruct (_negotiationSuccessful P owner _); [| reflexivity].
  now apply Hk.
Qed.

Lemma keeps_nevermind k : keeps_owner k -> keeps_owner (block_nevermind k).
Proof.
  intros Hk owner c Hrole. unfold block_nevermind.
  destruct (state c); auto.
Qed.

Lemma keeps_records k : keeps_owner k -> keeps_owner (block_records P k).
Proof.
  intros Hk owner c Hrole. unfold block_records.
  destruct (state c); auto.
  destruct (dataReceivedRECORDS P c); reflexivity.
Qed.

Lemma keeps_exception : keeps_owner block_exception.
Proof.
  intros owner c Hrole. unfold block_exception. destruct (state c); reflexivity.
Qed.

Lemma dataReceived_keeps_owner owner c data :
  is_sender owner = false ->
  fst (final (dataReceived P (owner, c) data)) = owner.
Proof.
  intros Hrole. unfold dataReceived.
  assert (fst (final (_dataReceived P (owner, c) data)) = owner) as H.
  { unfold _dataReceived.
    pose proof (keeps_relay (keeps_start (keeps_handshake
                  (keeps_wait_for_decision (keeps_go (keeps_nevermind
                     (keeps_records keeps_exception)))))))
      as Hblocks.
    destruct (state (set_buf c (buf c ++ data))) eqn:E;
      try (apply Hblocks; exact Hrole).
    reflexivity. }
  destruct (_dataReceived P (owner, c) data) as [a [o c'] | e [o c']];
    cbn in H |- *; [exact H |].
  destruct (isinstance_BadHandshake e); exact H.
Qed.

Lemma startNegotiation_keeps_owner owner c descr :
  is_sender owner = false ->
  fst (final (startNegotiation P (owner, c) descr)) = owner.
Proof.
  intros Hrole. unfold startNegotiation. now apply dataReceived_keeps_owner.
Qed.

(** No event changes whose turn it is to decide, and on a receiver none
    sets a winner. *)
Lemma step_receiver (s : system) (ev : event) :
  is_sender (sys_owner s) = false /\ _winner (sys_owner s) = None ->
  is_sender (sys_owner (step P s ev)) = false /\
  _winner (sys_owner (step P s ev)) = None.
Proof.
  intros [Hrole Hwin].
  destruct ev; cbn [step];
    try (unfold on_conn; destruct (nth_error (sys_conns s) i); cbn; now split);
    try (cbn; now split).
  - unfold add_their_direct_hints. destruct (all_text hints); cbn; now split.
  - unfold add_their_relay_hints. destruct (all_text hints); cbn; now split.
  - unfold on_world. destruct (nth_error (sys_conns s) i) as [c|]; [| now split].
    pose proof (@startNegotiation_keeps_owner (sys_owner s) c descr Hrole) as H.
    destruct (final (startNegotiation P (sys_owner s, c) descr)) as [o c'].
    cbn in H |- *. subst o. now split.
  - unfold on_world. destruct (nth_error (sys_conns s) i) as [c|]; [| now split].
    pose proof (@dataReceived_keeps_owner (sys_owner s) c data Hrole) as H.
    destruct (final (dataReceived P (sys_owner s, c) data)) as [o c'].
    cbn in H |- *. subst o. now split.
Qed.

End ReceiverOwner.

(** On a receiver no event touches the description of a winner either. *)
Lemma step_receiver_description (P : Primitives) (s : system) (ev : event) :
  is_sender (sys_owner s) = false ->
  _winner_description (sys_owner (step P s ev)) = _winner_description (sys_owner s).
Proof.
  intros Hrole.
  destruct ev; cbn [step];
    try (unfold on_conn; destruct (nth_error (sys_conns s) i); reflexivity);
    try reflexivity.
  - unfold add_their_direct_hints. destruct (all_text hints); reflexivity.
  - unfold add_their_relay_hints. destruct (all_text hints); reflexivity.
  - unfold on_world. destruct (nth_error (sys_conns s) i) as [c|]; [| reflexivity].
    pose proof (@startNegotiation_keeps_owner P (sys_owner s) c descr Hrole) as H.
    destruct (final (startNegotiation P (sys_owner s, c) descr)) as [o c'].
    cbn in H |- *. now subst o.
  - unfold on_world. destruct (nth_error (sys_conns s) i) as [c|]; [| reflexivity].
    pose proof (@dataReceived_keeps_owner P (sys_owner s) c data Hrole) as H.
    destruct (final (dataReceived P (sys_owner s, c) data)) as [o c'].
    cbn in H |- *. now subst o.
Qed.

(** C10.  On a receiver [connection_ready] assigns nothing: it hands back
    the very object it was given, [_winner] and [_winner_description]
    included, and answers "wait-for-decision".  So whatever happens to a
    [TransitReceiver] and to its connections (keys and hints set,
    connections built, negotiated, fed data, cancelled, lost), [_winner]
    and [_winner_description] both stay [None] and [describe()] answers
    "not yet established", also after a connection has reached state
    "records". *)
Theorem receiver_describe (P : Primitives) (relay : option string) (evs : list event) :
  (forall (o : Common) (p : conn_ref) (d : option string),
     is_sender o = false -> connection_ready o p d = (o, WaitForDecision)) /\
  _winner (sys_owner (run_events P (boot (TransitReceiver relay)) evs)) = None /\
  _winner_description (sys_owner (run_events P (boot (TransitReceiver relay)) evs))
  = None /\
  describe (sys_owner (run_events P (boot (TransitReceiver relay)) evs))
  = Some "not yet established"%string.
Proof.
  assert (forall s,
            is_sender (sys_owner s) = false /\ _winner (sys_owner s) = None /\
            _winner_description (sys_owner s) = None ->
            is_sender (sys_owner (run_events P s evs)) = false /\
            _winner (sys_owner (run_events P s evs)) = None /\
            _winner_description (sys_owner (run_events P s evs)) = None) as Hrun.
  { unfold run_events. induction evs as [|ev evs IH]; intros s Hs; [exact Hs |].
    cbn [fold_left]. apply IH.
    destruct Hs as (Hrole & Hwin & Hdescr).
    destruct (@step_receiver P s ev (conj Hrole Hwin)) as [Hrole' Hwin'].
    split; [exact Hrole' |]. split; [exact Hwin' |].
    now rewrite step_receiver_description. }
  destruct (Hrun (boot (TransitReceiver relay))) as (_ & Hwin & Hdescr);
    [now repeat split |].
  split.
  - intros o p d Hrole. unfold connection_ready. now rewrite Hrole.
  - split; [exact Hwin |]. split; [exact Hdescr |].
    unfold describe. now rewrite Hwin.
Qed.

(** A receiver's connection negotiates: the sender's handshake and its
    "go" arrive, the connection is in state "records", and [describe()]
    still answers "not yet established", with no description kept. *)
Lemma receiver_describe_witness :
  let evs := [EvSetTransitKey Fixture.key;
              EvBuildProtocol None;
              EvStartNegotiation 0 "<-peer";
              EvDataReceived 0 (build_sender_handshake Fixture.primitives Fixture.key
                                ++ b_go)] in
  let s := run_events Fixture.primitives (boot (TransitReceiver None)) evs in
  map state (sys_conns s) = [Records] /\
  _winner_description (sys_owner s) = None /\
  describe (sys_owner s) = Some "not yet established"%string.
Proof.
  intros evs s. split.
  - reflexivity.
  - destruct (receiver_describe Fixture.primitives None evs) as (_ & _ & Hd & H).
    split; [exact Hd | exact H].
Defined.

(** ** Records: nonces and framing *)

Lemma firstn_exact (A : Type) (a b : list A) : firstn (length a) (a ++ b) = a.
Proof. now rewrite firstn_app, Nat.sub_diag, firstn_O, app_nil_r, firstn_all. Qed.

Lemma skipn_exact (A : Type) (a b : list A) : skipn (length a) (a ++ b) = b.
Proof. now rewrite skipn_app, Nat.sub_diag, skipn_all. Qed.

Section RecordFacts.
Variable P : Primitives.

(** On a ciphertext that is not empty, [_decrypt_record] compares the
    big-endian value of its first 24 bytes with [next_receive_nonce]: a
    different value raises [BadNonce] and changes nothing; the same value
    adds one to [next_receive_nonce] and returns what [decrypt] returns. *)
Lemma decrypt_record_nonce (c : Connection) (b : byte) (rest : bytes) (expected : Z) :
  next_receive_nonce c = Some expected ->
  (Hex.be_value (firstn NONCE_SIZE (b :: rest)) <> expected ->
   _decrypt_record P c (b :: rest)
   = Raised (BadNonce (Hex.be_value (firstn NONCE_SIZE (b :: rest))) expected) c) /\
  (Hex.be_value (firstn NONCE_SIZE (b :: rest)) = expected ->
   forall key, receive_box c = Some key ->
   _decrypt_record P c (b :: rest)
   = match SecretBox_decrypt P key (b :: rest) with
     | Ok record => Returned record (set_next_receive_nonce c (Some (expected + 1)%Z))
     | Raise e => Raised e (set_next_receive_nonce c (Some (expected + 1)%Z))
     end).
Proof.
  intros Hnext. unfold _decrypt_record.
  change (firstn NONCE_SIZE (b :: rest)) with (b :: firstn 23 rest).
  rewrite int_base16_hexlify, Hnext.
  split.
  - intros Hne. apply Z.eqb_neq in Hne. now rewrite Hne.
  - intros Heq key Hkey. apply Z.eqb_eq in Heq. rewrite Heq. cbn [negb].
    cbn [receive_box set_next_receive_nonce]. now rewrite Hkey.
Qed.

(** An empty ciphertext has no nonce to read: [int(hexlify(b""), 16)]
    raises [ValueError] before any comparison. *)
Lemma decrypt_record_empty (c : Connection) :
  _decrypt_record P c [] = Raised ValueError c.
Proof. reflexivity. Qed.

(** A frame at the front of the buffer: [dataReceivedRECORDS] cuts it off
    and gives its ciphertext to [_decrypt_record]; the record that comes
    back goes to [recordReceived]. *)
Lemma dataReceivedRECORDS_frame (c : Connection) (len encrypted surplus : bytes) :
  buf c = len ++ encrypted ++ surplus ->
  length len = 4 -> Hex.be_value len = Z.of_nat (length encrypted) ->
  dataReceivedRECORDS P c
  = match _decrypt_record P (set_buf c surplus) encrypted with
    | Returned record c' => Returned tt (recordReceived c' record)
    | Raised e c' => Raised e c'
    end.
Proof.
  intros Hbuf Hl4 Hval. unfold dataReceivedRECORDS. rewrite Hbuf.
  rewrite !length_app, Hl4.
  destruct (Nat.ltb_spec (4 + (length encrypted + length surplus)) 4)
    as [Hlt | _]; [lia |].
  assert (firstn 4 (len ++ encrypted ++ surplus) = len) as ->
      by (rewrite <- Hl4; apply firstn_exact).
  assert (Hex.int_base16 (Hex.hexlify len) = Ok (Z.of_nat (length encrypted))) as ->.
  { destruct len as [|l0 ltail]; [discriminate Hl4 |].
    now rewrite int_base16_hexlify, Hval. }
  destruct (Z.ltb_spec (Z.of_nat (4 + (length encrypted + length surplus)))
                       (4 + Z.of_nat (length encrypted))) as [Hlt | _]; [lia |].
  rewrite Nat2Z.id.
  assert (skipn 4 (len ++ encrypted ++ surplus) = encrypted ++ surplus) as ->
      by (rewrite <- Hl4; apply skipn_exact).
  rewrite firstn_exact.
  replace (skipn (4 + length encrypted) (len ++ encrypted ++ surplus)) with surplus.
  2:{ rewrite <- Hl4, <- length_app, app_assoc. symmetry. apply skipn_exact. }
  reflexivity.
Qed.

Lemma send_record_not_bytes (c : Connection) (obj : pyobj) :
  (forall b, obj <> PyBytes b) -> send_record P c obj = Raised UsageError c.
Proof.
  intros H. destruct obj as [b | s | z |]; try reflexivity.
  now destruct (H b).
Qed.

Lemma send_record_oversized (c : Connection) (n : Z) (record : bytes) :
  send_nonce c = Some n -> (n < 2 ^ 192)%Z ->
  (2 ^ 32 <= Z.of_nat (length record))%Z ->
  send_record P c (PyBytes record) = Raised AssertionError c.
Proof.
  intros Hn Hlt Hlen. unfold send_record. rewrite Hn.
  change (8 * 24)%Z with 192%Z. change (8 * 4)%Z with 32%Z.
  destruct (Z.ltb_spec n (2 ^ 192)) as [_ | Hge]; [| lia]. cbn [negb].
  destruct (Z.ltb_spec (Z.of_nat (length record)) (2 ^ 32)) as [Hlt' | _]; [lia |].
  reflexivity.
Qed.

Lemma send_record_frame (c : Connection) (n : Z) (key record : bytes) :
  send_nonce c = Some n -> send_box c = Some key ->
  (0 <= n < 2 ^ 192)%Z ->
  (Z.of_nat (length record) < 2 ^ 32)%Z ->
  let nonce := big_endian 24 (Z.to_N n) in
  let encrypted := nonce ++ crypto_secretbox P key record nonce in
  (Z.of_nat (length encrypted) < 2 ^ 32)%Z ->
  send_record P c (PyBytes record)
  = Returned tt
      (emit (emit (set_send_nonce c (Some (n + 1)%Z))
                  (TransportWrite (big_endian 4 (N.of_nat (length encrypted)))))
            (TransportWrite encrypted)).
Proof.
  intros Hn Hkey Hrange Hlen nonce encrypted Hsealed.
  unfold send_record. rewrite Hn.
  change (8 * 24)%Z with 192%Z. change (8 * 4)%Z with 32%Z.
  destruct (Z.ltb_spec n (2 ^ 192)) as [_ | Hge]; [| lia]. cbn [negb].
  destruct (Z.ltb_spec (Z.of_nat (length record)) (2 ^ 32)) as [_ | Hge]; [| lia].
  cbn [negb].
  change 48 with (2 * 24). rewrite unhexlify_format by (change (256 ^ Z.of_nat 24)%Z with (2 ^ 192)%Z; lia).
  cbn [send_box set_send_nonce]. rewrite Hkey.
  unfold SecretBox_encrypt. rewrite length_big_endian. cbn [Nat.eqb NONCE_SIZE].
  fold nonce. fold encrypted.
  change 8 with (2 * 4).
  rewrite unhexlify_format by (change (256 ^ Z.of_nat 4)%Z with (2 ^ 32)%Z; lia).
  now rewrite <- nat_N_Z, N2Z.id.
Qed.

End RecordFacts.

(** C2, as the code has it.  For a connection that has its receive key and
    nonce, and a ciphertext of at least one byte: when the big-endian value
    of its first 24 bytes differs from [next_receive_nonce],
    [_decrypt_record] raises [BadNonce] and leaves the connection as it
    was; when it is equal, [next_receive_nonce] becomes one more, and the
    plaintext that [decrypt] returns is returned (an exception of [decrypt]
    is raised after the increment).  In [dataReceivedRECORDS] the ciphertext
    is the frame at the front of the buffer and the returned plaintext goes
    to [recordReceived]. *)
Theorem decrypt_record_checks_nonce (P : Primitives) (c : Connection)
  (b : byte) (rest : bytes) (expected : Z) (key : bytes) :
  next_receive_nonce c = Some expected -> receive_box c = Some key ->
  let encrypted := b :: rest in
  let nonce := Hex.be_value (firstn NONCE_SIZE encrypted) in
  (nonce <> expected ->
   _decrypt_record P c encrypted = Raised (BadNonce nonce expected) c) /\
  (nonce = expected ->
   (forall record, SecretBox_decrypt P key encrypted = Ok record ->
      _decrypt_record P c encrypted
      = Returned record (set_next_receive_nonce c (Some (expected + 1)%Z))) /\
   (forall e, SecretBox_decrypt P key encrypted = Raise e ->
      _decrypt_record P c encrypted
      = Raised e (set_next_receive_nonce c (Some (expected + 1)%Z)))) /\
  (forall len surplus,
     buf c = len ++ encrypted ++ surplus ->
     length len = 4 -> Hex.be_value len = Z.of_nat (length encrypted) ->
     (nonce <> expected ->
      dataReceivedRECORDS P c = Raised (BadNonce nonce expected) (set_buf c surplus)) /\
     (nonce = expected ->
      forall record, SecretBox_decrypt P key encrypted = Ok record ->
        dataReceivedRECORDS P c
        = Returned tt
            (recordReceived
               (set_next_receive_nonce (set_buf c surplus) (Some (expected + 1)%Z))
               record))).
Proof.
  intros Hnext Hkey encrypted nonce. subst encrypted nonce.
  destruct (@decrypt_record_nonce P c b rest expected Hnext) as [Hbad Hgood].
  split; [exact Hbad |].
  split.
  - intros Heq. split.
    + intros record Hdec. now rewrite (Hgood Heq key Hkey), Hdec.
    + intros e Hdec. now rewrite (Hgood Heq key Hkey), Hdec.
  - intros len surplus Hbuf Hl4 Hval.
    rewrite (dataReceivedRECORDS_frame P c len (b :: rest) surplus Hbuf Hl4 Hval).
    destruct (@decrypt_record_nonce P (set_buf c surplus) b rest expected Hnext)
      as [Hbad' Hgood'].
    split.
    + intros Hne. now rewrite (Hbad' Hne).
    + intros Heq record Hdec. now rewrite (Hgood' Heq key Hkey), Hdec.
Qed.

(** The first frame the sender wrote, at a receiver that expects nonce 0
    and at one that expects nonce 1. *)
Lemma decrypt_record_checks_nonce_witness :
  let c := Fixture.negotiated Fixture.receiver in
  let encrypted := repeat x00 24 ++ Fixture.tag ++ Fixture.m0 in
  _decrypt_record Fixture.primitives c encrypted
  = Returned Fixture.m0 (set_next_receive_nonce c (Some 1%Z)) /\
  _decrypt_record Fixture.primitives (set_next_receive_nonce c (Some 1%Z)) encrypted
  = Raised (BadNonce 0 1) (set_next_receive_nonce c (Some 1%Z)).
Proof.
  intros c encrypted. split.
  - destruct (@decrypt_record_checks_nonce Fixture.primitives c x00
                (repeat x00 23 ++ Fixture.tag ++ Fixture.m0) 0
                (Fixture.key ++ info_sender_key) eq_refl eq_refl)
      as (_ & Hgood & _).
    destruct (Hgood eq_refl) as [Hok _].
    apply Hok. reflexivity.
  - destruct (@decrypt_record_checks_nonce Fixture.primitives
                (set_next_receive_nonce c (Some 1%Z)) x00
                (repeat x00 23 ++ Fixture.tag ++ Fixture.m0) 1
                (Fixture.key ++ info_sender_key) eq_refl eq_refl)
      as (Hbad & _).
    apply Hbad. discriminate.
Defined.

(** A frame with an empty ciphertext, at a receiver that expects nonce 1:
    the value of no bytes is 0, which differs from 1, yet what is raised is
    [ValueError], not [BadNonce]. *)
Lemma decrypt_record_empty_not_bad_nonce :
  let c := set_next_receive_nonce (Fixture.negotiated Fixture.receiver) (Some 1%Z) in
  Hex.be_value (firstn NONCE_SIZE []) = 0%Z /\
  _decrypt_record Fixture.primitives c [] = Raised ValueError c /\
  dataReceivedRECORDS Fixture.primitives (set_buf c [x00; x00; x00; x00])
  = Raised ValueError (set_buf (set_buf c [x00; x00; x00; x00]) []) /\
  (forall got expected,
     raised (_decrypt_record Fixture.primitives c []) <> Some (BadNonce got expected)).
Proof.
  cbv zeta. repeat split. intros got expected. discriminate.
Qed.

(** C6, as the code has it.  [send_record] raises [UsageError] for an
    argument that is not a byte string.  A byte string of 2^32 bytes or more
    fails the [assert] and raises [AssertionError].  For a shorter byte
    string whose sealed form (nonce and ciphertext) is also shorter than
    2^32 bytes, with [send_nonce] in range, it writes the 4-byte big-endian
    length of the sealed form, then the sealed form, which starts with the
    24-byte big-endian nonce; the nonce is [send_nonce] as it was before the
    call, and [send_nonce] is one more afterwards. *)
Theorem send_record_checks (P : Primitives) (c : Connection) (n : Z) (key : bytes) :
  (forall obj, (forall b, obj <> PyBytes b) ->
               send_record P c obj = Raised UsageError c) /\
  (send_nonce c = Some n -> (n < 2 ^ 192)%Z ->
   forall record, (2 ^ 32 <= Z.of_nat (length record))%Z ->
                  send_record P c (PyBytes record) = Raised AssertionError c) /\
  (send_nonce c = Some n -> send_box c = Some key -> (0 <= n < 2 ^ 192)%Z ->
   forall record, (Z.of_nat (length record) < 2 ^ 32)%Z ->
     let nonce := big_endian 24 (Z.to_N n) in
     let encrypted := nonce ++ crypto_secretbox P key record nonce in
     let prefix := big_endian 4 (N.of_nat (length encrypted)) in
     (Z.of_nat (length encrypted) < 2 ^ 32)%Z ->
     send_record P c (PyBytes record)
     = Returned tt (emit (emit (set_send_nonce c (Some (n + 1)%Z))
                               (TransportWrite prefix))
                         (TransportWrite encrypted)) /\
     length nonce = 24 /\ Hex.be_value nonce = n /\
     length prefix = 4 /\ Hex.be_value prefix = Z.of_nat (length encrypted)).
Proof.
  split; [| split].
  - intros obj Hobj. now apply send_record_not_bytes.
  - intros Hn Hlt record Hlen. now apply send_record_oversized with (n := n).
  - intros Hn Hkey Hrange record Hlen nonce encrypted prefix Hsealed.
    split; [now apply send_record_frame |].
    split; [apply length_big_endian |].
    split.
    { unfold nonce. rewrite be_value_big_endian.
      - apply Z2N.id. lia.
      - apply N2Z.inj_lt. rewrite N2Z.inj_pow, Z2N.id by lia.
        change (Z.of_N 256 ^ Z.of_N (N.of_nat 24))%Z with (2 ^ 192)%Z. lia. }
    split; [apply length_big_endian |].
    unfold prefix. rewrite be_value_big_endian.
    + apply nat_N_Z.
    + apply N2Z.inj_lt. rewrite N2Z.inj_pow, nat_N_Z.
      change (Z.of_N 256 ^ Z.of_N (N.of_nat 4))%Z with (2 ^ 32)%Z. lia.
Qed.

(** The sender's first record, ["hello"], on a fresh records-state
    connection: nonce 0, and [send_nonce] becomes 1. *)
Lemma send_record_checks_witness :
  let c := Fixture.negotiated Fixture.sender in
  send_record Fixture.primitives c (PyText "hello") = Raised UsageError c /\
  send_nonce (final (send_record Fixture.primitives c (PyBytes Fixture.m0))) = Some 1%Z /\
  written (final (send_record Fixture.primitives c (PyBytes Fixture.m0)))
  = [x00; x00; x00; x2d] ++ repeat x00 24 ++ repeat x00 16 ++ Fixture.m0.
Proof.
  intros c.
  destruct (send_record_checks Fixture.primitives c 0
              (Fixture.key ++ info_sender_key)) as (Husage & _ & Hframe).
  split.
  - apply Husage. intros b. discriminate.
  - destruct (Hframe eq_refl eq_refl ltac:(cbv; split; [discriminate | reflexivity])
                     Fixture.m0 ltac:(reflexivity) ltac:(reflexivity))
      as (Hsent & _).
    rewrite Hsent. split; reflexivity.
Defined.

(** A length of 2^32 takes nine hexadecimal digits, which [unhexlify]
    refuses: the length prefix of a frame that long cannot be built. *)
Lemma length_prefix_overflows :
  Hex.format_0x 8 (2 ^ 32) = list_ascii_of_string "100000000" /\
  Hex.unhexlify (Hex.format_0x 8 (2 ^ 32)) = Raise BinasciiError.
Proof. split; reflexivity. Qed.

Lemma length_oversized : Z.of_nat (length Fixture.oversized) = (2 ^ 32)%Z.
Proof.
  unfold Fixture.oversized. rewrite repeat_length. apply Z2Nat.id. lia.
Qed.

(** A record of exactly 2^32 bytes is refused with [AssertionError], not
    with [UsageError]. *)
Lemma send_record_oversized_is_assertion :
  Z.of_nat (length Fixture.oversized) = (2 ^ 32)%Z /\
  raised (send_record Fixture.primitives (Fixture.negotiated Fixture.sender)
            (PyBytes Fixture.oversized))
  = Some AssertionError /\
  raised (send_record Fixture.primitives (Fixture.negotiated Fixture.sender)
            (PyBytes Fixture.oversized))
  <> Some UsageError.
Proof.
  assert (send_record Fixture.primitives (Fixture.negotiated Fixture.sender)
            (PyBytes Fixture.oversized)
          = Raised AssertionError (Fixture.negotiated Fixture.sender)) as Hraise.
  { apply send_record_oversized with (n := 0%Z).
    - reflexivity.
    - reflexivity.
    - rewrite length_oversized. apply Z.le_refl. }
  rewrite Hraise. cbn [raised].
  split; [exact length_oversized |].
  split; [reflexivity | discriminate].
Qed.

Section RoundTrip.
Variable P : Primitives.
Hypothesis box_ok : box_correct P.

(** One frame, alone in the receiver's buffer: the receiver in state
    "records" whose next nonce and key match the sender's takes the frame
    that [send_record] wrote, hands the record on and advances its nonce. *)
Lemma one_frame_round_trip (s r : Connection) (n : Z) (key record : bytes) :
  send_nonce s = Some n -> send_box s = Some key -> (0 <= n < 2 ^ 192)%Z ->
  (Z.of_nat (length record) < 2 ^ 32)%Z ->
  (Z.of_nat (24 + length (crypto_secretbox P key record (big_endian 24 (Z.to_N n))))
   < 2 ^ 32)%Z ->
  next_receive_nonce r = Some n -> receive_box r = Some key -> buf r = [] ->
  exists len encrypted,
    send_record P s (PyBytes record)
    = Returned tt (emit (emit (set_send_nonce s (Some (n + 1)%Z))
                              (TransportWrite len))
                        (TransportWrite encrypted)) /\
    dataReceivedRECORDS P (set_buf r (buf r ++ len ++ encrypted))
    = Returned tt
        (recordReceived
           (set_next_receive_nonce (set_buf (set_buf r (buf r ++ len ++ encrypted)) [])
                                   (Some (n + 1)%Z))
           record).
Proof.
  intros Hn Hkey Hrange Hlen Hsealed Hnext Hrkey Hbuf.
  set (nonce := big_endian 24 (Z.to_N n)) in *.
  set (sealed := crypto_secretbox P key record nonce) in *.
  assert (length nonce = 24) as Hl24 by apply length_big_endian.
  assert (Hex.be_value nonce = n) as Hnv.
  { unfold nonce. rewrite be_value_big_endian; [apply Z2N.id; lia |].
    apply N2Z.inj_lt. rewrite N2Z.inj_pow, Z2N.id by lia.
    change (Z.of_N 256 ^ Z.of_N (N.of_nat 24))%Z with (2 ^ 192)%Z. lia. }
  set (encrypted := nonce ++ sealed).
  assert (length encrypted = 24 + length sealed) as Hlenc.
  { unfold encrypted. now rewrite length_app, Hl24. }
  set (len := big_endian 4 (N.of_nat (length encrypted))).
  assert (length len = 4) as Hl4 by apply length_big_endian.
  assert (Hex.be_value len = Z.of_nat (length encrypted)) as Hval.
  { unfold len. rewrite be_value_big_endian; [apply nat_N_Z |].
    apply N2Z.inj_lt. rewrite N2Z.inj_pow, nat_N_Z.
    change (Z.of_N 256 ^ Z.of_N (N.of_nat 4))%Z with (2 ^ 32)%Z.
    rewrite Hlenc. exact Hsealed. }
  assert (firstn 4 (len ++ encrypted) = len) as Hf4
      by (rewrite <- Hl4; apply firstn_exact).
  assert (skipn 4 (len ++ encrypted) = encrypted) as Hs4
      by (rewrite <- Hl4; apply skipn_exact).
  assert (firstn NONCE_SIZE encrypted = nonce) as Hfirst
      by (unfold NONCE_SIZE; rewrite <- Hl24; apply firstn_exact).
  assert (skipn NONCE_SIZE encrypted = sealed) as Hskip
      by (unfold NONCE_SIZE; rewrite <- Hl24; apply skipn_exact).
  exists len, encrypted. split.
  - apply send_record_frame; assumption.
  - rewrite Hbuf. cbn [app].
    unfold dataReceivedRECORDS. cbn [buf set_buf].
    rewrite length_app, Hl4, Hf4, Hs4.
    destruct (Nat.ltb_spec (4 + length encrypted) 4) as [Hlt | _]; [lia |].
    assert (Hex.int_base16 (Hex.hexlify len) = Ok (Z.of_nat (length encrypted)))
      as Hint.
    { destruct len as [|l0 ltail]; [discriminate Hl4 |].
      now rewrite int_base16_hexlify, Hval. }
    rewrite Hint.
    destruct (Z.ltb_spec (Z.of_nat (4 + length encrypted))
                         (4 + Z.of_nat (length encrypted))) as [Hlt | _]; [lia |].
    rewrite Nat2Z.id, firstn_all.
    replace (skipn (4 + length encrypted) (len ++ encrypted)) with (@nil byte).
    2:{ symmetry. apply skipn_all2. rewrite length_app. lia. }
    assert (exists e0 etail, encrypted = e0 :: etail) as (e0 & etail & Eenc).
    { destruct encrypted as [|e0 etail]; [discriminate Hlenc | eauto]. }
    pose proof (@decrypt_record_nonce P
                  (set_buf (set_buf r (len ++ encrypted)) []) e0 etail n Hnext)
      as [_ Hmatch].
    rewrite <- Eenc, Hfirst in Hmatch.
    rewrite (Hmatch Hnv key Hrkey).
    unfold SecretBox_decrypt. rewrite Hfirst, Hskip, Hl24.
    cbn [Nat.eqb NONCE_SIZE].
    unfold sealed. rewrite box_ok. reflexivity.
Qed.

End RoundTrip.

(** C1, at the input where the code leaves the claim: two frames in one
    chunk.  The sender sends ["hello"] and ["world"] (nonces 0 and 1); the
    receiver is given everything the sender wrote in a single
    [dataReceived] call.  It hands on ["hello"] only: [dataReceivedRECORDS]
    runs once, and the whole second frame stays in the buffer.  The frame
    is complete: a later call, even with no new data, hands on ["world"]. *)
Theorem single_chunk_delivers_one_record :
  let wire := written Fixture.sent in
  let rx := dataReceived Fixture.primitives
              (Fixture.receiver, Fixture.negotiated Fixture.receiver) wire in
  let rx' := dataReceived Fixture.primitives (final rx) [] in
  send_nonce Fixture.sent = Some 2%Z /\
  raised rx = None /\
  _inbound_records (snd (final rx)) = [Fixture.m0] /\
  _inbound_records (snd (final rx)) <> [Fixture.m0; Fixture.m1] /\
  length (buf (snd (final rx))) = 49 /\
  wire = firstn 49 wire ++ buf (snd (final rx)) /\
  _inbound_records (snd (final rx')) = [Fixture.m0; Fixture.m1] /\
  buf (snd (final rx')) = [].
Proof.
  cbv zeta. repeat split; try reflexivity. discriminate.
Qed.

(** ** Dialing *)

Section DialFacts.
Variable py_int : string -> res Z.

Lemma endpoint_no_colon (hint : string) :
  contains ":" hint = false -> _endpoint_from_hint py_int hint = Ok None.
Proof. intros H. unfold _endpoint_from_hint. now rewrite H. Qed.

Lemma endpoint_other_scheme (hint : string) :
  hd EmptyString (split_on ":" hint) <> "tcp"%string ->
  _endpoint_from_hint py_int hint = Ok None.
Proof.
  intros H. unfold _endpoint_from_hint.
  destruct (contains ":" hint); [| reflexivity]. cbn [negb].
  apply String.eqb_neq in H. now rewrite H.
Qed.

Lemma direct_loop_spec (hints : list string) (cs : list contender) (delay : seconds) :
  (forall h e, In h hints -> _endpoint_from_hint py_int h <> Raise e) ->
  direct_loop py_int hints cs delay
  = Returned (if existsb (viable py_int) hints then RELAY_DELAY else delay)
             (cs ++ direct_dials py_int hints).
Proof.
  revert cs delay. induction hints as [|h hints IH]; intros cs delay Hok.
  - cbn. now rewrite app_nil_r.
  - cbn [direct_loop direct_dials flat_map existsb]. unfold viable at 1.
    assert (forall h' e, In h' hints -> _endpoint_from_hint py_int h' <> Raise e)
      as Hrest by (intros h' e Hin; apply Hok; now right).
    destruct (_endpoint_from_hint py_int h) as [[ep|] | e] eqn:E.
    + rewrite IH by exact Hrest. cbn [orb].
      rewrite <- app_assoc. cbn [app].
      now destruct (existsb (viable py_int) hints).
    + rewrite IH by exact Hrest. reflexivity.
    + exfalso. apply (Hok h e); [now left | exact E].
Qed.

Lemma relay_loop_spec (hints : list string) (cs : list contender) (delay : seconds) :
  (forall h e, In h hints -> _endpoint_from_hint py_int h <> Raise e) ->
  relay_loop py_int hints cs delay
  = Returned tt (cs ++ relay_dials py_int delay hints).
Proof.
  revert cs. induction hints as [|h hints IH]; intros cs Hok.
  - cbn. now rewrite app_nil_r.
  - cbn [relay_loop relay_dials flat_map].
    assert (forall h' e, In h' hints -> _endpoint_from_hint py_int h' <> Raise e)
      as Hrest by (intros h' e Hin; apply Hok; now right).
    destruct (_endpoint_from_hint py_int h) as [[ep|] | e] eqn:E.
    + rewrite IH by exact Hrest. rewrite <- app_assoc. reflexivity.
    + rewrite IH by exact Hrest. reflexivity.
    + exfalso. apply (Hok h e); [now left | exact E].
Qed.

Lemma direct_dials_not_relay (hints : list string) :
  filter is_relay_dial (direct_dials py_int hints) = [].
Proof.
  induction hints as [|h hints IH]; [reflexivity |].
  cbn [direct_dials flat_map]. rewrite filter_app. fold (direct_dials py_int hints).
  rewrite IH, app_nil_r.
  now destruct (_endpoint_from_hint py_int h) as [[ep|] | e].
Qed.

Lemma relay_dials_delay (delay : seconds) (hints : list string) (c : contender) :
  In c (relay_dials py_int delay hints) -> dial_delay c = delay.
Proof.
  unfold relay_dials. rewrite in_flat_map. intros (h & _ & Hc).
  destruct (_endpoint_from_hint py_int h) as [[ep|] | e]; cbn in Hc;
    try contradiction.
  destruct Hc as [<- | []]. reflexivity.
Qed.

Lemma relay_dials_count (delay : seconds) (hints : list string) :
  length (relay_dials py_int delay hints) = length (filter (viable py_int) hints).
Proof.
  induction hints as [|h hints IH]; [reflexivity |].
  cbn [relay_dials flat_map filter]. rewrite length_app.
  fold (relay_dials py_int delay hints). rewrite IH. unfold viable at 2.
  now destruct (_endpoint_from_hint py_int h) as [[ep|] | e].
Qed.

Lemma relay_dials_all_relay (delay : seconds) (hints : list string) :
  filter is_relay_dial (relay_dials py_int delay hints) = relay_dials py_int delay hints.
Proof.
  induction hints as [|h hints IH]; [reflexivity |].
  cbn [relay_dials flat_map]. rewrite filter_app.
  fold (relay_dials py_int delay hints). rewrite IH.
  now destruct (_endpoint_from_hint py_int h) as [[ep|] | e].
Qed.

End DialFacts.

(** C7, at the inputs where the code leaves the claim.  A hint with no
    colon, or with a scheme other than "tcp", gives [None] without raising.
    A "tcp" hint with no port raises [IndexError] at [pieces[2]], and one
    whose port is not a number raises what [int] raises. *)
Theorem endpoint_from_hint_raises (py_int : string -> res Z) :
  _endpoint_from_hint py_int "tcp:example.com" = Raise IndexError /\
  _endpoint_from_hint py_int "tcp:" = Raise IndexError /\
  _endpoint_from_hint Fixture.int "tcp:example.com:http" = Raise ValueError /\
  (forall hint, contains ":" hint = false ->
                _endpoint_from_hint py_int hint = Ok None) /\
  (forall hint, hd EmptyString (split_on ":" hint) <> "tcp"%string ->
                _endpoint_from_hint py_int hint = Ok None).
Proof.
  repeat split; try reflexivity.
  - apply endpoint_no_colon.
  - apply endpoint_other_scheme.
Qed.

(** X27.  When the listener exists, both hint sets were given and no hint
    makes [_endpoint_from_hint] raise, [_connect] returns, having created
    the listener's Deferred, one dial per viable direct hint and one delayed
    dial per viable relay hint, in this order.  Every delayed dial has the
    same delay: 2.0 seconds ([RELAY_DELAY]) exactly when some direct hint
    was viable, and 0 when none was.  The arbiter's Deferred gets a timer
    of 2 * TIMEOUT = 30 seconds. *)
Theorem relay_stagger (py_int : string -> res Z) (self : Common)
  (direct relay : list string) :
  _listener_d self = true ->
  _their_direct_hints self = Some direct ->
  _their_relay_hints self = Some relay ->
  (forall h e, In h (direct ++ relay) -> _endpoint_from_hint py_int h <> Raise e) ->
  let delay := if existsb (viable py_int) direct then RELAY_DELAY else no_delay in
  let contenders :=
    ListenerD :: direct_dials py_int direct ++ relay_dials py_int delay relay in
  _connect py_int self
  = Returned {| nf_timeout := 30; nf_contenders := contenders |} contenders /\
  (forall c, In c contenders -> is_relay_dial c = true ->
     (dial_delay c = RELAY_DELAY <->
      exists h, In h direct /\ viable py_int h = true) /\
     ((forall h, In h direct -> viable py_int h = false) ->
      dial_delay c = no_delay)) /\
  length (filter is_relay_dial contenders) = length (filter (viable py_int) relay) /\
  RELAY_DELAY = QArith_base.Qmake 2 1 /\
  (2 * TIMEOUT = 30)%Z.
Proof.
  intros Hlistener Hdirect Hrelay Hok delay contenders.
  assert (forall h e, In h direct -> _endpoint_from_hint py_int h <> Raise e)
    as Hok_direct by (intros h e Hin; apply Hok, in_or_app; now left).
  assert (forall h e, In h relay -> _endpoint_from_hint py_int h <> Raise e)
    as Hok_relay by (intros h e Hin; apply Hok, in_or_app; now right).
  split; [| split; [| split; [| split]]].
  - unfold _connect. rewrite Hlistener, Hdirect, Hrelay. cbn [negb].
    rewrite direct_loop_spec by exact Hok_direct.
    rewrite relay_loop_spec by exact Hok_relay.
    reflexivity.
  - intros c Hin Hrelay_dial.
    assert (dial_delay c = delay) as Hdelay.
    { destruct Hin as [<- | Hin]; [discriminate Hrelay_dial |].
      apply in_app_or in Hin. destruct Hin as [Hin | Hin].
      - pose proof (direct_dials_not_relay py_int direct) as Hnone.
        assert (In c (filter is_relay_dial (direct_dials py_int direct))) as Hc
            by (apply filter_In; now split).
        rewrite Hnone in Hc. destruct Hc.
      - now apply relay_dials_delay with (py_int := py_int) (hints := relay). }
    rewrite Hdelay. unfold delay.
    destruct (existsb (viable py_int) direct) eqn:E.
    + split.
      * split; [intros _ | reflexivity]. now apply existsb_exists.
      * intros Hnone. apply existsb_exists in E as (h & Hin' & Hv).
        rewrite (Hnone h Hin') in Hv. discriminate Hv.
    + split; [| reflexivity].
      split; [discriminate |].
      intros Hex. apply existsb_exists in Hex. congruence.
  - unfold contenders. cbn [filter is_relay_dial]. rewrite filter_app.
    rewrite direct_dials_not_relay, relay_dials_all_relay. cbn [app].
    apply relay_dials_count.
  - reflexivity.
  - reflexivity.
Qed.

(** One direct hint and one relay hint: the relay is dialled 2.0 seconds
    later.  An onion hint in place of the direct one: at once. *)
Lemma relay_stagger_witness :
  let self direct := set_their_relay_hints
                       (set_their_direct_hints
                          (set_listener_d (TransitSender None)) [direct])
                       ["tcp:relay.example:4001"%string] in
  nf_contenders (match _connect Fixture.int (self "tcp:10.0.0.7:4000"%string) with
                 | Returned nf _ => nf
                 | Raised _ _ => {| nf_timeout := 0; nf_contenders := [] |}
                 end)
  = [ListenerD;
     StartConnector {| ep_host := "10.0.0.7"; ep_port := 4000 |} "->tcp:10.0.0.7:4000";
     DeferLater RELAY_DELAY {| ep_host := "relay.example"; ep_port := 4001 |}
                "->relay:tcp:relay.example:4001"] /\
  nf_contenders (match _connect Fixture.int (self "onion:abcdef:80"%string) with
                 | Returned nf _ => nf
                 | Raised _ _ => {| nf_timeout := 0; nf_contenders := [] |}
                 end)
  = [ListenerD;
     DeferLater no_delay {| ep_host := "relay.example"; ep_port := 4001 |}
                "->relay:tcp:relay.example:4001"].
Proof.
  intros self.
  assert (forall direct,
             In direct ["tcp:10.0.0.7:4000"%string; "onion:abcdef:80"%string] ->
             forall h e, In h ([direct] ++ ["tcp:relay.example:4001"%string]) ->
                         _endpoint_from_hint Fixture.int h <> Raise e) as Hok.
  { intros direct [<- | [<- | []]] h e [<- | [<- | []]]; discriminate. }
  split.
  - destruct (@relay_stagger Fixture.int (self "tcp:10.0.0.7:4000"%string)
                [_] [_] eq_refl eq_refl eq_refl
                (Hok _ (or_introl eq_refl))) as (Hconnect & _).
    rewrite Hconnect. reflexivity.
  - destruct (@relay_stagger Fixture.int (self "onion:abcdef:80"%string)
                [_] [_] eq_refl eq_refl eq_refl
                (Hok _ (or_intror (or_introl eq_refl)))) as (Hconnect & _).
    rewrite Hconnect. reflexivity.
Defined.

(** A hint on which [_endpoint_from_hint] raises ends either loop, wherever
    in the set it comes. *)
Lemma direct_loop_raises (py_int : string -> res Z) (hints : list string)
  (cs : list contender) (delay : seconds) :
  (exists h e, In h hints /\ _endpoint_from_hint py_int h = Raise e) ->
  exists e cs', direct_loop py_int hints cs delay = Raised e cs'.
Proof.
  revert cs delay. induction hints as [|h hints IH]; intros cs delay (h' & e & Hin & E).
  - destruct Hin.
  - cbn [direct_loop].
    destruct (_endpoint_from_hint py_int h) as [[ep|] | e0] eqn:E0.
    + destruct Hin as [-> | Hin]; [congruence |]. apply IH. eauto.
    + destruct Hin as [-> | Hin]; [congruence |]. apply IH. eauto.
    + eauto.
Qed.

Lemma relay_loop_raises (py_int : string -> res Z) (hints : list string)
  (cs : list contender) (delay : seconds) :
  (exists h e, In h hints /\ _endpoint_from_hint py_int h = Raise e) ->
  exists e cs', relay_loop py_int hints cs delay = Raised e cs'.
Proof.
  revert cs. induction hints as [|h hints IH]; intros cs (h' & e & Hin & E).
  - destruct Hin.
  - cbn [relay_loop].
    destruct (_endpoint_from_hint py_int h) as [[ep|] | e0] eqn:E0.
    + destruct Hin as [-> | Hin]; [congruence |]. apply IH. eauto.
    + destruct Hin as [-> | Hin]; [congruence |]. apply IH. eauto.
    + eauto.
Qed.

Lemma connect_raises (py_int : string -> res Z) (self : Common) :
  (forall direct relay,
     _their_direct_hints self = Some direct ->
     _their_relay_hints self = Some relay ->
     exists h e, In h (direct ++ relay) /\ _endpoint_from_hint py_int h = Raise e) ->
  exists e cs, _connect py_int self = Raised e cs.
Proof.
  intros Hbad. unfold _connect.
  destruct (_listener_d self); cbn [negb]; [| eauto].
  destruct (_their_direct_hints self) as [direct|] eqn:Ed; [| eauto].
  destruct (direct_loop py_int direct [ListenerD] no_delay) as [delay cs | e cs] eqn:El;
    [| eauto].
  destruct (_their_relay_hints self) as [relay|] eqn:Er; [| eauto].
  destruct (Hbad direct relay eq_refl eq_refl) as (h & e & Hin & E).
  apply in_app_or in Hin. destruct Hin as [Hin | Hin].
  - destruct (@direct_loop_raises py_int direct [ListenerD] no_delay) as (e' & cs' & El');
      [eauto | congruence].
  - destruct (@relay_loop_raises py_int relay cs delay) as (e' & cs' & El');
      [eauto |].
    rewrite El'. eauto.
Qed.

(** C8, at the inputs where the code leaves the claim: a "tcp" hint with
    no port among the peer's hints.  The hint is text, so
    [add_their_direct_hints] and [add_their_relay_hints] take it.
    [_endpoint_from_hint] raises [IndexError] on it (the defect of C7), and
    [_connect] does not catch that.  With such a direct hint [_connect]
    raises before it has scheduled any relay dial, viable as the relay hint
    is.  With such a relay hint it raises after the direct dial was
    started, and after the relay dials of the hints that came before it
    were scheduled.  Wherever the hint comes in either set, [_connect]
    raises and does not return: no arbiter is made and no timer set, so
    the Deferreds created so far are capped by nothing and nothing will
    cancel them.  A hint of another type in the same places is skipped, as
    the loops mean it to be: the relay dials then get their delay and the
    timer of 30 seconds is set. *)
Theorem connect_raises_on_malformed_hint :
  let owner := set_listener_d (TransitSender None) in
  let heard direct relay :=
    set_their_relay_hints (set_their_direct_hints owner direct) relay in
  let dial := StartConnector {| ep_host := "10.0.0.7"; ep_port := 4000 |}
                             "->tcp:10.0.0.7:4000" in
  let relay_dial delay :=
    DeferLater delay {| ep_host := "relay.example"; ep_port := 4001 |}
               "->relay:tcp:relay.example:4001" in
  add_their_direct_hints owner [PyText "tcp:example.com"]
  = Ok (set_their_direct_hints owner ["tcp:example.com"%string]) /\
  add_their_relay_hints owner [PyText "tcp:example.com"]
  = Ok (set_their_relay_hints owner ["tcp:example.com"%string]) /\
  viable Fixture.int "tcp:relay.example:4001" = true /\
  viable Fixture.int "tcp:10.0.0.7:4000" = true /\
  _connect Fixture.int (heard ["tcp:example.com"%string]
                              ["tcp:relay.example:4001"%string])
  = Raised IndexError [ListenerD] /\
  _connect Fixture.int (heard ["tcp:10.0.0.7:4000"%string]
                              ["tcp:example.com"%string])
  = Raised IndexError [ListenerD; dial] /\
  _connect Fixture.int (heard ["tcp:10.0.0.7:4000"%string]
                              ["tcp:relay.example:4001"%string; "tcp:example.com"%string])
  = Raised IndexError [ListenerD; dial; relay_dial RELAY_DELAY] /\
  (forall (py_int : string -> res Z) (direct relay : list string),
     In "tcp:example.com"%string (direct ++ relay) ->
     (exists e cs, _connect py_int (heard direct relay) = Raised e cs) /\
     (forall nf cs, _connect py_int (heard direct relay) <> Returned nf cs)) /\
  _connect Fixture.int (heard ["onion:abcdef:80"%string]
                              ["tcp:relay.example:4001"%string])
  = Returned {| nf_timeout := 30;
                nf_contenders := [ListenerD; relay_dial no_delay] |}
             [ListenerD; relay_dial no_delay] /\
  _connect Fixture.int (heard ["tcp:10.0.0.7:4000"%string]
                              ["tcp:relay.example:4001"%string; "onion:abcdef:80"%string])
  = Returned {| nf_timeout := 30;
                nf_contenders := [ListenerD; dial; relay_dial RELAY_DELAY] |}
             [ListenerD; dial; relay_dial RELAY_DELAY].
Proof.
  intros owner heard dial relay_dial.
  assert (forall (py_int : string -> res Z) (direct relay : list string),
            In "tcp:example.com"%string (direct ++ relay) ->
            exists e cs, _connect py_int (heard direct relay) = Raised e cs) as Hraises.
  { intros py_int direct relay Hin. apply connect_raises.
    intros direct' relay' Ed Er. cbn in Ed, Er.
    injection Ed as <-. injection Er as <-.
    exists "tcp:example.com"%string, IndexError. split; [exact Hin | reflexivity]. }
  split; [reflexivity |]. split; [reflexivity |].
  split; [reflexivity |]. split; [reflexivity |].
  split; [reflexivity |]. split; [reflexivity |].
  split; [reflexivity |].
  split.
  - intros py_int direct relay Hin. split; [now apply Hraises |].
    intros nf cs E. destruct (Hraises py_int direct relay Hin) as (e & cs' & E').
    congruence.
  - split; reflexivity.
Qed.

(** ** The race arbiter *)

Section ArbiterFacts.
Import Arbiter.
Variable V : Type.
Implicit Types (a b : T V) (d : nat) (l : list nat).

Lemma length_set_nth d (x : deferred V) cs : length (set_nth d x cs) = length cs.
Proof.
  revert d. induction cs as [|c cs IH]; intros [|d]; cbn; auto.
Qed.

Lemma nth_set_nth_same d (x : deferred V) cs :
  d < length cs -> nth d (set_nth d x cs) Waiting = x.
Proof.
  revert d. induction cs as [|c cs IH]; intros [|d] H; cbn in *; try lia; auto.
  apply IH. lia.
Qed.

Lemma nth_set_nth_other d d' (x : deferred V) cs :
  d <> d' -> nth d' (set_nth d x cs) Waiting = nth d' cs Waiting.
Proof.
  revert d d'. induction cs as [|c cs IH]; intros [|d] [|d'] H; cbn; auto; try lia.
Qed.

Lemma mem_true d l : mem d l = true <-> In d l.
Proof.
  unfold mem. rewrite existsb_exists. split.
  - intros (x & Hin & Heq). apply Nat.eqb_eq in Heq. now subst.
  - intros Hin. exists d. split; [exact Hin | apply Nat.eqb_refl].
Qed.

Lemma remove_head d l : ~ In d l -> List.remove Nat.eq_dec d (d :: l) = l.
Proof. intros H. rewrite remove_cons. now apply notin_remove. Qed.

Lemma NoDup_remove_any d l : NoDup l -> NoDup (List.remove Nat.eq_dec d l).
Proof.
  induction 1 as [|x l Hx Hnd IH]; cbn; [constructor |].
  destruct (Nat.eq_dec d x); [exact IH |].
  constructor; [| exact IH].
  intros Hin. apply in_remove in Hin. tauto.
Qed.

(** What the three callbacks do for a contender that failed. *)
Lemma on_failure_fields b d f :
  contenders (on_failure b d f) = contenders b /\
  hooked (on_failure b d f) = hooked b /\
  cancelled (on_failure b d f) = cancelled b /\
  _remaining (on_failure b d f) = List.remove Nat.eq_dec d (_remaining b) /\
  _have_winner (on_failure b d f) = _have_winner b /\
  _first_success (on_failure b d f) = _first_success b /\
  _first_failure (on_failure b d f) = Some (first_recorded b f) /\
  (List.remove Nat.eq_dec d (_remaining b) <> [] ->
   _fired (on_failure b d f) = _fired b /\
   _winner_d (on_failure b d f) = _winner_d b) /\
  (List.remove Nat.eq_dec d (_remaining b) = [] ->
   _fired b = false -> _winner_d b = Waiting ->
   _fired (on_failure b d f) = true /\
   _winner_d (on_failure b d f)
   = if _have_winner b
     then match _first_success b with
          | Some v => Called (Success v)
          | None => Waiting
          end
     else Called (Failure (first_recorded b f))).
Proof.
  unfold on_failure, _maybe_done, _failed, _remove, first_recorded.
  destruct (_first_failure b) as [e|] eqn:Ef;
    destruct (List.remove Nat.eq_dec d (_remaining b)) as [|x rest] eqn:Er;
    cbn; rewrite ?Er, ?Ef; cbn;
    destruct (_fired b) eqn:Efired; cbn; rewrite ?Ef;
    repeat split; try congruence; intros; try congruence.
  all: match goal with H : _winner_d _ = Waiting |- _ => now rewrite H end.
Qed.

(** Cancelling what is left once a winner is recorded: every contender
    still waited for is called with [CancelledError], and when the last one
    is gone the summary fires with the recorded success. *)
Lemma cancel_all l : forall a v,
  _remaining a = l -> NoDup l ->
  (forall d, In d l ->
     d < length (contenders a) /\ status a d = Waiting /\ mem d (hooked a) = true) ->
  _have_winner a = true -> _first_success a = Some v ->
  _fired a = false -> _winner_d a = Waiting ->
  let a' := fold_left (@cancel_contender V) l a in
  _remaining a' = [] /\
  cancelled a' = cancelled a ++ l /\
  (forall d, In d l -> status a' d = Called (Failure CancelledError)) /\
  (forall d, ~ In d l -> status a' d = status a d) /\
  _winner_d (_maybe_done a') = Called (Success v).
Proof.
  induction l as [|d l IH]; intros a v Hrem Hnd Hwait Hwin Hfirst Hfired Hsummary.
  - cbn. rewrite app_nil_r. repeat split; auto.
    + intros d [].
    + unfold _maybe_done. rewrite Hrem, Hfired. cbn. now rewrite Hsummary, Hwin, Hfirst.
  - cbn [fold_left].
    inversion Hnd as [|? ? Hnotin Hnd']; subst.
    destruct (Hwait d (or_introl eq_refl)) as (Hlt & Hst & Hhook).
    set (b := mark_cancelled (mark_called a d (Failure CancelledError)) d).
    assert (cancel_contender a d = on_failure b d CancelledError) as Ea1.
    { unfold cancel_contender. rewrite Hst. fold b.
      replace (hooked b) with (hooked a) by reflexivity. now rewrite Hhook. }
    rewrite Ea1.
    destruct (on_failure_fields b d CancelledError)
      as (Hc & Hh & Hx & Hr & Hw & Hs & _ & Hmore & Hlast).
    replace (_remaining b) with (_remaining a) in * by reflexivity.
    rewrite Hrem, remove_head in * by exact Hnotin.
    set (a1 := on_failure b d CancelledError) in *.
    assert (forall d', status a1 d' = if Nat.eq_dec d d'
                                      then Called (Failure CancelledError)
                                      else status a d') as Hst1.
    { intros d'. unfold status. rewrite Hc. unfold b. cbn [contenders mark_cancelled mark_called].
      destruct (Nat.eq_dec d d') as [<- | Hne].
      - now apply nth_set_nth_same.
      - now apply nth_set_nth_other. }
    destruct l as [|d2 l2].
    + (* the last one: the summary fires *)
      cbn [fold_left].
      destruct (Hlast eq_refl Hfired Hsummary) as [Hf1 Hw1].
      replace (_have_winner b) with (_have_winner a) in * by reflexivity.
      replace (_first_success b) with (_first_success a) in * by reflexivity.
      rewrite Hwin, Hfirst in Hw1.
      repeat split.
      * exact Hr.
      * rewrite Hx. reflexivity.
      * intros d' [<- | []]. rewrite Hst1. now destruct (Nat.eq_dec d d).
      * intros d' Hd'. rewrite Hst1. destruct (Nat.eq_dec d d') as [<- | _]; [| reflexivity].
        exfalso. apply Hd'. now left.
      * unfold _maybe_done. rewrite Hr, Hf1. exact Hw1.
    + destruct (Hmore ltac:(discriminate)) as [Hf1 Hw1].
      destruct (IH a1 v) as (Ir & Ic & Is & Io & Iw).
      * exact Hr.
      * exact Hnd'.
      * intros d' Hd'. destruct (Hwait d' (or_intror Hd')) as (Hlt' & Hst' & Hhook').
        rewrite Hc, Hh, Hst1. unfold b. cbn [contenders hooked mark_cancelled mark_called].
        rewrite length_set_nth.
        destruct (Nat.eq_dec d d') as [<- | _]; [contradiction | auto].
      * rewrite Hw. exact Hwin.
      * rewrite Hs. exact Hfirst.
      * rewrite Hf1. exact Hfired.
      * rewrite Hw1. exact Hsummary.
      * repeat split.
        -- exact Ir.
        -- rewrite Ic, Hx. unfold b. cbn [cancelled mark_cancelled mark_called].
           now rewrite <- app_assoc.
        -- intros d' [<- | Hd']; [| now apply Is].
           rewrite Io by exact Hnotin. rewrite Hst1. now destruct (Nat.eq_dec d d).
        -- intros d' Hd'. rewrite Io by (intros Hin; apply Hd'; now right).
           rewrite Hst1. destruct (Nat.eq_dec d d') as [<- | _]; [| reflexivity].
           exfalso. apply Hd'. now left.
        -- exact Iw.
Qed.

Lemma maybe_done_fields a :
  contenders (_maybe_done a) = contenders a /\
  _remaining (_maybe_done a) = _remaining a /\
  cancelled (_maybe_done a) = cancelled a.
Proof.
  unfold _maybe_done.
  destruct (_remaining a) eqn:E; [destruct (_fired a) |];
    cbn; rewrite ?E; repeat split.
Qed.

(** A contender succeeds while the race is on: the summary fires with its
    value, and every other contender still waited for is cancelled. *)
Lemma fire_success a d v :
  racing a -> In d (_remaining a) ->
  _winner_d (fire a d (Success v)) = Called (Success v) /\
  _remaining (fire a d (Success v)) = [] /\
  status (fire a d (Success v)) d = Called (Success v) /\
  (forall d', In d' (_remaining a) -> d' <> d ->
     status (fire a d (Success v)) d' = Called (Failure CancelledError)) /\
  cancelled (fire a d (Success v))
  = cancelled a ++ List.remove Nat.eq_dec d (_remaining a).
Proof.
  intros (Hnd & Hwait & Hwin & Hfired & Hsummary) Hin.
  destruct (Hwait d Hin) as (Hlt & Hst & Hhook).
  unfold fire. rewrite Hst.
  replace (hooked (mark_called a d (Success v))) with (hooked a) by reflexivity.
  rewrite Hhook. cbn [on_called]. unfold _succeeded, cancel_remaining.
  set (l := List.remove Nat.eq_dec d (_remaining a)).
  match goal with
  | |- context [fold_left _ ?l0 ?b0] =>
      change l0 with l; set (b := b0)
  end.
  destruct (@cancel_all l b v) as (Hr & Hc & Hs & Ho & Hw).
  - reflexivity.
  - now apply NoDup_remove_any.
  - intros d' Hd'. apply in_remove in Hd' as [Hd' Hne].
    destruct (Hwait d' Hd') as (Hlt' & Hst' & Hhook').
    unfold b, status. cbn [contenders hooked _remove mark_called].
    rewrite length_set_nth, nth_set_nth_other by congruence. auto.
  - reflexivity.
  - reflexivity.
  - exact Hfired.
  - exact Hsummary.
  - destruct (maybe_done_fields (fold_left (@cancel_contender V) l b))
      as (Mc & Mr & Mx).
    repeat split.
    + exact Hw.
    + now rewrite Mr.
    + unfold status. rewrite Mc. fold (status (fold_left (@cancel_contender V) l b) d).
      rewrite Ho.
      * unfold b, status. cbn [contenders _remove mark_called].
        now apply nth_set_nth_same.
      * unfold l. apply remove_In.
    + intros d' Hd' Hne. unfold status. rewrite Mc.
      fold (status (fold_left (@cancel_contender V) l b) d').
      apply Hs. unfold l. now apply in_in_remove.
    + now rewrite Mx, Hc.
Qed.

(** A contender fails while the race is on: when others are still waited
    for the race goes on, with the first failure kept; when it was the last
    one the summary fires with the first failure recorded. *)
Lemma fire_failure a d f :
  racing a -> In d (_remaining a) ->
  _remaining (fire a d (Failure f)) = List.remove Nat.eq_dec d (_remaining a) /\
  _first_failure (fire a d (Failure f)) = Some (first_recorded a f) /\
  (List.remove Nat.eq_dec d (_remaining a) <> [] -> racing (fire a d (Failure f))) /\
  (List.remove Nat.eq_dec d (_remaining a) = [] ->
   _winner_d (fire a d (Failure f)) = Called (Failure (first_recorded a f))).
Proof.
  intros (Hnd & Hwait & Hwin & Hfired & Hsummary) Hin.
  destruct (Hwait d Hin) as (Hlt & Hst & Hhook).
  unfold fire. rewrite Hst.
  set (b := mark_called a d (Failure f)).
  replace (hooked b) with (hooked a) by reflexivity.
  rewrite Hhook. cbn [on_called].
  destruct (on_failure_fields b d f)
    as (Hc & Hh & Hx & Hr & Hw & Hs & Hff & Hmore & Hlast).
  replace (_remaining b) with (_remaining a) in * by reflexivity.
  replace (_have_winner b) with (_have_winner a) in * by reflexivity.
  replace (_fired b) with (_fired a) in * by reflexivity.
  replace (_winner_d b) with (_winner_d a) in * by reflexivity.
  replace (first_recorded b f) with (first_recorded a f) in * by reflexivity.
  split; [exact Hr |]. split; [exact Hff |]. split.
  - intros Hne. destruct (Hmore Hne) as [Hf1 Hw1].
    unfold racing. rewrite Hr, Hw, Hf1, Hw1.
    split; [now apply NoDup_remove_any |].
    split; [| auto].
    intros d' Hd'. apply in_remove in Hd' as [Hd' Hne'].
    destruct (Hwait d' Hd') as (Hlt' & Hst' & Hhook').
    unfold status. rewrite Hc, Hh. unfold b. cbn [contenders hooked mark_called].
    rewrite length_set_nth, nth_set_nth_other by congruence. auto.
  - intros Hempty. destruct (Hlast Hempty Hfired Hsummary) as [_ Hw1].
    rewrite Hw1, Hwin. reflexivity.
Qed.

Lemma mem_hooked_more a d d' :
  mem d' (hooked a) = true -> mem d' (hooked a ++ [d]) = true.
Proof. rewrite !mem_true. intros H. apply in_or_app. now left. Qed.

(** The loop of [run] over contenders none of which has succeeded: those
    that failed fall out of [_remaining], the first failure is kept, and
    the summary fires only if nothing is left to wait for. *)
Lemma run_loop todo : forall a,
  NoDup (_remaining a) -> NoDup todo ->
  (forall d, In d todo ->
     In d (_remaining a) /\ forall v, status a d <> Called (Success v)) ->
  (forall d, In d (_remaining a) ->
     d < length (contenders a) /\
     (~ In d todo -> status a d = Waiting /\ mem d (hooked a) = true)) ->
  _have_winner a = false -> _fired a = false -> _winner_d a = Waiting ->
  let a' := fold_left (@run_step V) todo a in
  contenders a' = contenders a /\
  (forall d, In d (_remaining a') <-> In d (_remaining a) /\ status a d = Waiting) /\
  (_remaining a' <> [] -> racing a') /\
  (_remaining a' = [] -> todo <> [] ->
   exists e,
     match _first_failure a with
     | Some e0 => Some e0
     | None => first_failure_of (contenders a) todo
     end = Some e /\
     _winner_d a' = Called (Failure e)).
Proof.
  induction todo as [|d todo IH];
    intros a Hnd Hnt Htodo Hrem Hwin Hfired Hsummary.
  - cbn [fold_left]. split; [reflexivity |]. split; [| split].
    + intros d. split; [| tauto].
      intros Hin. split; [exact Hin |]. now apply (Hrem d Hin).
    + intros _. unfold racing. repeat split; auto.
      * now apply (Hrem d H).
      * now apply (Hrem d H).
      * now apply (Hrem d H).
    + intros _ H. now destruct H.
  - cbn [fold_left].
    inversion Hnt as [|? ? Hd_notin Hnt']; subst.
    destruct (Htodo d (or_introl eq_refl)) as [Hd_in Hd_nosucc].
    assert (run_step a d = match status a d with
                           | Called r => on_called (hook a d) d r
                           | Waiting => hook a d
                           end) as Estep by reflexivity.
    rewrite Estep. clear Estep.
    destruct (status a d) as [|[v | f]] eqn:Est.
    + (* still waiting: only the callbacks are added *)
      destruct (IH (hook a d)) as (Ic & Ir & Irace & Ilast); try assumption.
      * intros d' Hd'. now apply Htodo; right.
      * intros d' Hd'. destruct (Hrem d' Hd') as [Hlt Hdone].
        split; [exact Hlt |]. intros Hnot.
        destruct (Nat.eq_dec d d') as [<- | Hne].
        -- split; [exact Est |]. cbn [hooked hook]. apply mem_true, in_or_app.
           right. now left.
        -- destruct Hdone as [Hw Hh]; [intros [E | Hin]; [congruence | tauto] |].
           split; [exact Hw |]. now apply mem_hooked_more.
      * split; [exact Ic |]. split; [exact Ir |]. split; [exact Irace |].
        intros Hempty _. destruct todo as [|d2 todo2].
        -- cbn [fold_left] in Hempty. cbn [_remaining hook] in Hempty.
           rewrite Hempty in Hd_in. destruct Hd_in.
        -- destruct (Ilast Hempty ltac:(discriminate)) as (e & He & Hw).
           exists e. split; [| exact Hw].
           cbn [first_failure_of]. fold (status a d). rewrite Est. exact He.
    + now destruct (Hd_nosucc v).
    + (* failed before [run]: its callbacks run at once *)
      cbn [on_called].
      destruct (on_failure_fields (hook a d) d f)
        as (Hc & Hh & Hx & Hr & Hw & Hs & Hff & Hmore & Hlast).
      replace (_remaining (hook a d)) with (_remaining a) in * by reflexivity.
      replace (_have_winner (hook a d)) with (_have_winner a) in * by reflexivity.
      replace (_fired (hook a d)) with (_fired a) in * by reflexivity.
      replace (_winner_d (hook a d)) with (_winner_d a) in * by reflexivity.
      replace (first_recorded (hook a d) f) with (first_recorded a f) in *
        by reflexivity.
      replace (contenders (hook a d)) with (contenders a) in * by reflexivity.
      set (a1 := on_failure (hook a d) d f) in *.
      assert (forall d', status a1 d' = status a d') as Hst1
          by (intros d'; unfold status; now rewrite Hc).
      assert (match _first_failure a with
              | Some e0 => Some e0
              | None => first_failure_of (contenders a) (d :: todo)
              end = Some (first_recorded a f)) as Hfirst.
      { unfold first_recorded. destruct (_first_failure a); [reflexivity |].
        cbn [first_failure_of]. fold (status a d). now rewrite Est. }
      assert (forall d', In d' (List.remove Nat.eq_dec d (_remaining a)) /\
                         status a d' = Waiting
                         <-> In d' (_remaining a) /\ status a d' = Waiting) as Hsame.
      { intros d'. split.
        - intros [Hin Hw']. apply in_remove in Hin. tauto.
        - intros [Hin Hw']. split; [| exact Hw'].
          apply in_in_remove; [| exact Hin]. intros ->. congruence. }
      destruct (List.remove Nat.eq_dec d (_remaining a)) as [|x rest] eqn:Erem.
      * (* nothing left: the summary fires with the first failure *)
        assert (todo = []) as ->.
        { destruct todo as [|d2 todo2]; [reflexivity |].
          destruct (Htodo d2 (or_intror (or_introl eq_refl))) as [Hin2 _].
          assert (In d2 (List.remove Nat.eq_dec d (_remaining a))) as Hbad.
          { apply in_in_remove; [| exact Hin2]. intros ->. apply Hd_notin. now left. }
          rewrite Erem in Hbad. destruct Hbad. }
        cbn [fold_left].
        destruct (Hlast eq_refl Hfired Hsummary) as [_ Hw1]. rewrite Hwin in Hw1.
        split; [exact Hc |]. split; [| split].
        -- intros d'. rewrite Hr, <- Hsame. cbn. tauto.
        -- intros Hne. now rewrite Hr in Hne.
        -- intros _ _. exists (first_recorded a f). split; [exact Hfirst | exact Hw1].
      * destruct (Hmore ltac:(discriminate)) as [Hf1 Hw1].
        destruct (IH a1) as (Ic & Ir & Irace & Ilast).
        -- rewrite Hr, <- Erem. now apply NoDup_remove_any.
        -- exact Hnt'.
        -- intros d' Hd'. destruct (Htodo d' (or_intror Hd')) as [Hin' Hns].
           split.
           ++ rewrite Hr, <- Erem. apply in_in_remove; [| exact Hin'].
              intros ->. contradiction.
           ++ intros v. rewrite Hst1. apply Hns.
        -- intros d' Hd'. rewrite Hr, <- Erem in Hd'. apply in_remove in Hd' as [Hd' Hne].
           destruct (Hrem d' Hd') as [Hlt Hdone].
           rewrite Hc. split; [exact Hlt |]. intros Hnot.
           destruct Hdone as [Hw' Hh']; [intros [E | Hin]; [congruence | tauto] |].
           rewrite Hst1, Hh. split; [exact Hw' |]. now apply mem_hooked_more.
        -- now rewrite Hw.
        -- now rewrite Hf1.
        -- now rewrite Hw1.
        -- split; [now rewrite Ic |]. split; [| split; [exact Irace |]].
           ++ intros d'. rewrite Ir, Hr, Hst1. apply Hsame.
           ++ intros Hempty _. destruct todo as [|d2 todo2].
              ** cbn [fold_left] in Hempty. rewrite Hr in Hempty. discriminate Hempty.
              ** destruct (Ilast Hempty ltac:(discriminate)) as (e & He & Hwe).
                 rewrite Hff in He. injection He as <-.
                 exists (first_recorded a f). split; [exact Hfirst | exact Hwe].
Qed.

(** [there_can_be_only_one] on contenders none of which has succeeded yet,
    handled in any order without repeats: it waits for exactly those that
    are still waiting, with the race on; when all have failed already, the
    summary has fired with the error of the one handled first. *)
Lemma arbiter_race (cs : list (deferred V)) (order : list nat) :
  NoDup order ->
  (forall d, In d order ->
     d < length cs /\ forall v, nth d cs Waiting <> Called (Success v)) ->
  (forall d, In d (_remaining (there_can_be_only_one cs order))
             <-> In d order /\ nth d cs Waiting = Waiting) /\
  (_remaining (there_can_be_only_one cs order) <> [] ->
   racing (there_can_be_only_one cs order)) /\
  (_remaining (there_can_be_only_one cs order) = [] -> order <> [] ->
   exists e, first_failure_of cs order = Some e /\
             _winner_d (there_can_be_only_one cs order) = Called (Failure e)).
Proof.
  intros Hnd Hok.
  destruct (@run_loop order (init cs order)) as (_ & Hr & Hrace & Hlast);
    try reflexivity; try exact Hnd.
  - intros d Hd. destruct (Hok d Hd) as [_ Hns]. split; [exact Hd | exact Hns].
  - intros d Hd. destruct (Hok d Hd) as [Hlt _]. split; [exact Hlt |].
    intros Hnot. now destruct (Hnot Hd).
  - split; [exact Hr |]. split; [exact Hrace | exact Hlast].
Qed.

End ArbiterFacts.

(** The three cases the documentation names: one contender that has
    succeeded, one that has failed, and a failed one, a successful one and
    two that are still waiting.  In the last the two waiting ones are
    cancelled and the summary fires with the success. *)
Lemma arbiter_named_cases (V : Type) (v : V) (e e1 : exn) :
  Arbiter._winner_d (Arbiter.there_can_be_only_one [Arbiter.Called (Arbiter.Success v)] [0])
  = Arbiter.Called (Arbiter.Success v) /\
  Arbiter._winner_d
    (Arbiter.there_can_be_only_one [Arbiter.Called (Arbiter.Failure (V := V) e)] [0])
  = Arbiter.Called (Arbiter.Failure e) /\
  (let a := Arbiter.there_can_be_only_one
              [Arbiter.Called (Arbiter.Failure e1); Arbiter.Called (Arbiter.Success v);
               Arbiter.Waiting; Arbiter.Waiting] [0; 1; 2; 3] in
   Arbiter._winner_d a = Arbiter.Called (Arbiter.Success v) /\
   Arbiter.cancelled a = [2; 3] /\
   Arbiter._remaining a = []).
Proof. repeat split. Qed.

(** C4, at the inputs where the code leaves the claim: contenders that
    have succeeded before [run].  [_succeeded] runs for each in turn and
    overwrites [_first_success], so the summary fires with the value of the
    success handled last, in whichever order the set is iterated: for
    [fail(e), succ(v), succ(w)] handled in that order the result is [w],
    not [v].  The failure path keeps the first: of two failed contenders
    the summary gets the error of the one handled first. *)
Theorem arbiter_keeps_last_success (V : Type) (v w : V) (e f : exn) :
  let both := [Arbiter.Called (Arbiter.Success v); Arbiter.Called (Arbiter.Success w)] in
  let three := Arbiter.Called (Arbiter.Failure e) :: both in
  let failed := [Arbiter.Called (Arbiter.Failure e);
                 Arbiter.Called (Arbiter.Failure (V := V) f)] in
  Arbiter._winner_d (Arbiter.there_can_be_only_one three [0; 1; 2])
  = Arbiter.Called (Arbiter.Success w) /\
  Arbiter._winner_d (Arbiter.there_can_be_only_one both [0; 1])
  = Arbiter.Called (Arbiter.Success w) /\
  Arbiter._winner_d (Arbiter.there_can_be_only_one both [1; 0])
  = Arbiter.Called (Arbiter.Success v) /\
  Arbiter._winner_d (Arbiter.there_can_be_only_one failed [0; 1])
  = Arbiter.Called (Arbiter.Failure e) /\
  Arbiter._winner_d (Arbiter.there_can_be_only_one failed [1; 0])
  = Arbiter.Called (Arbiter.Failure f).
Proof. repeat split. Qed.

(** * More of the module *)

(** ** Records end to end *)

Lemma set_buf_twice (c : Connection) (x y : bytes) :
  set_buf (set_buf c x) y = set_buf c y.
Proof. reflexivity. Qed.

Lemma written_emit (c : Connection) (ev : effect) :
  written (emit c ev)
  = written c ++ match ev with TransportWrite data => data | _ => [] end.
Proof.
  unfold written, emit. cbn [effects]. rewrite flat_map_app. cbn [flat_map].
  now rewrite app_nil_r.
Qed.

Section RecordChannel.
Variable P : Primitives.

(** In state "records" [_dataReceived] is [dataReceivedRECORDS] on the
    grown buffer. *)
Lemma dataReceived_raw_in_records (owner : Common) (c : Connection) (data : bytes) :
  state c = Records ->
  _dataReceived P (owner, c) data
  = lift_conn owner (dataReceivedRECORDS P (set_buf c (buf c ++ data))).
Proof.
  intros Hst. unfold _dataReceived.
  set (c1 := set_buf c (buf c ++ data)).
  assert (state c1 = Records) as Hst' by exact Hst.
  rewrite Hst'.
  unfold block_relay. rewrite Hst'.
  unfold block_start. rewrite Hst'.
  unfold block_handshake. rewrite Hst'.
  unfold block_wait_for_decision. rewrite Hst'.
  unfold block_go. rewrite Hst'.
  unfold block_nevermind. rewrite Hst'.
  unfold block_records. rewrite Hst'.
  reflexivity.
Qed.

Lemma deliverRecords_keeps (c : Connection) :
  state (_deliverRecords c) = state c /\
  buf (_deliverRecords c) = buf c /\
  next_receive_nonce (_deliverRecords c) = next_receive_nonce c /\
  receive_box (_deliverRecords c) = receive_box c.
Proof.
  unfold _deliverRecords.
  destruct (deliver_loop (_inbound_records c) (_waiting_reads c) (effects c))
    as [[inbound waiting] log].
  repeat split.
Qed.

(** A record that arrives when nobody reads and no consumer is attached is
    queued. *)
Lemma recordReceived_queues (c : Connection) (m : bytes) :
  _consumer c = None -> _waiting_reads c = [] ->
  _inbound_records (recordReceived c m) = _inbound_records c ++ [m] /\
  _waiting_reads (recordReceived c m) = [] /\
  _consumer (recordReceived c m) = None /\
  state (recordReceived c m) = state c /\
  buf (recordReceived c m) = buf c /\
  next_receive_nonce (recordReceived c m) = next_receive_nonce c /\
  receive_box (recordReceived c m) = receive_box c.
Proof.
  intros Hcons Hwait. unfold recordReceived. rewrite Hcons.
  set (c1 := set_inbound_records c (_inbound_records c ++ [m])).
  destruct (deliverRecords_fields c1) as (Ein & Ewait & _ & Econs).
  destruct (deliverRecords_keeps c1) as (Est & Ebuf & Enext & Ebox).
  rewrite Ein, Ewait, Econs, Est, Ebuf, Enext, Ebox.
  unfold c1. cbn [_inbound_records _waiting_reads _consumer state buf
                  next_receive_nonce receive_box set_inbound_records].
  rewrite Hwait. cbn [length skipn]. rewrite skipn_nil.
  repeat split; assumption || reflexivity.
Qed.

Hypothesis box_ok : box_correct P.

(** X1.  Records sent one after the other, each reaching the peer as one
    chunk, are all received, in order: the receiver queues exactly the
    plaintexts, both nonce counters have advanced by the number of records,
    and the receiver's buffer is empty again. *)
Theorem records_round_trip (key : bytes) (ms : list bytes) :
  forall (s r : Connection) (owner : Common) (n : Z),
  sending s key n -> receiving r key n ->
  (0 <= n)%Z -> (n + Z.of_nat (length ms) <= 2 ^ 192)%Z ->
  (forall m nonce, In m ms ->
     (Z.of_nat (length m) < 2 ^ 32)%Z /\
     (Z.of_nat (24 + length (crypto_secretbox P key m nonce)) < 2 ^ 32)%Z) ->
  sending (fst (relay_records P s (owner, r) ms)) key (n + Z.of_nat (length ms)) /\
  receiving (snd (snd (relay_records P s (owner, r) ms))) key
            (n + Z.of_nat (length ms)) /\
  fst (snd (relay_records P s (owner, r) ms)) = owner /\
  _inbound_records (snd (snd (relay_records P s (owner, r) ms)))
  = _inbound_records r ++ ms.
Proof.
  induction ms as [|m ms IH]; intros s r owner n Hs Hr Hn0 Hn Hfit.
  - cbn. rewrite Z.add_0_r, app_nil_r. auto.
  - destruct Hs as [Hsn Hsk].
    destruct Hr as (Hst & Hnext & Hbox & Hbuf & Hcons & Hwait).
    destruct (Hfit m (big_endian 24 (Z.to_N n)) (or_introl eq_refl)) as [Hlen Hsealed].
    cbn [length] in Hn.
    destruct (@one_frame_round_trip P box_ok s r n key m Hsn Hsk ltac:(lia)
                Hlen Hsealed Hnext Hbox Hbuf) as (len & enc & Hsend & Hrecv).
    cbn [relay_records]. rewrite Hsend. cbn [final].
    set (s' := emit (emit (set_send_nonce s (Some (n + 1)%Z)) (TransportWrite len))
                    (TransportWrite enc)).
    assert (new_bytes s s' = len ++ enc) as ->.
    { unfold new_bytes, s'. rewrite !written_emit.
      replace (written (set_send_nonce s (Some (n + 1)%Z))) with (written s)
        by reflexivity.
      rewrite <- app_assoc. apply skipn_exact. }
    assert (dataReceived P (owner, r) (len ++ enc)
            = Returned tt
                (owner,
                 recordReceived
                   (set_next_receive_nonce
                      (set_buf (set_buf r (buf r ++ len ++ enc)) [])
                      (Some (n + 1)%Z)) m)) as ->.
    { unfold dataReceived.
      rewrite dataReceived_raw_in_records by exact Hst.
      now rewrite Hrecv. }
    cbn [final].
    set (r0 := set_next_receive_nonce (set_buf (set_buf r (buf r ++ len ++ enc)) [])
                                      (Some (n + 1)%Z)).
    destruct (@recordReceived_queues r0 m Hcons Hwait)
      as (Qin & Qwait & Qcons & Qst & Qbuf & Qnext & Qbox).
    destruct (IH s' (recordReceived r0 m) owner (n + 1)%Z)
      as (Is & Ir & Io & Iin).
    + split; [reflexivity | exact Hsk].
    + unfold receiving. rewrite Qst, Qnext, Qbox, Qbuf, Qcons, Qwait.
      repeat split; try assumption; reflexivity.
    + lia.
    + lia.
    + intros m' nonce Hin. apply Hfit. now right.
    + replace (n + Z.of_nat (length (m :: ms)))%Z
        with (n + 1 + Z.of_nat (length ms))%Z by (cbn [length]; lia).
      split; [exact Is |]. split; [exact Ir |]. split; [exact Io |].
      rewrite Iin, Qin. unfold r0.
      cbn [_inbound_records set_next_receive_nonce set_buf].
      now rewrite <- app_assoc.
Qed.

End RecordChannel.

Lemma fixture_box_correct : box_correct Fixture.primitives.
Proof.
  intros key msg nonce. cbn. unfold Fixture.unseal, Fixture.seal.
  change (firstn 16 (Fixture.tag ++ msg)) with Fixture.tag.
  change (skipn 16 (Fixture.tag ++ msg)) with msg.
  reflexivity.
Qed.

(** The sender of the fixtures sends "hello" and "world"; the receiver
    queues both, in order. *)
Lemma records_round_trip_witness :
  _inbound_records
    (snd (snd (relay_records Fixture.primitives (Fixture.negotiated Fixture.sender)
                 (Fixture.receiver, Fixture.negotiated Fixture.receiver)
                 [Fixture.m0; Fixture.m1])))
  = [Fixture.m0; Fixture.m1].
Proof.
  destruct (@records_round_trip Fixture.primitives fixture_box_correct
              (Fixture.key ++ info_sender_key) [Fixture.m0; Fixture.m1]
              (Fixture.negotiated Fixture.sender) (Fixture.negotiated Fixture.receiver)
              Fixture.receiver 0%Z) as (_ & _ & _ & Hin).
  - split; reflexivity.
  - repeat split.
  - lia.
  - cbn. lia.
  - intros m nonce [<- | [<- | []]]; split; reflexivity.
  - exact Hin.
Defined.

(** ** Frames that arrive in pieces *)

Section Chunks.
Variable P : Primitives.

(** A call that finds its connection with [a] already buffered sees the
    same buffer as one call with [a ++ data] on the connection before. *)
Lemma dataReceived_raw_buffered (owner : Common) (c : Connection) (a data : bytes) :
  _dataReceived P (owner, set_buf c (buf c ++ a)) data
  = _dataReceived P (owner, c) (a ++ data).
Proof.
  unfold _dataReceived. cbn [buf set_buf].
  rewrite set_buf_twice, <- app_assoc. reflexivity.
Qed.

Lemma incomplete_frame_returns (c : Connection) :
  frame_incomplete (buf c) = true -> dataReceivedRECORDS P c = Returned tt c.
Proof.
  unfold frame_incomplete, dataReceivedRECORDS. intros H.
  destruct (Nat.ltb_spec (length (buf c)) 4) as [Hlt | Hge]; [reflexivity |].
  cbn [orb] in H.
  destruct (firstn 4 (buf c)) as [|b0 rest] eqn:E.
  - apply (f_equal (@length byte)) in E. rewrite length_firstn in E.
    cbn [length] in E. lia.
  - rewrite int_base16_hexlify. now rewrite H.
Qed.

(** X3.  In state "records", bytes that do not complete a frame are only
    added to the buffer: the call returns, nothing is delivered, written or
    decrypted.  The bytes that follow are then handled exactly as if both
    chunks had arrived in one call. *)
Theorem frame_in_pieces (owner : Common) (c : Connection) (a b : bytes) :
  state c = Records -> frame_incomplete (buf c ++ a) = true ->
  dataReceived P (owner, c) a = Returned tt (owner, set_buf c (buf c ++ a)) /\
  dataReceived P (final (dataReceived P (owner, c) a)) b
  = dataReceived P (owner, c) (a ++ b).
Proof.
  intros Hst Hpart.
  assert (dataReceived P (owner, c) a = Returned tt (owner, set_buf c (buf c ++ a)))
    as Hfirst.
  { unfold dataReceived. rewrite dataReceived_raw_in_records by exact Hst.
    rewrite incomplete_frame_returns by exact Hpart. reflexivity. }
  split; [exact Hfirst |].
  rewrite Hfirst. cbn [final]. unfold dataReceived.
  now rewrite dataReceived_raw_buffered.
Qed.

End Chunks.

(** The frame of "hello" reaches the receiver of the fixtures as ten bytes
    and then the rest: the record is queued after the second call. *)
Lemma frame_in_pieces_witness :
  let frame := new_bytes (Fixture.negotiated Fixture.sender)
                 (final (send_record Fixture.primitives
                           (Fixture.negotiated Fixture.sender)
                           (PyBytes Fixture.m0))) in
  let w := (Fixture.receiver, Fixture.negotiated Fixture.receiver) in
  _inbound_records
    (snd (final (dataReceived Fixture.primitives w (firstn 10 frame)))) = [] /\
  _inbound_records
    (snd (final (dataReceived Fixture.primitives
                   (final (dataReceived Fixture.primitives w (firstn 10 frame)))
                   (skipn 10 frame))))
  = [Fixture.m0].
Proof.
  intros frame w.
  destruct (@frame_in_pieces Fixture.primitives Fixture.receiver
              (Fixture.negotiated Fixture.receiver)
              (firstn 10 frame) (skipn 10 frame) eq_refl eq_refl)
    as [Hfirst Hboth].
  fold w in Hfirst, Hboth. rewrite Hboth, Hfirst.
  split; reflexivity.
Defined.

(** ** Integers on the wire *)

(** X4.  The length prefix and the nonce are written with
    [unhexlify("%0<2w>x" % z)] and read back with [int(hexlify(_), 16)]:
    for [1 <= w] and [0 <= z < 256^w] the bytes written are exactly [w]
    long and reading them gives [z] again. *)
Theorem wire_integer_round_trip (w : nat) (z : Z) :
  (1 <= w)%nat -> (0 <= z < 256 ^ Z.of_nat w)%Z ->
  exists b,
    Hex.unhexlify (Hex.format_0x (2 * w) z) = Ok b /\
    length b = w /\
    Hex.int_base16 (Hex.hexlify b) = Ok z.
Proof.
  intros Hw Hz. exists (big_endian w (Z.to_N z)).
  split; [now apply unhexlify_format |].
  split; [apply length_big_endian |].
  assert (Hex.be_value (big_endian w (Z.to_N z)) = z) as Hval.
  { rewrite be_value_big_endian; [apply Z2N.id; lia |].
    apply N2Z.inj_lt. rewrite N2Z.inj_pow, Z2N.id, nat_N_Z by lia. apply Hz. }
  destruct (big_endian w (Z.to_N z)) as [|b0 rest] eqn:E.
  - apply (f_equal (@length byte)) in E. rewrite length_big_endian in E.
    cbn [length] in E. lia.
  - now rewrite int_base16_hexlify, Hval.
Qed.

(** The length prefix of a frame of 45 bytes. *)
Lemma wire_integer_round_trip_witness :
  exists b,
    Hex.unhexlify (Hex.format_0x 8 45) = Ok b /\
    length b = 4 /\
    Hex.int_base16 (Hex.hexlify b) = Ok 45%Z.
Proof.
  apply (@wire_integer_round_trip 4 45%Z); [lia | cbn; lia].
Defined.

(** ** The handshake, block by block *)

Lemma set_buf_same (c : Connection) (v : bytes) : buf c = v -> set_buf c v = c.
Proof. intros <-. now destruct c. Qed.

Section Handshake.
Variable P : Primitives.
Implicit Types (k : block) (owner : Common) (c : Connection).

Lemma check_and_remove_whole c (expected rest : bytes) :
  buf c = expected ++ rest ->
  _check_and_remove c expected = Ok (true, set_buf c rest).
Proof.
  intros Hbuf. unfold _check_and_remove. rewrite Hbuf.
  rewrite firstn_all2 by (rewrite length_app; lia).
  rewrite startswith_app. cbn [negb].
  destruct (Nat.ltb_spec (length (expected ++ rest)) (length expected)) as [Hlt | _].
  - rewrite length_app in Hlt. lia.
  - now rewrite skipn_exact.
Qed.

Lemma check_and_remove_part c (expected more : bytes) :
  expected = buf c ++ more -> more <> [] ->
  _check_and_remove c expected = Ok (false, c).
Proof.
  intros -> Hmore. unfold _check_and_remove.
  rewrite firstn_exact, startswith_self. cbn [negb].
  destruct (Nat.ltb_spec (length (buf c)) (length (buf c ++ more))) as [_ | Hge];
    [reflexivity |].
  rewrite length_app in Hge. destruct more; [congruence | cbn in Hge; lia].
Qed.

Lemma check_and_remove_bad c (expected : bytes) :
  deviates (buf c) expected ->
  _check_and_remove c expected = Raise (BadHandshake (GotWant (buf c) expected)).
Proof.
  intros H. apply startswith_firstn_false in H.
  unfold _check_and_remove. now rewrite H.
Qed.

Lemma expecting_whole (expected : bytes) k owner c (rest : bytes) :
  buf c = expected ++ rest ->
  expecting expected k (owner, c) = k (owner, set_buf c rest).
Proof.
  intros H. unfold expecting. now rewrite (@check_and_remove_whole c expected rest H).
Qed.

Lemma expecting_part (expected : bytes) k owner c (more : bytes) :
  expected = buf c ++ more -> more <> [] ->
  expecting expected k (owner, c) = Returned tt (owner, c).
Proof.
  intros H Hmore. unfold expecting.
  now rewrite (@check_and_remove_part c expected more H Hmore).
Qed.

Lemma expecting_bad (expected : bytes) k owner c :
  deviates (buf c) expected ->
  expecting expected k (owner, c)
  = Raised (BadHandshake (GotWant (buf c) expected)) (owner, c).
Proof.
  intros H. unfold expecting. now rewrite (@check_and_remove_bad c expected H).
Qed.

(** A block whose state is not the connection's passes it on. *)
Lemma block_relay_other k owner c (s : conn_state) :
  state c = s -> s <> Relay -> block_relay k (owner, c) = k (owner, c).
Proof.
  intros <- H. unfold block_relay. destruct (state c); try reflexivity.
  now destruct H.
Qed.

Lemma block_start_other k owner c (s : conn_state) :
  state c = s -> s <> Start -> block_start P k (owner, c) = k (owner, c).
Proof.
  intros <- H. unfold block_start. destruct (state c); try reflexivity.
  now destruct H.
Qed.

Lemma block_handshake_other k owner c (s : conn_state) :
  state c = s -> s <> Handshake -> block_handshake P k (owner, c) = k (owner, c).
Proof.
  intros <- H. unfold block_handshake. destruct (state c); try reflexivity.
  now destruct H.
Qed.

Lemma block_wait_other k owner c (s : conn_state) :
  state c = s -> s <> WaitForDecision ->
  block_wait_for_decision P k (owner, c) = k (owner, c).
Proof.
  intros <- H. unfold block_wait_for_decision. destruct (state c); try reflexivity.
  now destruct H.
Qed.

Lemma block_go_other k owner c (s : conn_state) :
  state c = s -> s <> Go -> block_go P k (owner, c) = k (owner, c).
Proof.
  intros <- H. unfold block_go. destruct (state c); try reflexivity.
  now destruct H.
Qed.

Lemma block_nevermind_other k owner c (s : conn_state) :
  state c = s -> s <> Nevermind -> block_nevermind k (owner, c) = k (owner, c).
Proof.
  intros <- H. unfold block_nevermind. destruct (state c); try reflexivity.
  now destruct H.
Qed.

Lemma block_records_other k owner c (s : conn_state) :
  state c = s -> s <> Records -> block_records P k (owner, c) = k (owner, c).
Proof.
  intros <- H. unfold block_records. destruct (state c); try reflexivity.
  now destruct H.
Qed.

Lemma block_exception_other owner c (s : conn_state) :
  state c = s -> (forall e, s <> StateExn e) ->
  block_exception (owner, c) = Returned tt (owner, c).
Proof.
  intros <- H. unfold block_exception. destruct (state c); try reflexivity.
  now destruct (H e).
Qed.

(** The block whose state is the connection's. *)
Lemma block_relay_at k owner c :
  state c = Relay ->
  block_relay k (owner, c)
  = expecting b_ok (fun '(owner, self) => k (owner, set_state self Start)) (owner, c).
Proof. intros H. unfold block_relay. now rewrite H. Qed.

Lemma block_start_at k owner c (mine : bytes) :
  state c = Start -> _send_this P owner = Ok mine ->
  block_start P k (owner, c)
  = k (owner, set_state (emit c (TransportWrite mine)) Handshake).
Proof. intros H Hs. unfold block_start. now rewrite H, Hs. Qed.

Lemma block_handshake_at k owner c (theirs : bytes) :
  state c = Handshake -> _expect_this P owner = Ok theirs ->
  block_handshake P k (owner, c)
  = expecting theirs
      (fun '(owner, self) =>
         match description self with
         | None => Raised AttributeError (owner, self)
         | Some _ =>
             let '(owner, next) :=
               connection_ready owner (c_id self) (description self) in
             k (owner, set_state self next)
         end)
      (owner, c).
Proof. intros H He. unfold block_handshake. now rewrite H, He. Qed.

Lemma block_wait_at k owner c :
  state c = WaitForDecision ->
  block_wait_for_decision P k (owner, c)
  = expecting b_go
      (fun '(owner, self) =>
         match _negotiationSuccessful P owner self with
         | Returned _ self => k (owner, self)
         | Raised e self => Raised e (owner, self)
         end)
      (owner, c).
Proof. intros H. unfold block_wait_for_decision. now rewrite H. Qed.

Lemma block_go_at k owner c :
  state c = Go ->
  block_go P k (owner, c)
  = match _negotiationSuccessful P owner (emit c (TransportWrite b_go)) with
    | Returned _ self => k (owner, self)
    | Raised e self => Raised e (owner, self)
    end.
Proof. intros H. unfold block_go. now rewrite H. Qed.

Lemma block_nevermind_at k owner c :
  state c = Nevermind ->
  block_nevermind k (owner, c)
  = Raised (BadHandshake Abandoned) (owner, emit c (TransportWrite b_nevermind)).
Proof. intros H. unfold block_nevermind. now rewrite H. Qed.

Lemma block_records_at k owner c :
  state c = Records ->
  block_records P k (owner, c) = lift_conn owner (dataReceivedRECORDS P c).
Proof. intros H. unfold block_records. now rewrite H. Qed.

(** Past the assertion, [_dataReceived] is the row of blocks on the grown
    buffer. *)
Lemma dataReceived_raw_blocks owner c (data : bytes) :
  state c <> TooEarly ->
  _dataReceived P (owner, c) data
  = block_relay
      (block_start P
         (block_handshake P
            (block_wait_for_decision P
               (block_go P
                  (block_nevermind
                     (block_records P block_exception))))))
      (owner, set_buf c (buf c ++ data)).
Proof.
  intros H. unfold _dataReceived.
  change (state (set_buf c (buf c ++ data))) with (state c).
  destruct (state c); try reflexivity. now destruct H.
Qed.

Lemma dataReceived_returned (w w' : world) (data : bytes) :
  _dataReceived P w data = Returned tt w' -> dataReceived P w data = Returned tt w'.
Proof. intros H. unfold dataReceived. now rewrite H. Qed.

Lemma dataReceived_bad_handshake (w : world) (data : bytes) (why : handshake_reason)
  owner c :
  _dataReceived P w data = Raised (BadHandshake why) (owner, c) ->
  dataReceived P w data = Returned tt (owner, hung_up c (BadHandshake why)).
Proof. intros H. unfold dataReceived. now rewrite H. Qed.

Lemma dataReceived_other_error (w : world) (data : bytes) (e : exn) owner c :
  _dataReceived P w data = Raised e (owner, c) ->
  isinstance_BadHandshake e = false ->
  dataReceived P w data = Raised e (owner, hung_up c e).
Proof. intros H He. unfold dataReceived. now rewrite H, He. Qed.

Lemma negotiationSuccessful_ok owner c (sk rk : bytes) :
  _sender_record_key P owner = Ok sk -> _receiver_record_key P owner = Ok rk ->
  _negotiation_d c = true ->
  _negotiationSuccessful P owner c = Returned tt (negotiated_as c sk rk).
Proof.
  intros Hs Hr Hd. unfold _negotiationSuccessful. rewrite Hs, Hr.
  cbn [_negotiation_d set_next_receive_nonce set_receive_box set_send_nonce
         set_send_box emit set_state].
  now rewrite Hd.
Qed.

Lemma records_nothing_buffered c :
  buf c = [] -> dataReceivedRECORDS P c = Returned tt c.
Proof.
  intros H. apply incomplete_frame_returns. now rewrite H.
Qed.

(** The blocks after the decision, for a connection that has just finished
    negotiating and has nothing buffered. *)
Lemma blocks_after_negotiation owner c :
  state c = Records -> buf c = [] ->
  block_nevermind (block_records P block_exception) (owner, c)
  = Returned tt (owner, c).
Proof.
  intros Hst Hbuf.
  rewrite (@block_nevermind_other _ owner c Records Hst) by discriminate.
  rewrite (@block_records_at _ owner c Hst).
  now rewrite (@records_nothing_buffered c Hbuf).
Qed.

(** [startNegotiation] on a direct connection: the own handshake is
    written and the connection waits for the peer's. *)
Lemma startNegotiation_direct owner c (descr : string) (mine theirs : bytes) :
  relay_handshake c = None -> buf c = [] ->
  _send_this P owner = Ok mine -> _expect_this P owner = Ok theirs -> theirs <> [] ->
  startNegotiation P (owner, c) descr
  = Returned tt
      (owner,
       set_state (emit (set_description c (Some descr)) (TransportWrite mine))
                 Handshake).
Proof.
  intros Hrelay Hbuf Hmine Htheirs Hne.
  unfold startNegotiation.
  change (relay_handshake (set_description c (Some descr))) with (relay_handshake c).
  rewrite Hrelay.
  set (c0 := set_state (set_description c (Some descr)) Start).
  apply dataReceived_returned.
  rewrite dataReceived_raw_blocks by discriminate.
  set (c1 := set_buf c0 (buf c0 ++ [])).
  rewrite (@block_relay_other _ owner c1 Start eq_refl) by discriminate.
  rewrite (@block_start_at _ owner c1 mine eq_refl Hmine).
  set (c2 := set_state (emit c1 (TransportWrite mine)) Handshake).
  rewrite (@block_handshake_at _ owner c2 theirs eq_refl Htheirs).
  assert (buf c2 = []) as Hbuf2.
  { unfold c2, c1, c0. cbn [buf set_state emit set_buf set_description].
    now rewrite Hbuf. }
  rewrite (@expecting_part theirs _ owner c2 theirs)
    by (rewrite ?Hbuf2; first [reflexivity | exact Hne]).
  f_equal. f_equal. unfold c2, c1, c0.
  rewrite app_nil_r.
  change (buf (set_state (set_description c (Some descr)) Start)) with (buf c).
  rewrite set_buf_same by reflexivity.
  now destruct c.
Qed.

Lemma receiver_texts owner (key : bytes) :
  is_sender owner = false -> _transit_key owner = Some key ->
  _send_this P owner = Ok (build_receiver_handshake P key) /\
  _expect_this P owner = Ok (build_sender_handshake P key) /\
  _sender_record_key P owner = Ok (HKDF P key info_receiver_key) /\
  _receiver_record_key P owner = Ok (HKDF P key info_sender_key).
Proof.
  intros Hrole Hkey.
  unfold _send_this, _expect_this, _sender_record_key, _receiver_record_key, with_key.
  rewrite Hrole, Hkey. repeat split.
Qed.

Lemma sender_texts owner (key : bytes) :
  is_sender owner = true -> _transit_key owner = Some key ->
  _send_this P owner = Ok (build_sender_handshake P key) /\
  _expect_this P owner = Ok (build_receiver_handshake P key) /\
  _sender_record_key P owner = Ok (HKDF P key info_sender_key) /\
  _receiver_record_key P owner = Ok (HKDF P key info_receiver_key).
Proof.
  intros Hrole Hkey.
  unfold _send_this, _expect_this, _sender_record_key, _receiver_record_key, with_key.
  rewrite Hrole, Hkey. repeat split.
Qed.

(** The peer's handshake arrives whole at a connection that waits for it
    with nothing buffered: the owner decides, and the blocks after the
    handshake run in the state it gave. *)
Lemma handshake_arrives owner c (theirs : bytes) (d : string) :
  state c = Handshake -> _expect_this P owner = Ok theirs -> buf c = [] ->
  description c = Some d ->
  _dataReceived P (owner, c) theirs
  = let '(owner', next) := connection_ready owner (c_id c) (Some d) in
    block_wait_for_decision P
      (block_go P (block_nevermind (block_records P block_exception)))
      (owner', set_state c next).
Proof.
  intros Hst He Hbuf Hd.
  rewrite dataReceived_raw_blocks by (rewrite Hst; discriminate).
  set (c1 := set_buf c (buf c ++ theirs)).
  rewrite (@block_relay_other _ owner c1 Handshake Hst) by discriminate.
  rewrite (@block_start_other _ owner c1 Handshake Hst) by discriminate.
  rewrite (@block_handshake_at _ owner c1 theirs Hst He).
  rewrite (@expecting_whole theirs _ owner c1 [])
    by (unfold c1; cbn [buf set_buf]; rewrite Hbuf; now rewrite app_nil_r).
  cbv beta iota.
  change (description (set_buf c1 [])) with (description c). rewrite Hd.
  change (c_id (set_buf c1 [])) with (c_id c).
  replace (set_buf c1 []) with c; [reflexivity |].
  unfold c1. rewrite set_buf_twice. symmetry. now apply set_buf_same.
Qed.

(** X5.  A receiver's direct connection, through its whole negotiation.
    [startNegotiation] writes the receiver's handshake and waits.  When
    the sender's handshake has arrived the connection waits for the
    sender's decision, writing nothing and leaving its owner as it was.
    When "go" arrives it is in state "records" with record keys derived
    from the transit key (sending under "transit_record_receiver_key",
    receiving under "transit_record_sender_key"), both nonces 0, its timer
    cleared and its negotiation Deferred fired. *)
Theorem receiver_negotiates owner c (descr : string) (key : bytes) :
  is_sender owner = false -> _transit_key owner = Some key ->
  relay_handshake c = None -> buf c = [] -> _negotiation_d c = true ->
  build_sender_handshake P key <> [] ->
  let c1 := set_state (emit (set_description c (Some descr))
                            (TransportWrite (build_receiver_handshake P key)))
                      Handshake in
  let c2 := set_state c1 WaitForDecision in
  startNegotiation P (owner, c) descr = Returned tt (owner, c1) /\
  dataReceived P (owner, c1) (build_sender_handshake P key) = Returned tt (owner, c2) /\
  dataReceived P (owner, c2) b_go
  = Returned tt (owner, negotiated_as c2 (HKDF P key info_receiver_key)
                                      (HKDF P key info_sender_key)).
Proof.
  intros Hrole Hkey Hrelay Hbuf Hd Hne c1 c2.
  destruct (@receiver_texts owner key Hrole Hkey) as (Hmine & Htheirs & Hsk & Hrk).
  split; [| split].
  - now apply startNegotiation_direct with (theirs := build_sender_handshake P key).
  - apply dataReceived_returned.
    rewrite (@handshake_arrives owner c1 _ descr eq_refl Htheirs Hbuf eq_refl).
    unfold connection_ready. rewrite Hrole. cbn [negb].
    rewrite (@block_wait_at _ owner c2 eq_refl).
    assert (buf c2 = []) as Hbuf2 by exact Hbuf.
    now rewrite (@expecting_part b_go _ owner c2 b_go)
      by (first [now rewrite Hbuf2 | discriminate]).
  - apply dataReceived_returned.
    rewrite dataReceived_raw_blocks by discriminate.
    set (c3 := set_buf c2 (buf c2 ++ b_go)).
    rewrite (@block_relay_other _ owner c3 WaitForDecision eq_refl) by discriminate.
    rewrite (@block_start_other _ owner c3 WaitForDecision eq_refl) by discriminate.
    rewrite (@block_handshake_other _ owner c3 WaitForDecision eq_refl) by discriminate.
    rewrite (@block_wait_at _ owner c3 eq_refl).
    rewrite (@expecting_whole b_go _ owner c3 [])
      by (unfold c3; cbn [buf set_buf];
          change (buf c2) with (buf c); now rewrite Hbuf).
    cbv beta iota.
    assert (set_buf c3 [] = c2) as ->.
    { unfold c3. rewrite set_buf_twice. now apply set_buf_same. }
    rewrite (@negotiationSuccessful_ok owner c2 _ _ Hsk Hrk Hd).
    set (c4 := negotiated_as c2 _ _).
    rewrite (@block_go_other _ owner c4 Records eq_refl) by discriminate.
    now apply blocks_after_negotiation.
Qed.

(** X6.  A sender's direct connection that is the first to finish its
    handshake.  [startNegotiation] writes the sender's handshake; when the
    receiver's handshake has arrived the owner records this connection and
    its description as the winner, the connection writes "go" and is in
    state "records" with its keys (sending under
    "transit_record_sender_key"), its timer cleared and its negotiation
    Deferred fired; [describe] then gives the connection's description. *)
Theorem sender_first_connection_wins owner c (descr : string) (key : bytes) :
  is_sender owner = true -> _transit_key owner = Some key -> _winner owner = None ->
  relay_handshake c = None -> buf c = [] -> _negotiation_d c = true ->
  build_receiver_handshake P key <> [] ->
  let c1 := set_state (emit (set_description c (Some descr))
                            (TransportWrite (build_sender_handshake P key)))
                      Handshake in
  let owner' := set_winner owner (c_id c) (Some descr) in
  startNegotiation P (owner, c) descr = Returned tt (owner, c1) /\
  dataReceived P (owner, c1) (build_receiver_handshake P key)
  = Returned tt
      (owner',
       negotiated_as (emit (set_state c1 Go) (TransportWrite b_go))
                     (HKDF P key info_sender_key) (HKDF P key info_receiver_key)) /\
  describe owner' = Some descr.
Proof.
  intros Hrole Hkey Hwin Hrelay Hbuf Hd Hne c1 owner'.
  destruct (@sender_texts owner key Hrole Hkey) as (Hmine & Htheirs & _).
  destruct (@sender_texts owner' key Hrole Hkey) as (_ & _ & Hsk & Hrk).
  split; [| split].
  - now apply startNegotiation_direct with (theirs := build_receiver_handshake P key).
  - apply dataReceived_returned.
    rewrite (@handshake_arrives owner c1 _ descr eq_refl Htheirs Hbuf eq_refl).
    unfold connection_ready. rewrite Hrole, Hwin. cbn [negb].
    change (c_id c1) with (c_id c). fold owner'.
    set (c2 := set_state c1 Go).
    rewrite (@block_wait_other _ owner' c2 Go eq_refl) by discriminate.
    rewrite (@block_go_at _ owner' c2 eq_refl).
    rewrite (@negotiationSuccessful_ok owner' (emit c2 (TransportWrite b_go))
               _ _ Hsk Hrk Hd).
    apply blocks_after_negotiation; [reflexivity | exact Hbuf].
  - reflexivity.
Qed.

(** X7.  A sender's connection that finishes its handshake when the owner
    already has a winner: it writes "nevermind", the [BadHandshake] it
    raises is caught by [dataReceived], which returns with the connection
    hung up (timer cleared, error kept, transport told to close); the
    owner and its winner are left as they were. *)
Theorem sender_later_connection_abandoned owner c (d : string) (key : bytes)
  (p : conn_ref) :
  is_sender owner = true -> _transit_key owner = Some key -> _winner owner = Some p ->
  state c = Handshake -> buf c = [] -> description c = Some d ->
  dataReceived P (owner, c) (build_receiver_handshake P key)
  = Returned tt
      (owner,
       hung_up (emit (set_state c Nevermind) (TransportWrite b_nevermind))
               (BadHandshake Abandoned)).
Proof.
  intros Hrole Hkey Hwin Hst Hbuf Hd.
  destruct (@sender_texts owner key Hrole Hkey) as (_ & Htheirs & _).
  apply dataReceived_bad_handshake.
  rewrite (@handshake_arrives owner c _ d Hst Htheirs Hbuf Hd).
  unfold connection_ready. rewrite Hrole, Hwin. cbn [negb].
  set (c2 := set_state c Nevermind).
  rewrite (@block_wait_other _ owner c2 Nevermind eq_refl) by discriminate.
  rewrite (@block_go_other _ owner c2 Nevermind eq_refl) by discriminate.
  now rewrite (@block_nevermind_at _ owner c2 eq_refl).
Qed.

(** X8.  What [dataReceived] does with bytes that arrive while the peer's
    handshake is awaited.  If the buffer then deviates from the expected
    handshake the connection is hung up with
    [BadHandshake("got ... want ...")] kept as its error, nothing is
    written, and the call returns without raising.  If the buffer is a
    strict prefix of the expected handshake the bytes are buffered and
    nothing else changes. *)
Theorem handshake_input owner c (data expected : bytes) :
  state c = Handshake -> _expect_this P owner = Ok expected ->
  (deviates (buf c ++ data) expected ->
   dataReceived P (owner, c) data
   = Returned tt
       (owner,
        hung_up (set_buf c (buf c ++ data))
                (BadHandshake (GotWant (buf c ++ data) expected)))) /\
  (forall more, expected = (buf c ++ data) ++ more -> more <> [] ->
   dataReceived P (owner, c) data = Returned tt (owner, set_buf c (buf c ++ data))).
Proof.
  intros Hst He.
  set (c1 := set_buf c (buf c ++ data)).
  assert (_dataReceived P (owner, c) data
          = expecting expected
              (fun '(owner, self) =>
                 match description self with
                 | None => Raised AttributeError (owner, self)
                 | Some _ =>
                     let '(owner, next) :=
                       connection_ready owner (c_id self) (description self) in
                     block_wait_for_decision P
                       (block_go P (block_nevermind (block_records P block_exception)))
                       (owner, set_state self next)
                 end)
              (owner, c1)) as Hraw.
  { rewrite dataReceived_raw_blocks by (rewrite Hst; discriminate).
    fold c1.
    rewrite (@block_relay_other _ owner c1 Handshake Hst) by discriminate.
    rewrite (@block_start_other _ owner c1 Handshake Hst) by discriminate.
    now rewrite (@block_handshake_at _ owner c1 expected Hst He). }
  split.
  - intros Hdev. apply dataReceived_bad_handshake. rewrite Hraw.
    now rewrite (@expecting_bad expected _ owner c1 Hdev).
  - intros more Hmore Hne. apply dataReceived_returned. rewrite Hraw.
    now rewrite (@expecting_part expected _ owner c1 more Hmore Hne).
Qed.

(** X9.  A connection through the relay.  [startNegotiation] writes the
    relay handshake and nothing else.  While only a strict prefix of
    "ok\n" has arrived the connection keeps waiting and writes nothing;
    when "ok\n" has arrived it writes its own handshake and waits for the
    peer's; bytes that deviate from "ok\n" hang it up. *)
Theorem relay_preamble owner c (descr : string) (hs mine theirs : bytes) :
  relay_handshake c = Some hs -> buf c = [] ->
  _send_this P owner = Ok mine -> _expect_this P owner = Ok theirs -> theirs <> [] ->
  let c1 := set_state (emit (set_description c (Some descr)) (TransportWrite hs))
                      Relay in
  startNegotiation P (owner, c) descr = Returned tt (owner, c1) /\
  (forall data more, b_ok = data ++ more -> more <> [] ->
     dataReceived P (owner, c1) data = Returned tt (owner, set_buf c1 data)) /\
  dataReceived P (owner, c1) b_ok
  = Returned tt (owner, set_state (emit c1 (TransportWrite mine)) Handshake) /\
  (forall data, deviates data b_ok ->
     dataReceived P (owner, c1) data
     = Returned tt (owner, hung_up (set_buf c1 data)
                                   (BadHandshake (GotWant data b_ok)))).
Proof.
  intros Hrelay Hbuf Hmine Htheirs Hne c1.
  assert (buf c1 = []) as Hbuf1 by exact Hbuf.
  assert (forall data,
             _dataReceived P (owner, c1) data
             = expecting b_ok
                 (fun '(owner, self) =>
                    block_start P
                      (block_handshake P
                         (block_wait_for_decision P
                            (block_go P
                               (block_nevermind
                                  (block_records P block_exception)))))
                      (owner, set_state self Start))
                 (owner, set_buf c1 data)) as Hraw.
  { intros data. rewrite dataReceived_raw_blocks by discriminate.
    rewrite Hbuf1. cbn [app].
    now rewrite (@block_relay_at _ owner (set_buf c1 data) eq_refl). }
  split; [| split; [| split]].
  - unfold startNegotiation.
    change (relay_handshake (set_description c (Some descr))) with (relay_handshake c).
    rewrite Hrelay. fold c1.
    apply dataReceived_returned. rewrite Hraw.
    rewrite (@expecting_part b_ok _ owner (set_buf c1 []) b_ok)
      by (first [reflexivity | discriminate]).
    now rewrite (@set_buf_same c1 [] Hbuf1).
  - intros data more Hmore Hnm. apply dataReceived_returned. rewrite Hraw.
    now rewrite (@expecting_part b_ok _ owner (set_buf c1 data) more Hmore Hnm).
  - apply dataReceived_returned. rewrite Hraw.
    rewrite (@expecting_whole b_ok _ owner (set_buf c1 b_ok) [])
      by (cbn [buf set_buf]; now rewrite app_nil_r).
    cbv beta iota. rewrite set_buf_twice.
    rewrite (@set_buf_same c1 [] Hbuf1).
    rewrite (@block_start_at _ owner (set_state c1 Start) mine eq_refl Hmine).
    set (c2 := set_state (emit (set_state c1 Start) (TransportWrite mine)) Handshake).
    rewrite (@block_handshake_at _ owner c2 theirs eq_refl Htheirs).
    assert (buf c2 = []) as Hbuf2 by exact Hbuf.
    now rewrite (@expecting_part theirs _ owner c2 theirs)
      by (rewrite ?Hbuf2; first [reflexivity | exact Hne]).
  - intros data Hdev. apply dataReceived_bad_handshake. rewrite Hraw.
    now rewrite (@expecting_bad b_ok _ owner (set_buf c1 data) Hdev).
Qed.

Lemma hung_up_buffers owner c (data : bytes) :
  state c = HungUp ->
  dataReceived P (owner, c) data = Returned tt (owner, set_buf c (buf c ++ data)).
Proof.
  intros Hst. apply dataReceived_returned.
  rewrite dataReceived_raw_blocks by (rewrite Hst; discriminate).
  set (c1 := set_buf c (buf c ++ data)).
  rewrite (@block_relay_other _ owner c1 HungUp Hst) by discriminate.
  rewrite (@block_start_other _ owner c1 HungUp Hst) by discriminate.
  rewrite (@block_handshake_other _ owner c1 HungUp Hst) by discriminate.
  rewrite (@block_wait_other _ owner c1 HungUp Hst) by discriminate.
  rewrite (@block_go_other _ owner c1 HungUp Hst) by discriminate.
  rewrite (@block_nevermind_other _ owner c1 HungUp Hst) by discriminate.
  rewrite (@block_records_other _ owner c1 HungUp Hst) by discriminate.
  now rewrite (@block_exception_other owner c1 HungUp Hst) by discriminate.
Qed.

(** X10.  Bytes that reach a connection before [startNegotiation] make
    [dataReceived] raise [AssertionError] and hang the connection up.  A
    connection that is hung up only buffers what arrives, however many
    chunks follow: it writes nothing, fires nothing, never raises and
    leaves its owner alone. *)
Theorem deaf_when_hung_up owner :
  (forall c data, state c = TooEarly ->
     dataReceived P (owner, c) data
     = Raised AssertionError
         (owner, hung_up (set_buf c (buf c ++ data)) AssertionError)) /\
  (forall chunks c, state c = HungUp ->
     feed P (owner, c) chunks = (owner, set_buf c (buf c ++ concat chunks)) /\
     forall data, raised (dataReceived P (owner, c) data) = None).
Proof.
  split.
  - intros c data Hst. apply dataReceived_other_error; [| reflexivity].
    unfold _dataReceived.
    change (state (set_buf c (buf c ++ data))) with (state c).
    now rewrite Hst.
  - induction chunks as [|d chunks IH]; intros c Hst.
    + split; [| intros data; now rewrite hung_up_buffers].
      cbn [feed fold_left concat]. rewrite app_nil_r.
      now rewrite set_buf_same.
    + split; [| intros data; now rewrite hung_up_buffers].
      unfold feed. cbn [fold_left concat]. rewrite hung_up_buffers by exact Hst.
      cbn [final]. fold (feed P (owner, set_buf c (buf c ++ d)) chunks).
      destruct (IH (set_buf c (buf c ++ d)) Hst) as [-> _].
      cbn [buf set_buf]. now rewrite set_buf_twice, app_assoc.
Qed.

End Handshake.

(** ** The keys of the two directions, [_negotiationSuccessful] *)

(** X2.  When a sender and a receiver hold the same transit key and both
    finish negotiating, neither call raises, both connections are in state
    "records", the key each side sends under is the key the other side
    receives under, the two directions have the keys derived for
    "transit_record_sender_key" and "transit_record_receiver_key", all four
    nonce counters are 0, and each connection has cleared its timer and
    fired its negotiation Deferred. *)
Theorem negotiated_channel (P : Primitives) (o1 o2 : Common) (c1 c2 : Connection)
  (k : bytes) :
  is_sender o1 = true -> is_sender o2 = false ->
  _transit_key o1 = Some k -> _transit_key o2 = Some k ->
  _negotiation_d c1 = true -> _negotiation_d c2 = true ->
  let s := final (_negotiationSuccessful P o1 c1) in
  let r := final (_negotiationSuccessful P o2 c2) in
  raised (_negotiationSuccessful P o1 c1) = None /\
  raised (_negotiationSuccessful P o2 c2) = None /\
  state s = Records /\ state r = Records /\
  send_box s = Some (HKDF P k info_sender_key) /\ receive_box r = send_box s /\
  send_box r = Some (HKDF P k info_receiver_key) /\ receive_box s = send_box r /\
  send_nonce s = Some 0%Z /\ next_receive_nonce s = Some 0%Z /\
  send_nonce r = Some 0%Z /\ next_receive_nonce r = Some 0%Z /\
  effects s = effects c1 ++ [SetTimeout None; NegotiationCallback] /\
  effects r = effects c2 ++ [SetTimeout None; NegotiationCallback] /\
  _negotiation_d s = false /\ _negotiation_d r = false.
Proof.
  intros Hs Hr Hk1 Hk2 Hd1 Hd2 s r.
  destruct (@sender_texts P o1 k Hs Hk1) as (_ & _ & Hsk1 & Hrk1).
  destruct (@receiver_texts P o2 k Hr Hk2) as (_ & _ & Hsk2 & Hrk2).
  unfold s, r.
  rewrite (@negotiationSuccessful_ok P o1 c1 _ _ Hsk1 Hrk1 Hd1).
  rewrite (@negotiationSuccessful_ok P o2 c2 _ _ Hsk2 Hrk2 Hd2).
  cbn [final raised]. unfold negotiated_as.
  repeat split; try reflexivity;
    cbn [effects set_negotiation_d emit set_next_receive_nonce set_receive_box
           set_send_nonce set_send_box set_state];
    now rewrite <- app_assoc.
Qed.

(** The sender and the receiver of the fixtures. *)
Lemma negotiated_channel_witness :
  send_box (Fixture.negotiated Fixture.sender)
  = receive_box (Fixture.negotiated Fixture.receiver) /\
  send_box (Fixture.negotiated Fixture.receiver)
  = receive_box (Fixture.negotiated Fixture.sender).
Proof.
  destruct (@negotiated_channel Fixture.primitives Fixture.sender Fixture.receiver
              (Connection_init 0 None) (Connection_init 0 None) Fixture.key
              eq_refl eq_refl eq_refl eq_refl eq_refl eq_refl)
    as (_ & _ & _ & _ & _ & Hsr & _ & Hrs & _).
  split; [symmetry; exact Hsr | symmetry; exact Hrs].
Defined.

(** The receiver of the fixtures: its connection is told to start, gets
    the sender's handshake and then "go". *)
Lemma receiver_negotiates_witness :
  let w1 := final (startNegotiation Fixture.primitives
                     (Fixture.receiver, Connection_init 0 None) "<-peer") in
  let w2 := final (dataReceived Fixture.primitives w1
                     (build_sender_handshake Fixture.primitives Fixture.key)) in
  let w3 := final (dataReceived Fixture.primitives w2 b_go) in
  state (snd w1) = Handshake /\ written (snd w1) = x02 :: Fixture.key /\
  state (snd w2) = WaitForDecision /\
  state (snd w3) = Records /\ written (snd w3) = x02 :: Fixture.key.
Proof.
  intros w1 w2 w3.
  pose proof (@receiver_negotiates Fixture.primitives Fixture.receiver
                (Connection_init 0 None) "<-peer" Fixture.key
                eq_refl eq_refl eq_refl eq_refl eq_refl ltac:(discriminate)) as H.
  cbv zeta in H. destruct H as (H1 & H2 & H3).
  unfold w3, w2, w1. rewrite H1. cbn [final]. rewrite H2. cbn [final]. rewrite H3.
  repeat split.
Defined.

(** The sender of the fixtures: its first connection wins. *)
Lemma sender_first_connection_wins_witness :
  let w1 := final (startNegotiation Fixture.primitives
                     (Fixture.sender, Connection_init 0 None) "->peer") in
  let w2 := final (dataReceived Fixture.primitives w1
                     (build_receiver_handshake Fixture.primitives Fixture.key)) in
  state (snd w2) = Records /\
  describe (fst w2) = Some "->peer"%string /\
  written (snd w2) = (x01 :: Fixture.key) ++ b_go.
Proof.
  intros w1 w2.
  pose proof (@sender_first_connection_wins Fixture.primitives Fixture.sender
                (Connection_init 0 None) "->peer" Fixture.key
                eq_refl eq_refl eq_refl eq_refl eq_refl eq_refl
                ltac:(discriminate)) as H.
  cbv zeta in H. destruct H as (H1 & H2 & _).
  unfold w2, w1. rewrite H1. cbn [final]. rewrite H2.
  repeat split.
Defined.

(** A second connection of a sender that has its winner. *)
Lemma sender_later_connection_abandoned_witness :
  let owner := set_winner Fixture.sender 0 (Some "->first"%string) in
  let c := set_state (set_description (Connection_init 1 None) (Some "->second"%string))
                     Handshake in
  let w := final (dataReceived Fixture.primitives (owner, c)
                    (build_receiver_handshake Fixture.primitives Fixture.key)) in
  state (snd w) = HungUp /\ written (snd w) = b_nevermind /\
  _error (snd w) = Some (BadHandshake Abandoned) /\
  describe (fst w) = Some "->first"%string.
Proof.
  intros owner c w.
  pose proof (@sender_later_connection_abandoned Fixture.primitives owner c
                "->second" Fixture.key 0
                eq_refl eq_refl eq_refl eq_refl eq_refl eq_refl) as H.
  unfold w. rewrite H. repeat split.
Defined.

(** A receiver that waits for the handshake [x01 :: key]: a first byte
    [x00] hangs it up, a first byte [x01] is buffered. *)
Lemma handshake_input_witness :
  let c := set_state (Connection_init 0 None) Handshake in
  state (snd (final (dataReceived Fixture.primitives (Fixture.receiver, c) [x00])))
  = HungUp /\
  dataReceived Fixture.primitives (Fixture.receiver, c) [x01]
  = Returned tt (Fixture.receiver, set_buf c [x01]).
Proof.
  intros c.
  destruct (@handshake_input Fixture.primitives Fixture.receiver c [x00]
              (x01 :: Fixture.key) eq_refl eq_refl) as [Hbad _].
  destruct (@handshake_input Fixture.primitives Fixture.receiver c [x01]
              (x01 :: Fixture.key) eq_refl eq_refl) as [_ Hpart].
  split.
  - rewrite Hbad; [reflexivity |].
    exists 0, x00, x01. repeat split. discriminate.
  - apply (Hpart Fixture.key); [reflexivity | discriminate].
Defined.

(** A sender's connection through the relay. *)
Lemma relay_preamble_witness :
  let c := Connection_init 0 (Some (x03 :: Fixture.key)) in
  let w1 := final (startNegotiation Fixture.primitives (Fixture.sender, c) "->relay") in
  let w2 := final (dataReceived Fixture.primitives w1 b_ok) in
  written (snd w1) = x03 :: Fixture.key /\ state (snd w1) = Relay /\
  written (snd w2) = (x03 :: Fixture.key) ++ x01 :: Fixture.key /\
  state (snd w2) = Handshake.
Proof.
  intros c w1 w2.
  pose proof (@relay_preamble Fixture.primitives Fixture.sender c "->relay"
                (x03 :: Fixture.key) (x01 :: Fixture.key) (x02 :: Fixture.key)
                eq_refl eq_refl eq_refl eq_refl ltac:(discriminate)) as H.
  cbv zeta in H. destruct H as (H1 & _ & H2 & _).
  unfold w2, w1. rewrite H1. cbn [final]. rewrite H2.
  repeat split.
Defined.

(** ** How a failed negotiation is reported, [connectionLost] *)

(** X11.  [connectionLost] fires the negotiation Deferred, if it is still
    pending, with the error that made the connection close: the exception
    [dataReceived] caught, [BadHandshake("timeout")] after
    [timeoutConnection], and [BadHandshake("connection lost")] when no
    error was kept.  After [_cancel] it fires nothing, [_cancel] having
    dropped the Deferred.  It never fires twice: a second [connectionLost]
    only clears the timer again. *)
Theorem connectionLost_reports (c : Connection) (e : exn) :
  _negotiation_d c = true ->
  effects (connectionLost (hung_up c e))
  = effects c ++ [SetTimeout None; LoseConnection; SetTimeout None;
                  NegotiationErrback e] /\
  effects (connectionLost (timeoutConnection c))
  = effects c ++ [LoseConnection; SetTimeout None;
                  NegotiationErrback (BadHandshake TimedOut)] /\
  (_error c = None ->
   effects (connectionLost c)
   = effects c ++ [SetTimeout None; NegotiationErrback (BadHandshake ConnectionLost)]) /\
  effects (connectionLost (Connection_cancel c))
  = effects c ++ [LoseConnection; SetTimeout None] /\
  connectionLost (connectionLost c) = emit (connectionLost c) (SetTimeout None).
Proof.
  intros Hd. unfold connectionLost, hung_up, timeoutConnection, Connection_cancel.
  cbn [_negotiation_d emit set_state set_error set_negotiation_d _error effects].
  rewrite Hd.
  cbn [_negotiation_d emit set_state set_error set_negotiation_d _error effects].
  repeat split; rewrite <- ?app_assoc; try reflexivity.
  intros ->. reflexivity.
Qed.

Lemma connectionLost_reports_witness :
  effects (connectionLost (timeoutConnection (connectionMade (Connection_init 0 None))))
  = [SetTimeout (Some TIMEOUT); LoseConnection; SetTimeout None;
     NegotiationErrback (BadHandshake TimedOut)].
Proof.
  destruct (@connectionLost_reports (connectionMade (Connection_init 0 None))
              CancelledError eq_refl) as (_ & H & _).
  exact H.
Defined.

(** ** What every run keeps true of a connection *)

Lemma results_emit (c : Connection) (ev : effect) :
  negotiation_results (emit c ev)
  = negotiation_results c ++ (if is_result ev then [ev] else []).
Proof.
  unfold negotiation_results, emit. cbn [effects]. rewrite filter_app.
  cbn [filter]. now destruct (is_result ev).
Qed.

Lemma results_emit_other (c : Connection) (ev : effect) :
  is_result ev = false -> negotiation_results (emit c ev) = negotiation_results c.
Proof. intros H. now rewrite results_emit, H, app_nil_r. Qed.

Lemma once_transfer (c c' : Connection) :
  _negotiation_d c' = _negotiation_d c ->
  negotiation_results c' = negotiation_results c ->
  once c -> once c'.
Proof. unfold once. now intros -> ->. Qed.

Lemma inv_transfer (c c' : Connection) :
  state c' = state c ->
  _negotiation_d c' = _negotiation_d c ->
  negotiation_results c' = negotiation_results c ->
  send_box c' = send_box c -> send_nonce c' = send_nonce c ->
  receive_box c' = receive_box c -> next_receive_nonce c' = next_receive_nonce c ->
  conn_inv c -> conn_inv c'.
Proof.
  unfold conn_inv, once, ready. now intros -> -> -> -> -> -> ->.
Qed.

Lemma inv_other_state (c : Connection) :
  state c <> Records -> once c -> conn_inv c.
Proof. intros Hst Ho. split; [exact Ho |]. intros H. now destruct Hst. Qed.

Lemma inv_emit (c : Connection) (ev : effect) :
  is_result ev = false -> conn_inv c -> conn_inv (emit c ev).
Proof.
  intros Hev. apply inv_transfer; try reflexivity. now apply results_emit_other.
Qed.

Lemma once_emit (c : Connection) (ev : effect) :
  is_result ev = false -> once c -> once (emit c ev).
Proof.
  intros Hev. apply once_transfer; [reflexivity |]. now apply results_emit_other.
Qed.

Lemma inv_hung_up (c : Connection) (e : exn) : once c -> conn_inv (hung_up c e).
Proof.
  intros Ho. apply inv_other_state; [discriminate |].
  unfold hung_up.
  apply (@once_transfer (emit (emit c (SetTimeout None)) LoseConnection));
    [reflexivity | reflexivity |].
  now do 2 (apply once_emit; [reflexivity |]).
Qed.

Lemma results_callbacks (pairs : list (nat * bytes)) :
  filter is_result (callbacks_of pairs) = [].
Proof. induction pairs as [|p pairs IH]; [reflexivity | exact IH]. Qed.

Lemma inv_deliverRecords (c : Connection) : conn_inv c -> conn_inv (_deliverRecords c).
Proof.
  destruct (deliverRecords_fields c) as (_ & _ & Elog & _).
  assert (negotiation_results (_deliverRecords c) = negotiation_results c) as Hres.
  { unfold negotiation_results. rewrite Elog, filter_app, results_callbacks.
    apply app_nil_r. }
  revert Hres. unfold _deliverRecords.
  destruct (deliver_loop (_inbound_records c) (_waiting_reads c) (effects c))
    as [[inbound waiting] log].
  intros Hres. now apply inv_transfer.
Qed.

Lemma inv_recordReceived (c : Connection) (record : bytes) :
  conn_inv c -> conn_inv (recordReceived c record).
Proof.
  intros H. unfold recordReceived. destruct (_consumer c).
  - now apply inv_emit.
  - apply inv_deliverRecords. revert H. now apply inv_transfer.
Qed.

Lemma Forall_replace_nth (A : Type) (Q : A -> Prop) (i : nat) (x : A) (l : list A) :
  Q x -> Forall Q l -> Forall Q (replace_nth i x l).
Proof.
  intros Hx Hl. revert i. induction Hl as [|y l Hy Hl IH]; intros i.
  - destruct i; constructor.
  - destruct i; cbn [replace_nth]; constructor; auto.
Qed.

Lemma Forall_nth_error (A : Type) (Q : A -> Prop) (i : nat) (x : A) (l : list A) :
  Forall Q l -> nth_error l i = Some x -> Q x.
Proof.
  intros Hl Hx. rewrite Forall_forall in Hl. apply Hl.
  now apply nth_error_In with i.
Qed.

Section Invariant.
Variable P : Primitives.

Lemma ki_expecting (expected : bytes) (k : block) :
  keeps_inv k -> keeps_inv (expecting expected k).
Proof.
  intros Hk owner c Hc. unfold expecting, _check_and_remove.
  destruct (negb (startswith (buf c) (firstn (length (buf c)) expected)));
    [exact (proj1 Hc) |].
  destruct (Nat.ltb (length (buf c)) (length expected)); [exact Hc |].
  apply Hk. revert Hc. now apply inv_transfer.
Qed.

Lemma ki_relay (k : block) : keeps_inv k -> keeps_inv (block_relay k).
Proof.
  intros Hk owner c Hc. unfold block_relay.
  destruct (state c) eqn:E; try (now apply Hk).
  apply ki_expecting; [| exact Hc].
  intros owner' c' Hc'. apply Hk.
  apply inv_other_state; [discriminate |].
  now apply (@once_transfer c'); [| | exact (proj1 Hc')].
Qed.

Lemma ki_start (k : block) : keeps_inv k -> keeps_inv (block_start P k).
Proof.
  intros Hk owner c Hc. unfold block_start.
  destruct (state c) eqn:E; try (now apply Hk).
  destruct (_send_this P owner) as [hs | e]; [| exact (proj1 Hc)].
  apply Hk. apply inv_other_state; [discriminate |].
  apply (@once_transfer (emit c (TransportWrite hs))); [reflexivity | reflexivity |].
  apply once_emit; [reflexivity | exact (proj1 Hc)].
Qed.

Lemma ki_handshake (k : block) : keeps_inv k -> keeps_inv (block_handshake P k).
Proof.
  intros Hk owner c Hc. unfold block_handshake.
  destruct (state c) eqn:E; try (now apply Hk).
  destruct (_expect_this P owner) as [expected | e]; [| exact (proj1 Hc)].
  apply ki_expecting; [| exact Hc].
  intros owner' c' Hc'.
  destruct (description c'); [| exact (proj1 Hc')].
  assert (forall st, st <> Records -> conn_inv (set_state c' st)) as Hset.
  { intros st Hs. apply inv_other_state; [exact Hs |].
    now apply (@once_transfer c'); [| | exact (proj1 Hc')]. }
  unfold connection_ready.
  destruct (negb (is_sender owner')); [apply Hk, Hset; discriminate |].
  destruct (_winner owner'); apply Hk, Hset; discriminate.
Qed.

Lemma negotiationSuccessful_inv (owner : Common) (c : Connection) :
  once c ->
  match _negotiationSuccessful P owner c with
  | Returned _ c' => conn_inv c'
  | Raised _ c' => once c'
  end.
Proof.
  intros Ho. unfold _negotiationSuccessful.
  set (c1 := emit (set_state c Records) (SetTimeout None)).
  assert (once c1) as Ho1.
  { apply once_emit; [reflexivity |].
    now apply (@once_transfer c). }
  destruct (_sender_record_key P owner) as [sk | e]; [| exact Ho1].
  set (c2 := set_send_nonce (set_send_box c1 (Some sk)) (Some 0%Z)).
  assert (once c2) as Ho2 by (now apply (@once_transfer c1)).
  destruct (_receiver_record_key P owner) as [rk | e]; [| exact Ho2].
  set (c3 := set_next_receive_nonce (set_receive_box c2 (Some rk)) (Some 0%Z)).
  assert (once c3) as Ho3 by (now apply (@once_transfer c2)).
  change (_negotiation_d c3) with (_negotiation_d c).
  assert (negotiation_results c3 = negotiation_results c) as Hres.
  { unfold c3, c2, c1.
    change (negotiation_results
              (set_next_receive_nonce
                 (set_receive_box
                    (set_send_nonce
                       (set_send_box (emit (set_state c Records) (SetTimeout None))
                                     (Some sk)) (Some 0%Z)) (Some rk)) (Some 0%Z)))
      with (negotiation_results (emit c (SetTimeout None))).
    now apply results_emit_other. }
  destruct (_negotiation_d c) eqn:Ed.
  - unfold once in Ho. rewrite Ed in Ho.
    assert (negotiation_results
              (emit (set_negotiation_d c3 false) NegotiationCallback)
            = [NegotiationCallback]) as Hfired.
    { rewrite results_emit.
      change (negotiation_results (set_negotiation_d c3 false))
        with (negotiation_results c3).
      now rewrite Hres, Ho. }
    split.
    + unfold once. cbn [_negotiation_d emit set_negotiation_d].
      rewrite Hfired. cbn [length]. lia.
    + intros _. split; [exact Hfired |]. split; [reflexivity |].
      split; [exists sk, 0%Z | exists rk, 0%Z]; repeat split; lia.
  - unfold once in Ho |- *. rewrite Ed in Ho.
    cbn [_negotiation_d set_negotiation_d].
    change (negotiation_results (set_negotiation_d c3 false))
      with (negotiation_results c3).
    now rewrite Hres.
Qed.

Lemma ki_wait_for_decision (k : block) :
  keeps_inv k -> keeps_inv (block_wait_for_decision P k).
Proof.
  intros Hk owner c Hc. unfold block_wait_for_decision.
  destruct (state c) eqn:E; try (now apply Hk).
  apply ki_expecting; [| exact Hc].
  intros owner' c' Hc'.
  pose proof (@negotiationSuccessful_inv owner' c' (proj1 Hc')) as H.
  destruct (_negotiationSuccessful P owner' c') as [a c'' | e c''];
    [now apply Hk | exact H].
Qed.

Lemma ki_go (k : block) : keeps_inv k -> keeps_inv (block_go P k).
Proof.
  intros Hk owner c Hc. unfold block_go.
  destruct (state c) eqn:E; try (now apply Hk).
  assert (once (emit c (TransportWrite b_go))) as Ho
      by (apply once_emit; [reflexivity | exact (proj1 Hc)]).
  pose proof (@negotiationSuccessful_inv owner _ Ho) as H.
  destruct (_negotiationSuccessful P owner (emit c (TransportWrite b_go)))
    as [a c'' | e c'']; [now apply Hk | exact H].
Qed.

Lemma ki_nevermind (k : block) : keeps_inv k -> keeps_inv (block_nevermind k).
Proof.
  intros Hk owner c Hc. unfold block_nevermind.
  destruct (state c) eqn:E; try (now apply Hk).
  cbn [snd]. apply once_emit; [reflexivity | exact (proj1 Hc)].
Qed.

Lemma decrypt_record_inv (c : Connection) (encrypted : bytes) :
  conn_inv c -> state c = Records ->
  match _decrypt_record P c encrypted with
  | Returned _ c' => conn_inv c'
  | Raised _ c' => once c'
  end.
Proof.
  intros Hc Hst. unfold _decrypt_record.
  destruct (Hex.int_base16 (Hex.hexlify (firstn NONCE_SIZE encrypted))) as [nonce | e];
    [| exact (proj1 Hc)].
  destruct (next_receive_nonce c) as [expected |] eqn:En; [| exact (proj1 Hc)].
  destruct (negb (nonce =? expected)%Z); [exact (proj1 Hc) |].
  set (c1 := set_next_receive_nonce c (Some (expected + 1)%Z)).
  assert (once c1) as Ho1 by (now apply (@once_transfer c); [| | exact (proj1 Hc)]).
  change (receive_box c1) with (receive_box c).
  destruct (receive_box c) as [key |] eqn:Ek; [| exact Ho1].
  destruct (SecretBox_decrypt P key encrypted) as [record | e]; [| exact Ho1].
  split; [exact Ho1 |]. intros _.
  destruct (proj2 Hc Hst) as (Hres & Hd & Hsend & (key' & n & Hk' & Hn & Hpos)).
  split; [exact Hres |]. split; [exact Hd |]. split; [exact Hsend |].
  exists key, (expected + 1)%Z. repeat split; [exact Ek |].
  rewrite En in Hn. injection Hn as <-. lia.
Qed.

Lemma dataReceivedRECORDS_inv (c : Connection) :
  conn_inv c -> state c = Records ->
  match dataReceivedRECORDS P c with
  | Returned _ c' => conn_inv c'
  | Raised _ c' => once c'
  end.
Proof.
  intros Hc Hst. unfold dataReceivedRECORDS.
  destruct (Nat.ltb (length (buf c)) 4); [exact Hc |].
  destruct (Hex.int_base16 (Hex.hexlify (firstn 4 (buf c)))) as [len | e];
    [| exact (proj1 Hc)].
  destruct (Z.of_nat (length (buf c)) <? 4 + len)%Z; [exact Hc |].
  set (c1 := set_buf c (skipn (4 + Z.to_nat len) (buf c))).
  assert (conn_inv c1) as Hc1 by (revert Hc; now apply inv_transfer).
  pose proof (@decrypt_record_inv c1
                (firstn (Z.to_nat len) (skipn 4 (buf c))) Hc1 Hst) as H.
  destruct (_decrypt_record P c1 (firstn (Z.to_nat len) (skipn 4 (buf c))))
    as [record c2 | e c2]; [| exact H].
  now apply inv_recordReceived.
Qed.

Lemma ki_records (k : block) : keeps_inv k -> keeps_inv (block_records P k).
Proof.
  intros Hk owner c Hc. unfold block_records.
  destruct (state c) eqn:E; try (now apply Hk).
  pose proof (@dataReceivedRECORDS_inv c Hc E) as H.
  now destruct (dataReceivedRECORDS P c).
Qed.

Lemma ki_exception : keeps_inv block_exception.
Proof.
  intros owner c Hc. unfold block_exception.
  destruct (state c); first [exact Hc | exact (proj1 Hc)].
Qed.

Lemma dataReceived_inv (owner : Common) (c : Connection) (data : bytes) :
  conn_inv c -> conn_inv (snd (final (dataReceived P (owner, c) data))).
Proof.
  intros Hc. unfold dataReceived.
  set (c1 := set_buf c (buf c ++ data)).
  assert (conn_inv c1) as Hc1 by (revert Hc; now apply inv_transfer).
  assert (match _dataReceived P (owner, c) data with
          | Returned _ w => conn_inv (snd w)
          | Raised _ w => once (snd w)
          end) as H.
  { unfold _dataReceived. fold c1.
    pose proof (ki_relay (ki_start (ki_handshake (ki_wait_for_decision
                  (ki_go (ki_nevermind (ki_records ki_exception)))))) owner Hc1)
      as Hblocks.
    destruct (state c1); first [exact Hblocks | exact (proj1 Hc1)]. }
  destruct (_dataReceived P (owner, c) data) as [a w | e [o c']];
    [exact H |].
  cbn [snd] in H.
  destruct (isinstance_BadHandshake e); now apply inv_hung_up.
Qed.

Lemma startNegotiation_inv (owner : Common) (c : Connection) (descr : string) :
  conn_inv c -> conn_inv (snd (final (startNegotiation P (owner, c) descr))).
Proof.
  intros Hc. unfold startNegotiation. apply dataReceived_inv.
  change (relay_handshake (set_description c (Some descr))) with (relay_handshake c).
  destruct (relay_handshake c) as [hs |];
    (apply inv_other_state; [discriminate |]).
  - apply (@once_transfer (emit c (TransportWrite hs))); [reflexivity | reflexivity |].
    apply once_emit; [reflexivity | exact (proj1 Hc)].
  - now apply (@once_transfer c); [| | exact (proj1 Hc)].
Qed.

Lemma send_record_inv (c : Connection) (record : pyobj) :
  conn_inv c -> conn_inv (final (send_record P c record)).
Proof.
  intros Hc. unfold send_record.
  destruct record as [record | | |]; try exact Hc.
  destruct (send_nonce c) as [n |] eqn:En; [| exact Hc].
  destruct (negb (n <? 2 ^ (8 * 24))%Z); [exact Hc |].
  destruct (negb (Z.of_nat (length record) <? 2 ^ (8 * 4))%Z); [exact Hc |].
  destruct (Hex.unhexlify (Hex.format_0x 48 n)) as [nonce | e]; [| exact Hc].
  set (c1 := set_send_nonce c (Some (n + 1)%Z)).
  assert (conn_inv c1) as Hc1.
  { split; [now apply (@once_transfer c); [| | exact (proj1 Hc)] |].
    intros Hst.
    destruct (proj2 Hc Hst) as (Hres & Hd & (key & n' & Hk & Hn & Hpos) & Hrecv).
    split; [exact Hres |]. split; [exact Hd |]. split; [| exact Hrecv].
    exists key, (n + 1)%Z. repeat split; [exact Hk |].
    rewrite En in Hn. injection Hn as <-. lia. }
  change (send_box c1) with (send_box c).
  destruct (send_box c) as [key |]; [| exact Hc1].
  destruct (SecretBox_encrypt P key record nonce) as [encrypted | e]; [| exact Hc1].
  destruct (Hex.unhexlify (Hex.format_0x 8 (Z.of_nat (length encrypted))))
    as [len | e]; [| exact Hc1].
  cbn [final]. now do 2 (apply inv_emit; [reflexivity |]).
Qed.

Lemma inv_connection_made (id : conn_ref) (relay : option bytes) :
  conn_inv (connectionMade (Connection_init id relay)).
Proof. split; [reflexivity | discriminate]. Qed.

Lemma inv_receive_record (c : Connection) (d : nat) :
  conn_inv c -> conn_inv (receive_record c d).
Proof.
  intros Hc. unfold receive_record. apply inv_deliverRecords.
  revert Hc. now apply inv_transfer.
Qed.

Lemma inv_connectConsumer (c : Connection) (consumer : nat) :
  conn_inv c -> conn_inv (final (connectConsumer c consumer)).
Proof.
  intros Hc. unfold connectConsumer. destruct (_consumer c); [exact Hc |].
  cbn [final]. apply inv_emit; [reflexivity |].
  revert Hc. apply inv_transfer; try reflexivity.
  unfold negotiation_results. cbn [effects set_effects].
  rewrite filter_app.
  assert (filter is_result (map (ConsumerWrite consumer) (_inbound_records c)) = [])
    as ->; [| apply app_nil_r].
  induction (_inbound_records c) as [|r l IH]; [reflexivity | exact IH].
Qed.

Lemma inv_cancel (c : Connection) : conn_inv c -> conn_inv (Connection_cancel c).
Proof.
  intros Hc. apply inv_other_state; [discriminate |].
  unfold Connection_cancel, once. cbn [_negotiation_d set_negotiation_d].
  change (negotiation_results
            (set_negotiation_d
               (emit (set_error (set_state c HungUp) (Some CancelledError))
                     LoseConnection) false))
    with (negotiation_results (emit c LoseConnection)).
  rewrite results_emit_other by reflexivity.
  destruct Hc as [Ho _]. unfold once in Ho.
  destruct (_negotiation_d c); [rewrite Ho; cbn; lia | exact Ho].
Qed.

Lemma inv_timeoutConnection (c : Connection) :
  conn_inv c -> conn_inv (timeoutConnection c).
Proof.
  intros Hc. unfold timeoutConnection. apply inv_emit; [reflexivity |].
  revert Hc. now apply inv_transfer.
Qed.

Lemma inv_connectionLost (c : Connection) : conn_inv c -> conn_inv (connectionLost c).
Proof.
  intros Hc. unfold connectionLost.
  change (_negotiation_d (emit c (SetTimeout None))) with (_negotiation_d c).
  destruct (_negotiation_d c) eqn:Ed; [| now apply inv_emit].
  destruct Hc as [Ho Hr]. unfold once in Ho. rewrite Ed in Ho.
  set (e := match _error (emit c (SetTimeout None)) with
            | Some e => e
            | None => BadHandshake ConnectionLost
            end).
  assert (negotiation_results
            (emit (set_negotiation_d (emit c (SetTimeout None)) false)
                  (NegotiationErrback e)) = [NegotiationErrback e]) as Hres.
  { rewrite results_emit.
    change (negotiation_results (set_negotiation_d (emit c (SetTimeout None)) false))
      with (negotiation_results (emit c (SetTimeout None))).
    rewrite results_emit_other by reflexivity. now rewrite Ho. }
  split.
  - unfold once. cbn [_negotiation_d emit set_negotiation_d]. rewrite Hres.
    cbn [length]. lia.
  - intros Hst. destruct (Hr Hst) as (_ & Hd & _). congruence.
Qed.

Lemma results_errbacks (e : exn) (l : list nat) :
  filter is_result (map (fun d => ReadErrback d e) l) = [].
Proof. induction l as [|d l IH]; [reflexivity | exact IH]. Qed.

Lemma inv_close (c : Connection) : conn_inv c -> conn_inv (close c).
Proof.
  intros Hc. unfold close.
  revert Hc. apply inv_transfer; try reflexivity.
  unfold negotiation_results.
  cbn [effects set_effects set_waiting_reads emit _waiting_reads].
  rewrite !filter_app, results_errbacks. cbn [filter is_result].
  now rewrite !app_nil_r.
Qed.

Lemma on_conn_inv (s : system) (i : nat) (f : Connection -> Connection) :
  (forall c, conn_inv c -> conn_inv (f c)) ->
  Forall conn_inv (sys_conns s) -> Forall conn_inv (sys_conns (on_conn s i f)).
Proof.
  intros Hf Hs. unfold on_conn.
  destruct (nth_error (sys_conns s) i) as [c |] eqn:E; [| exact Hs].
  cbn [sys_conns]. apply Forall_replace_nth; [| exact Hs].
  apply Hf. exact (@Forall_nth_error _ _ i c _ Hs E).
Qed.

Lemma on_world_inv (s : system) (i : nat) (f : world -> outcome world unit) :
  (forall owner c, conn_inv c -> conn_inv (snd (final (f (owner, c))))) ->
  Forall conn_inv (sys_conns s) -> Forall conn_inv (sys_conns (on_world s i f)).
Proof.
  intros Hf Hs. unfold on_world.
  destruct (nth_error (sys_conns s) i) as [c |] eqn:E; [| exact Hs].
  pose proof (Hf (sys_owner s) c (@Forall_nth_error _ _ i c _ Hs E)) as H.
  destruct (final (f (sys_owner s, c))) as [o c'].
  cbn [sys_conns]. now apply Forall_replace_nth.
Qed.

Lemma step_inv (s : system) (ev : event) :
  Forall conn_inv (sys_conns s) -> Forall conn_inv (sys_conns (step P s ev)).
Proof.
  intros Hs. destruct ev; cbn [step].
  - exact Hs.
  - exact Hs.
  - now destruct (add_their_direct_hints (sys_owner s) hints).
  - now destruct (add_their_relay_hints (sys_owner s) hints).
  - cbn [sys_conns]. apply Forall_app. split; [exact Hs |].
    constructor; [apply inv_connection_made | constructor].
  - apply on_world_inv; [| exact Hs]. intros owner c. apply startNegotiation_inv.
  - apply on_world_inv; [| exact Hs]. intros owner c. apply dataReceived_inv.
  - apply on_conn_inv; [| exact Hs]. intros c. apply send_record_inv.
  - apply on_conn_inv; [| exact Hs]. intros c Hc. now apply inv_receive_record.
  - apply on_conn_inv; [| exact Hs]. intros c. apply inv_connectConsumer.
  - apply on_conn_inv; [| exact Hs]. exact inv_cancel.
  - apply on_conn_inv; [| exact Hs]. exact inv_timeoutConnection.
  - apply on_conn_inv; [| exact Hs]. exact inv_connectionLost.
  - apply on_conn_inv; [| exact Hs]. exact inv_close.
Qed.

Lemma run_events_inv (evs : list event) : forall s,
  Forall conn_inv (sys_conns s) -> Forall conn_inv (sys_conns (run_events P s evs)).
Proof.
  induction evs as [|ev evs IH]; intros s Hs; [exact Hs |].
  cbn [run_events fold_left]. apply IH. now apply step_inv.
Qed.

(** X12.  Whatever calls the application and the reactor make on a transit
    and its connections, in whatever order, no connection fires its
    negotiation Deferred more than once, and a connection whose Deferred is
    still pending has not fired it. *)
Theorem negotiation_fires_once (owner : Common) (evs : list event) :
  Forall (fun c => length (negotiation_results c) <= 1 /\
                   (_negotiation_d c = true -> negotiation_results c = []))
         (sys_conns (run_events P (boot owner) evs)).
Proof.
  pose proof (@run_events_inv evs (boot owner) (Forall_nil _)) as H.
  apply Forall_impl with (2 := H).
  intros c [Ho _]. unfold once in Ho.
  destruct (_negotiation_d c).
  - rewrite Ho. split; [cbn; lia | reflexivity].
  - split; [exact Ho | discriminate].
Qed.

(** X13.  Whatever calls are made, a connection that is in state "records"
    has finished negotiating: its negotiation Deferred was fired exactly
    once, with success, and is no longer pending, and both directions have
    their key and a nonce that is not negative, so [send_record] and
    [_decrypt_record] find the attributes they read. *)
Theorem records_state_is_ready (owner : Common) (evs : list event) :
  Forall (fun c => state c = Records ->
                   negotiation_results c = [NegotiationCallback] /\
                   _negotiation_d c = false /\
                   (exists key n, sending c key n /\ (0 <= n)%Z) /\
                   (exists key n, receive_box c = Some key /\
                                  next_receive_nonce c = Some n /\ (0 <= n)%Z))
         (sys_conns (run_events P (boot owner) evs)).
Proof.
  pose proof (@run_events_inv evs (boot owner) (Forall_nil _)) as H.
  apply Forall_impl with (2 := H).
  intros c [_ Hr] Hst.
  destruct (Hr Hst) as (Hres & Hd & (key & n & Hk & Hn & Hpos) & Hrecv).
  split; [exact Hres |]. split; [exact Hd |]. split; [| exact Hrecv].
  exists key, n. now repeat split.
Qed.

End Invariant.

(** ** The winner is final *)

Section Winner.
Variable P : Primitives.

Lemma kw_expecting (expected : bytes) (k : block) :
  keeps_winner k -> keeps_winner (expecting expected k).
Proof.
  intros Hk owner c Hwin. unfold expecting.
  destruct (_check_and_remove c expected) as [[[|] c'] | e];
    [now apply Hk | reflexivity | reflexivity].
Qed.

Lemma kw_relay (k : block) : keeps_winner k -> keeps_winner (block_relay k).
Proof.
  intros Hk owner c Hwin. unfold block_relay.
  destruct (state c); auto.
  apply kw_expecting; [| exact Hwin].
  intros owner' c' Hwin'. now apply Hk.
Qed.

Lemma kw_start (k : block) : keeps_winner k -> keeps_winner (block_start P k).
Proof.
  intros Hk owner c Hwin. unfold block_start.
  destruct (state c); auto.
  destruct (_send_this P owner) as [hs | e]; [| reflexivity].
  now apply Hk.
Qed.

Lemma kw_handshake (k : block) : keeps_winner k -> keeps_winner (block_handshake P k).
Proof.
  intros Hk owner c Hwin. unfold block_handshake.
  destruct (state c); auto.
  destruct (_expect_this P owner) as [expected | e]; [| reflexivity].
  apply kw_expecting; [| exact Hwin].
  intros owner' c' Hwin'.
  destruct (description c'); [| reflexivity].
  unfold connection_ready.
  destruct (negb (is_sender owner')); [now apply Hk |].
  destruct (_winner owner') eqn:E; [| now destruct Hwin'].
  apply Hk. rewrite E. discriminate.
Qed.

Lemma kw_wait_for_decision (k : block) :
  keeps_winner k -> keeps_winner (block_wait_for_decision P k).
Proof.
  intros Hk owner c Hwin. unfold block_wait_for_decision.
  destruct (state c); auto.
  apply kw_expecting; [| exact Hwin].
  intros owner' c' Hwin'.
  destruct (_negotiationSuccessful P owner' c'); [| reflexivity].
  now apply Hk.
Qed.

Lemma kw_go (k : block) : keeps_winner k -> keeps_winner (block_go P k).
Proof.
  intros Hk owner c Hwin. unfold block_go.
  destruct (state c); auto.
  destruct (_negotiationSuccessful P owner _); [| reflexivity].
  now apply Hk.
Qed.

Lemma kw_nevermind (k : block) : keeps_winner k -> keeps_winner (block_nevermind k).
Proof.
  intros Hk owner c Hwin. unfold block_nevermind.
  destruct (state c); auto.
Qed.

Lemma kw_records (k : block) : keeps_winner k -> keeps_winner (block_records P k).
Proof.
  intros Hk owner c Hwin. unfold block_records.
  destruct (state c); auto.
  destruct (dataReceivedRECORDS P c); reflexivity.
Qed.

Lemma kw_exception : keeps_winner block_exception.
Proof.
  intros owner c Hwin. unfold block_exception. destruct (state c); reflexivity.
Qed.

Lemma dataReceived_keeps_winner (owner : Common) (c : Connection) (data : bytes) :
  _winner owner <> None ->
  fst (final (dataReceived P (owner, c) data)) = owner.
Proof.
  intros Hwin. unfold dataReceived.
  assert (fst (final (_dataReceived P (owner, c) data)) = owner) as H.
  { unfold _dataReceived.
    pose proof (kw_relay (kw_start (kw_handshake
                  (kw_wait_for_decision (kw_go (kw_nevermind
                     (kw_records kw_exception)))))))
      as Hblocks.
    destruct (state (set_buf c (buf c ++ data))) eqn:E;
      try (apply Hblocks; exact Hwin).
    reflexivity. }
  destruct (_dataReceived P (owner, c) data) as [a [o c'] | e [o c']];
    cbn in H |- *; [exact H |].
  destruct (isinstance_BadHandshake e); exact H.
Qed.

Lemma step_keeps_winner (s : system) (ev : event) (p : conn_ref) :
  _winner (sys_owner s) = Some p ->
  _winner (sys_owner (step P s ev)) = Some p /\
  _winner_description (sys_owner (step P s ev)) = _winner_description (sys_owner s).
Proof.
  intros Hwin.
  assert (_winner (sys_owner s) <> None) as Hne by congruence.
  destruct ev; cbn [step];
    try (unfold on_conn; destruct (nth_error (sys_conns s) i); cbn; now split);
    try (cbn; now split).
  - unfold add_their_direct_hints. destruct (all_text hints); cbn; now split.
  - unfold add_their_relay_hints. destruct (all_text hints); cbn; now split.
  - unfold on_world. destruct (nth_error (sys_conns s) i) as [c|]; [| now split].
    pose proof (@dataReceived_keeps_winner (sys_owner s)
                  (match relay_handshake (set_description c (Some descr)) with
                   | Some hs => set_state (emit (set_description c (Some descr))
                                                (TransportWrite hs)) Relay
                   | None => set_state (set_description c (Some descr)) Start
                   end) [] Hne) as H.
    change (startNegotiation P (sys_owner s, c) descr)
      with (dataReceived P (sys_owner s,
              match relay_handshake (set_description c (Some descr)) with
              | Some hs => set_state (emit (set_description c (Some descr))
                                           (TransportWrite hs)) Relay
              | None => set_state (set_description c (Some descr)) Start
              end) []).
    destruct (final (dataReceived P _ [])) as [o c'].
    cbn in H |- *. subst o. now split.
  - unfold on_world. destruct (nth_error (sys_conns s) i) as [c|]; [| now split].
    pose proof (@dataReceived_keeps_winner (sys_owner s) c data Hne) as H.
    destruct (final (dataReceived P (sys_owner s, c) data)) as [o c'].
    cbn in H |- *. subst o. now split.
Qed.

(** X14.  Once the owner has a winner, nothing that happens afterwards
    replaces it: whatever calls follow, on whichever connection, [_winner]
    is the same connection and [describe] gives the same answer. *)
Theorem winner_is_final (s : system) (evs : list event) (p : conn_ref) :
  _winner (sys_owner s) = Some p ->
  _winner (sys_owner (run_events P s evs)) = Some p /\
  describe (sys_owner (run_events P s evs)) = describe (sys_owner s).
Proof.
  revert s. induction evs as [|ev evs IH]; intros s Hwin; [now split |].
  cbn [run_events fold_left].
  destruct (@step_keeps_winner s ev p Hwin) as [Hwin' Hdescr'].
  destruct (IH (step P s ev) Hwin') as [Hw Hd].
  split; [exact Hw |].
  unfold run_events in Hd. rewrite Hd. unfold describe. now rewrite Hwin, Hwin', Hdescr'.
Qed.

End Winner.

(** A sender whose first connection has won; then a second connection is
    made, negotiates and is turned away, and the transit key is set
    again. *)
Lemma winner_is_final_witness :
  let s := {| sys_owner := set_winner Fixture.sender 0 (Some "->first"%string);
              sys_conns := [Fixture.negotiated Fixture.sender] |} in
  let evs := [EvBuildProtocol None; EvStartNegotiation 1 "->second";
              EvDataReceived 1 (build_receiver_handshake Fixture.primitives Fixture.key);
              EvSetTransitKey [x00]; EvConnectionLost 1] in
  describe (sys_owner (run_events Fixture.primitives s evs)) = Some "->first"%string /\
  map state (sys_conns (run_events Fixture.primitives s evs)) = [Records; HungUp].
Proof.
  intros s evs.
  destruct (@winner_is_final Fixture.primitives s evs 0 eq_refl) as [_ Hd].
  split; [rewrite Hd; reflexivity | reflexivity].
Defined.

(** ** Readers, [close] and consumers *)

Lemma read_results_app (a b : list effect) :
  read_results (a ++ b) = read_results a ++ read_results b.
Proof. apply flat_map_app. Qed.

Lemma read_results_callbacks (pairs : list (nat * bytes)) :
  read_results (callbacks_of pairs) = map (fun dr => (fst dr, Ok (snd dr))) pairs.
Proof.
  induction pairs as [|[d r] pairs IH]; [reflexivity |].
  cbn. f_equal. exact IH.
Qed.

Lemma read_results_errbacks (e : exn) (l : list nat) :
  read_results (map (fun d => ReadErrback d e) l) = map (fun d => (d, Raise e)) l.
Proof.
  induction l as [|d l IH]; [reflexivity |].
  cbn. f_equal. exact IH.
Qed.

Lemma map_fst_combine (A B : Type) (l : list A) (r : list B) :
  map fst (combine l r) = firstn (length r) l.
Proof.
  revert r. induction l as [|x l IH]; intros [|y r]; cbn; try reflexivity.
  f_equal. apply IH.
Qed.

(** With no consumer attached, [recordReceived] and [receive_record] add
    nothing to the log but callbacks of reads. *)
Lemma queue_effects (ops : list queue_op) : forall c,
  _consumer c = None ->
  _consumer (fold_left queue_step ops c) = None /\
  exists pairs, effects (fold_left queue_step ops c) = effects c ++ callbacks_of pairs.
Proof.
  induction ops as [|op ops IH]; intros c Hcons.
  - split; [exact Hcons |]. exists []. cbn. now rewrite app_nil_r.
  - cbn [fold_left].
    assert (_consumer (queue_step c op) = None /\
            exists pairs, effects (queue_step c op) = effects c ++ callbacks_of pairs)
      as [Hcons1 [pairs1 Hlog1]].
    { destruct op as [r | d]; cbn [queue_step].
      - unfold recordReceived. rewrite Hcons.
        destruct (deliverRecords_fields
                    (set_inbound_records c (_inbound_records c ++ [r])))
          as (_ & _ & Elog & Econs).
        split; [now rewrite Econs |]. eexists. exact Elog.
      - unfold receive_record.
        destruct (deliverRecords_fields
                    (set_waiting_reads c (_waiting_reads c ++ [d])))
          as (_ & _ & Elog & Econs).
        split; [now rewrite Econs |]. eexists. exact Elog. }
    destruct (IH (queue_step c op) Hcons1) as [Hcons2 [pairs2 Hlog2]].
    split; [exact Hcons2 |].
    exists (pairs1 ++ pairs2). rewrite Hlog2, Hlog1.
    unfold callbacks_of. now rewrite map_app, app_assoc.
Qed.

(** X15.  Records arrive and reads are asked for in any order on a
    connection without a consumer, and then the connection is closed.
    Every read is settled exactly once and in the order it was asked for:
    the first reads got the records, pair by pair, and [close] gives
    [ConnectionClosed] to each read that was still waiting; no read is
    left waiting. *)
Theorem close_settles_every_read (c : Connection) (ops : list queue_op) :
  _consumer c = None -> _inbound_records c = [] -> _waiting_reads c = [] ->
  let c' := close (fold_left queue_step ops c) in
  _waiting_reads c' = [] /\
  read_results (effects c')
  = read_results (effects c)
    ++ map (fun dr => (fst dr, Ok (snd dr))) (combine (readers ops) (arrivals ops))
    ++ map (fun d => (d, Raise ConnectionClosed))
           (skipn (length (arrivals ops)) (readers ops)) /\
  map fst (skipn (length (read_results (effects c))) (read_results (effects c')))
  = readers ops.
Proof.
  intros Hcons Hin Hwait c'.
  destruct (@queues_reflect_run c ops Hcons Hin Hwait) as (_ & _ & Hw & Hcb).
  destruct (@queue_effects ops c Hcons) as [_ [pairs Hlog]].
  assert (pairs = combine (readers ops) (arrivals ops)) as ->.
  { rewrite Hlog, read_callbacks_app, read_callbacks_of in Hcb.
    now apply app_inv_head in Hcb. }
  assert (read_results (effects c')
          = read_results (effects c)
            ++ map (fun dr => (fst dr, Ok (snd dr)))
                   (combine (readers ops) (arrivals ops))
            ++ map (fun d => (d, Raise ConnectionClosed))
                   (skipn (length (arrivals ops)) (readers ops))) as Hres.
  { unfold c', close.
    cbn [effects set_effects set_waiting_reads emit _waiting_reads].
    rewrite Hlog, Hw, !read_results_app, read_results_callbacks,
      read_results_errbacks.
    cbn [read_results flat_map app]. now rewrite app_nil_r, <- app_assoc. }
  split; [reflexivity |]. split; [exact Hres |].
  rewrite Hres, skipn_exact, map_app, !map_map. cbn [fst].
  change (fun x : nat * bytes => fst x) with (@fst nat bytes).
  rewrite map_fst_combine, map_id. apply firstn_skipn.
Qed.

(** Two reads, then one record, then a third read, then [close]. *)
Lemma close_settles_every_read_witness :
  read_results
    (effects (close (fold_left queue_step
                       [Read 7; Read 8; Arrive Fixture.m0; Read 9]
                       (Connection_init 0 None))))
  = [(7, Ok Fixture.m0); (8, Raise ConnectionClosed); (9, Raise ConnectionClosed)].
Proof.
  destruct (@close_settles_every_read (Connection_init 0 None)
              [Read 7; Read 8; Arrive Fixture.m0; Read 9] eq_refl eq_refl eq_refl)
    as (_ & H & _).
  exact H.
Defined.

Lemma consumer_takes_records (consumer : nat) (later : list bytes) : forall c,
  _consumer c = Some consumer ->
  fold_left recordReceived later c
  = set_effects c (effects c ++ map (ConsumerWrite consumer) later).
Proof.
  induction later as [|r later IH]; intros c Hcons.
  - cbn. rewrite app_nil_r. now destruct c.
  - cbn [fold_left map]. unfold recordReceived at 2. rewrite Hcons.
    rewrite IH by exact Hcons.
    unfold emit, set_effects. cbn. now rewrite <- app_assoc.
Qed.

(** X16.  [connectConsumer] on a connection without a consumer hands the
    consumer every queued record, in order, empties the queue and then
    registers the connection as the consumer's producer.  Every record
    that arrives afterwards goes straight to the consumer, in order, and
    neither the queue nor the waiting reads change.  A second
    [connectConsumer] raises [RuntimeError] and changes nothing;
    [disconnectConsumer] unregisters the consumer, and without a consumer
    it raises [AttributeError]. *)
Theorem consumer_gets_every_record (c : Connection) (consumer : nat)
  (later : list bytes) :
  _consumer c = None ->
  let c2 := fold_left recordReceived later (final (connectConsumer c consumer)) in
  raised (connectConsumer c consumer) = None /\
  effects c2
  = effects c ++ map (ConsumerWrite consumer) (_inbound_records c)
    ++ [ConsumerRegister consumer] ++ map (ConsumerWrite consumer) later /\
  _inbound_records c2 = [] /\ _waiting_reads c2 = _waiting_reads c /\
  (forall other, connectConsumer c2 other = Raised RuntimeError c2) /\
  disconnectConsumer c2
  = Returned tt (set_consumer (emit c2 (ConsumerUnregister consumer)) None) /\
  disconnectConsumer c = Raised AttributeError c.
Proof.
  intros Hcons c2.
  assert (connectConsumer c consumer
          = Returned tt
              (emit (set_effects (set_inbound_records (set_consumer c (Some consumer)) [])
                                 (effects c
                                  ++ map (ConsumerWrite consumer) (_inbound_records c)))
                    (ConsumerRegister consumer))) as Hconnect.
  { unfold connectConsumer. now rewrite Hcons. }
  unfold c2. rewrite Hconnect. cbn [final raised].
  match goal with
  | |- context [fold_left recordReceived later ?x] =>
      rewrite (@consumer_takes_records consumer later x eq_refl)
  end.
  split; [reflexivity |].
  split; [cbn [effects set_effects emit]; now rewrite <- !app_assoc |].
  split; [reflexivity |]. split; [reflexivity |].
  split; [intros other; reflexivity |].
  split; [reflexivity |].
  unfold disconnectConsumer. now rewrite Hcons.
Qed.

(** One record is queued; a consumer is attached; another record
    arrives. *)
Lemma consumer_gets_every_record_witness :
  effects (fold_left recordReceived [Fixture.m1]
             (final (connectConsumer
                       (recordReceived (Connection_init 0 None) Fixture.m0) 5)))
  = [ConsumerWrite 5 Fixture.m0; ConsumerRegister 5; ConsumerWrite 5 Fixture.m1].
Proof.
  destruct (@consumer_gets_every_record
              (recordReceived (Connection_init 0 None) Fixture.m0) 5 [Fixture.m1]
              eq_refl) as (_ & H & _).
  exact H.
Defined.

(** ** The peer's hints *)

Lemma all_text_texts (texts : list string) : all_text (map PyText texts) = Ok texts.
Proof.
  induction texts as [|t texts IH]; [reflexivity |].
  cbn [map all_text]. now rewrite IH.
Qed.

Lemma all_text_bad (hints : list pyobj) :
  (exists h, In h hints /\ forall s, h <> PyText s) ->
  all_text hints = Raise TypeError.
Proof.
  induction hints as [|h hints IH]; intros (bad & Hin & Hbad); [destruct Hin |].
  destruct h as [b | s | z |]; try reflexivity.
  cbn [all_text]. rewrite IH; [reflexivity |].
  destruct Hin as [<- | Hin]; [now destruct (Hbad s) |].
  now exists bad.
Qed.

(** X17.  [add_their_direct_hints] and [add_their_relay_hints] raise
    [TypeError] when some hint is not text.  When every hint is text they
    store the hints as a set: without repeats, and with exactly the given
    hints as members. *)
Theorem their_hints_are_checked (o : Common) (hints : list pyobj) :
  ((exists h, In h hints /\ forall s, h <> PyText s) ->
   add_their_direct_hints o hints = Raise TypeError /\
   add_their_relay_hints o hints = Raise TypeError) /\
  (forall texts, hints = map PyText texts ->
   exists stored,
     NoDup stored /\ (forall h, In h stored <-> In h texts) /\
     add_their_direct_hints o hints = Ok (set_their_direct_hints o stored) /\
     add_their_relay_hints o hints = Ok (set_their_relay_hints o stored)).
Proof.
  split.
  - intros Hbad. unfold add_their_direct_hints, add_their_relay_hints.
    now rewrite (@all_text_bad hints Hbad).
  - intros texts ->. exists (nodup string_dec texts).
    split; [apply NoDup_nodup |].
    split; [intros h; apply nodup_In |].
    unfold add_their_direct_hints, add_their_relay_hints.
    now rewrite all_text_texts.
Qed.

(** ** Hints that name an endpoint *)

Lemma split_on_plain (s : string) :
  contains ":" s = false -> split_on ":" s = [s].
Proof.
  induction s as [|ch s IH]; [reflexivity |].
  cbn [contains split_on]. intros H. apply Bool.orb_false_iff in H as [Hc Hs].
  rewrite Hc, (IH Hs). reflexivity.
Qed.

Lemma split_on_piece (a b : string) :
  contains ":" a = false ->
  split_on ":" (a ++ String ":" b) = a :: split_on ":" b.
Proof.
  induction a as [|ch a IH]; [reflexivity |].
  cbn [contains String.append split_on]. intros H.
  apply Bool.orb_false_iff in H as [Hc Ha].
  rewrite Hc, (IH Ha). reflexivity.
Qed.

Lemma contains_piece (a b : string) : contains ":" (a ++ String ":" b) = true.
Proof.
  induction a as [|ch a IH]; [reflexivity |].
  cbn [String.append contains]. rewrite IH. apply Bool.orb_true_r.
Qed.

Lemma string_app_assoc (a b c : string) :
  ((a ++ b) ++ c)%string = (a ++ (b ++ c))%string.
Proof.
  induction a as [|ch a IH]; [reflexivity |].
  cbn [String.append]. now rewrite IH.
Qed.

(** X18.  A hint of the form "tcp:HOST:PORT", with no colon inside HOST or
    PORT, gives the endpoint for HOST and [int(PORT)]; what [int] raises on
    PORT is raised.  Further pieces after a third colon are ignored. *)
Theorem endpoint_from_tcp_hint (py_int : string -> res Z) (host port : string) :
  contains ":" host = false -> contains ":" port = false ->
  let hint := ("tcp:" ++ host ++ ":" ++ port)%string in
  let answer := match py_int port with
                | Ok n => Ok (Some {| ep_host := host; ep_port := n |})
                | Raise e => Raise e
                end in
  _endpoint_from_hint py_int hint = answer /\
  forall more, _endpoint_from_hint py_int (hint ++ ":" ++ more) = answer.
Proof.
  intros Hhost Hport hint answer.
  assert (forall tail, split_on ":" tail = port :: List.tl (split_on ":" tail) ->
                       _endpoint_from_hint py_int
                         ("tcp" ++ String ":" (host ++ String ":" tail))
                       = answer) as Hparse.
  { intros tail Htail. unfold _endpoint_from_hint.
    rewrite contains_piece. cbn [negb].
    rewrite (@split_on_piece "tcp" _ eq_refl), (@split_on_piece host _ Hhost), Htail.
    cbn [hd nth_error negb]. reflexivity. }
  split.
  - apply (Hparse port). now rewrite split_on_plain.
  - intros more.
    replace (hint ++ ":" ++ more)%string
      with ("tcp" ++ String ":" (host ++ String ":" (port ++ String ":" more)))%string.
    + apply Hparse. now rewrite split_on_piece.
    + unfold hint. cbn [String.append]. do 4 f_equal.
      now rewrite string_app_assoc.
Qed.

Lemma endpoint_from_tcp_hint_witness :
  _endpoint_from_hint Fixture.int "tcp:relay.example:4001"
  = Ok (Some {| ep_host := "relay.example"; ep_port := 4001 |}) /\
  _endpoint_from_hint Fixture.int "tcp:relay.example:4001:priority=2"
  = Ok (Some {| ep_host := "relay.example"; ep_port := 4001 |}).
Proof.
  destruct (@endpoint_from_tcp_hint Fixture.int "relay.example" "4001"
              eq_refl eq_refl) as [H1 H2].
  split; [exact H1 | exact (H2 "priority=2"%string)].
Defined.

(** ** Races: one success, all failures, the deadline *)

Section ArbiterRaces.
Import Arbiter.
Variable V : Type.
Implicit Types (a b : T V) (d : nat) (l : list nat).

Lemma nothing_in l : (forall i, ~ In i l) -> l = [].
Proof.
  destruct l as [|x l]; [reflexivity |].
  intros H. destruct (H x). now left.
Qed.

(** X19.  The contenders are handed to [there_can_be_only_one] when none
    has succeeded yet (some may have failed).  Nothing is decided as long
    as one is waited for; when a waiting contender then succeeds, the
    summary Deferred fires with its value, every other contender that was
    still waiting is cancelled, and nothing is left to wait for. *)
Theorem first_success_wins (cs : list (deferred V)) (order : list nat) d (v : V) :
  NoDup order ->
  (forall i, In i order ->
     i < length cs /\ forall w, nth i cs Waiting <> Called (Success w)) ->
  In d order -> nth d cs Waiting = Waiting ->
  let a := there_can_be_only_one cs order in
  _winner_d a = Waiting /\
  _winner_d (fire a d (Success v)) = Called (Success v) /\
  _remaining (fire a d (Success v)) = [] /\
  (forall d', In d' order -> nth d' cs Waiting = Waiting -> d' <> d ->
     status (fire a d (Success v)) d' = Called (Failure CancelledError)).
Proof.
  intros Hnd Hok Hin Hw a.
  destruct (@arbiter_race V cs order Hnd Hok) as (Hrem & Hrace & _).
  fold a in Hrem, Hrace.
  assert (In d (_remaining a)) as Hd by (apply Hrem; now split).
  assert (racing a) as Hracing.
  { apply Hrace. intros E. rewrite E in Hd. destruct Hd. }
  destruct (@fire_success V a d v Hracing Hd) as (H1 & H2 & _ & H4 & _).
  split; [apply Hracing |]. split; [exact H1 |]. split; [exact H2 |].
  intros d' Hd' Hw' Hne. apply H4; [| exact Hne]. apply Hrem. now split.
Qed.

Lemma fail_all_spec (failures : list (nat * exn)) : forall a,
  racing a -> NoDup (map fst failures) ->
  (forall i, In i (map fst failures) -> In i (_remaining a)) ->
  (forall i, In i (_remaining (fail_all a failures))
             <-> In i (_remaining a) /\ ~ In i (map fst failures)) /\
  (_remaining (fail_all a failures) <> [] -> racing (fail_all a failures)) /\
  (failures <> [] ->
   _first_failure (fail_all a failures)
   = Some (first_recorded a (snd (hd (0, CancelledError) failures))) /\
   (_remaining (fail_all a failures) = [] ->
    _winner_d (fail_all a failures)
    = Called (Failure (first_recorded a (snd (hd (0, CancelledError) failures)))))).
Proof.
  induction failures as [|[d f] rest IH]; intros a Hrace Hnd Hsub.
  - cbn. split; [| split; [auto | congruence]].
    intros i. split; [intros H; split; [exact H | auto] | now intros [H _]].
  - cbn [map fst] in Hnd, Hsub. inversion Hnd as [|? ? Hnotin Hnd']; subst.
    assert (In d (_remaining a)) as Hd by (apply Hsub; now left).
    destruct (@fire_failure V a d f Hrace Hd) as (Hr & Hff & Hmore & Hlast).
    change (fail_all a ((d, f) :: rest))
      with (fail_all (fire a d (Failure f)) rest).
    set (a1 := fire a d (Failure f)) in *.
    cbn [hd snd map fst].
    destruct rest as [|[d2 f2] rest2].
    + cbn [fail_all fold_left map].
      split; [| split; [| intros _; split; [exact Hff |]]].
      * intros i. rewrite Hr. split.
        -- intros Hi. apply in_remove in Hi as [Hi Hne].
           split; [exact Hi |]. intros [<- | []]. now destruct Hne.
        -- intros [Hi Hni]. apply in_in_remove; [| exact Hi].
           intros ->. apply Hni. now left.
      * intros Hne. apply Hmore. now rewrite <- Hr.
      * intros Hempty. apply Hlast. now rewrite <- Hr.
    + assert (forall i, In i (map fst ((d2, f2) :: rest2)) -> In i (_remaining a1))
        as Hsub1.
      { intros i Hi. rewrite Hr. apply in_in_remove.
        - intros ->. now destruct Hnotin.
        - apply Hsub. now right. }
      assert (racing a1) as Hrace1.
      { apply Hmore. intros E.
        pose proof (Hsub1 d2 (or_introl eq_refl)) as Hd2.
        rewrite Hr, E in Hd2. destruct Hd2. }
      destruct (IH a1 Hrace1 Hnd' Hsub1) as (Irem & Irace & Ilast).
      destruct (Ilast ltac:(discriminate)) as [Iff Iw].
      assert (first_recorded a1 (snd (hd (0, CancelledError) ((d2, f2) :: rest2)))
              = first_recorded a f) as Efirst.
      { unfold first_recorded at 1. now rewrite Hff. }
      rewrite Efirst in Iff, Iw.
      split; [| split; [exact Irace | intros _; split; [exact Iff | exact Iw]]].
      intros i. rewrite Irem, Hr. split.
      * intros [Hi Hni]. apply in_remove in Hi as [Hi Hne].
        split; [exact Hi |]. intros [<- | Hin]; [now destruct Hne | now destruct Hni].
      * intros [Hi Hni]. split.
        -- apply in_in_remove; [| exact Hi]. intros ->. apply Hni. now left.
        -- intros Hin. apply Hni. now right.
Qed.

(** X20.  While the race is on, every contender that is waited for fails,
    one after the other.  The summary Deferred stays waiting until the
    last of them has failed, and then fires with a failure: the one
    recorded before if there was one, and otherwise the first of these. *)
Theorem summary_fails_after_last_failure a (failures : list (nat * exn)) :
  racing a -> NoDup (map fst failures) ->
  (forall i, In i (_remaining a) <-> In i (map fst failures)) ->
  failures <> [] ->
  _winner_d (fail_all a failures)
  = Called (Failure (first_recorded a (snd (hd (0, CancelledError) failures)))) /\
  (forall pre post, failures = pre ++ post -> post <> [] ->
     _winner_d (fail_all a pre) = Waiting).
Proof.
  intros Hrace Hnd Hall Hne. split.
  - destruct (@fail_all_spec failures a Hrace Hnd (fun i => proj2 (Hall i)))
      as (Hrem & _ & Hlast).
    destruct (Hlast Hne) as [_ Hw]. apply Hw.
    apply nothing_in. intros i Hi. apply Hrem in Hi as [Hi Hni].
    apply Hni. now apply Hall.
  - intros pre post -> Hpost.
    rewrite map_app in Hnd, Hall.
    destruct (@fail_all_spec pre a Hrace) as (Hrem & Hr & _).
    + now apply NoDup_app_remove_r in Hnd.
    + intros i Hi. apply Hall. apply in_or_app. now left.
    + destruct post as [|[d f] post]; [congruence |].
      assert (In d (_remaining (fail_all a pre))) as Hd.
      { apply Hrem. split.
        - apply Hall. apply in_or_app. right. now left.
        - intros Hin. apply NoDup_remove_2 in Hnd. apply Hnd.
          apply in_or_app. now left. }
      apply Hr. intros E. rewrite E in Hd. destruct Hd.
Qed.

Lemma cancel_waiting a d :
  racing a -> In d (_remaining a) ->
  _remaining (cancel_contender a d) = List.remove Nat.eq_dec d (_remaining a) /\
  _first_failure (cancel_contender a d) = Some (first_recorded a CancelledError) /\
  cancelled (cancel_contender a d) = cancelled a ++ [d] /\
  status (cancel_contender a d) d = Called (Failure CancelledError) /\
  (forall d', d' <> d -> status (cancel_contender a d) d' = status a d') /\
  (List.remove Nat.eq_dec d (_remaining a) <> [] -> racing (cancel_contender a d)) /\
  (List.remove Nat.eq_dec d (_remaining a) = [] ->
   _winner_d (cancel_contender a d)
   = Called (Failure (first_recorded a CancelledError))).
Proof.
  intros (Hnd & Hwait & Hwin & Hfired & Hsummary) Hin.
  destruct (Hwait d Hin) as (Hlt & Hst & Hhook).
  unfold cancel_contender. rewrite Hst.
  set (b := mark_cancelled (mark_called a d (Failure CancelledError)) d).
  replace (hooked b) with (hooked a) by reflexivity.
  rewrite Hhook.
  destruct (on_failure_fields b d CancelledError)
    as (Hc & Hh & Hx & Hr & Hw & Hs & Hff & Hmore & Hlast).
  replace (_remaining b) with (_remaining a) in * by reflexivity.
  replace (_have_winner b) with (_have_winner a) in * by reflexivity.
  replace (_fired b) with (_fired a) in * by reflexivity.
  replace (_winner_d b) with (_winner_d a) in * by reflexivity.
  replace (first_recorded b CancelledError)
    with (first_recorded a CancelledError) in * by reflexivity.
  assert (forall d', status (on_failure b d CancelledError) d'
                     = if Nat.eq_dec d d'
                       then Called (Failure CancelledError)
                       else status a d') as Hst1.
  { intros d'. unfold status. rewrite Hc. unfold b.
    cbn [contenders mark_cancelled mark_called].
    destruct (Nat.eq_dec d d') as [<- | Hne].
    - now apply nth_set_nth_same.
    - now apply nth_set_nth_other. }
  split; [exact Hr |]. split; [exact Hff |]. split; [exact Hx |].
  split; [rewrite Hst1; now destruct (Nat.eq_dec d d) |].
  split.
  { intros d' Hne. rewrite Hst1. destruct (Nat.eq_dec d d'); congruence. }
  split.
  - intros Hne. destruct (Hmore Hne) as [Hf1 Hw1].
    unfold racing. rewrite Hr, Hw, Hf1, Hw1.
    split; [now apply NoDup_remove_any |].
    split; [| auto].
    intros d' Hd'. apply in_remove in Hd' as [Hd' Hne'].
    destruct (Hwait d' Hd') as (Hlt' & Hst' & Hhook').
    rewrite Hst1, Hc, Hh. unfold b.
    cbn [contenders hooked mark_cancelled mark_called].
    rewrite length_set_nth.
    destruct (Nat.eq_dec d d') as [<- | _]; [now destruct Hne' | auto].
  - intros Hempty. destruct (Hlast Hempty Hfired Hsummary) as [_ Hw1].
    rewrite Hw1, Hwin. reflexivity.
Qed.

Lemma cancel_loop l : forall a,
  racing a -> _remaining a = l -> l <> [] ->
  _remaining (fold_left (@cancel_contender V) l a) = [] /\
  cancelled (fold_left (@cancel_contender V) l a) = cancelled a ++ l /\
  (forall d, In d l ->
     status (fold_left (@cancel_contender V) l a) d = Called (Failure CancelledError)) /\
  (forall d, ~ In d l -> status (fold_left (@cancel_contender V) l a) d = status a d) /\
  _winner_d (fold_left (@cancel_contender V) l a)
  = Called (Failure (first_recorded a CancelledError)).
Proof.
  induction l as [|d l IH]; intros a Hrace Hrem Hne; [congruence |].
  cbn [fold_left].
  assert (NoDup (d :: l)) as Hnd by (rewrite <- Hrem; apply Hrace).
  inversion Hnd as [|? ? Hnotin Hnd']; subst.
  destruct (@cancel_waiting a d Hrace) as (Hr & Hff & Hx & Hsd & Hso & Hmore & Hlast).
  { rewrite Hrem. now left. }
  rewrite Hrem, remove_head in * by exact Hnotin.
  set (a1 := cancel_contender a d) in *.
  destruct l as [|d2 l2].
  - cbn [fold_left]. split; [exact Hr |]. split; [exact Hx |].
    split; [intros d' [<- | []]; exact Hsd |].
    split; [| now apply Hlast].
    intros d' Hd'. apply Hso. intros ->. apply Hd'. now left.
  - destruct (IH a1 (Hmore ltac:(discriminate)) Hr ltac:(discriminate))
      as (Ir & Ic & Is & Io & Iw).
    split; [exact Ir |].
    split; [rewrite Ic, Hx; now rewrite <- app_assoc |].
    split.
    { intros d' [<- | Hd']; [| now apply Is].
      rewrite Io by exact Hnotin. exact Hsd. }
    split.
    { intros d' Hd'. rewrite Io by (intros Hin; apply Hd'; now right).
      apply Hso. intros ->. apply Hd'. now left. }
    rewrite Iw. unfold first_recorded at 1. now rewrite Hff.
Qed.

(** X21.  The deadline of [_not_forever] passes while the race is on and
    some contender is waited for: cancelling the summary Deferred cancels
    every contender still waited for, in the order the set gives them, and
    the summary fires with a failure, the first one recorded, which is
    [CancelledError] when no contender had failed before. *)
Theorem deadline_cancels_the_race a :
  racing a -> _remaining a <> [] ->
  _winner_d (timer_expires a) = Called (Failure (first_recorded a CancelledError)) /\
  _remaining (timer_expires a) = [] /\
  cancelled (timer_expires a) = cancelled a ++ _remaining a /\
  (forall d, In d (_remaining a) ->
     status (timer_expires a) d = Called (Failure CancelledError)).
Proof.
  intros Hrace Hne.
  destruct (@cancel_loop (_remaining a) a Hrace eq_refl Hne)
    as (Hr & Hc & Hs & _ & Hw).
  assert (timer_expires a = cancel_remaining a) as ->.
  { unfold timer_expires, cancel.
    replace (_winner_d a) with (@Waiting V) by (symmetry; apply Hrace).
    unfold cancel_remaining. now rewrite Hw. }
  unfold cancel_remaining. auto.
Qed.

End ArbiterRaces.

(** Three contenders, the first of which failed before the race; the last
    one succeeds with 5. *)
Lemma first_success_wins_witness :
  let a := Arbiter.there_can_be_only_one
             [Arbiter.Called (Arbiter.Failure (BadHandshake TimedOut));
              Arbiter.Waiting; Arbiter.Waiting] [0; 1; 2] in
  Arbiter._winner_d (Arbiter.fire a 2 (Arbiter.Success 5))
  = Arbiter.Called (Arbiter.Success 5) /\
  Arbiter.status (Arbiter.fire a 2 (Arbiter.Success 5)) 1
  = Arbiter.Called (Arbiter.Failure CancelledError).
Proof.
  intros a.
  destruct (@first_success_wins nat
              [Arbiter.Called (Arbiter.Failure (BadHandshake TimedOut));
               Arbiter.Waiting; Arbiter.Waiting] [0; 1; 2] 2 5)
    as (_ & Hw & _ & Hc).
  - repeat constructor; cbn; intuition discriminate.
  - intros i [<- | [<- | [<- | []]]]; (split; [cbn; lia | discriminate]).
  - cbn. auto.
  - reflexivity.
  - split; [exact Hw |]. apply Hc; [cbn; auto | reflexivity | discriminate].
Defined.

Lemma racing_two_waiting :
  racing (Arbiter.there_can_be_only_one (V := nat)
            [Arbiter.Waiting; Arbiter.Waiting] [0; 1]).
Proof.
  unfold racing. cbn.
  split; [repeat constructor; cbn; intuition discriminate |].
  split; [| auto].
  intros d [<- | [<- | []]]; cbn; auto.
Qed.

(** Two waiting contenders fail, the second one first. *)
Lemma summary_fails_after_last_failure_witness :
  let a := Arbiter.there_can_be_only_one (V := nat)
             [Arbiter.Waiting; Arbiter.Waiting] [0; 1] in
  Arbiter._winner_d (fail_all a [(1, BadHandshake TimedOut); (0, CancelledError)])
  = Arbiter.Called (Arbiter.Failure (BadHandshake TimedOut)).
Proof.
  intros a.
  destruct (@summary_fails_after_last_failure nat a
              [(1, BadHandshake TimedOut); (0, CancelledError)]
              racing_two_waiting) as [H _].
  - repeat constructor; cbn; intuition discriminate.
  - intros i. cbn. tauto.
  - discriminate.
  - exact H.
Defined.

(** The deadline passes with both contenders waiting. *)
Lemma deadline_cancels_the_race_witness :
  let a := Arbiter.there_can_be_only_one (V := nat)
             [Arbiter.Waiting; Arbiter.Waiting] [0; 1] in
  Arbiter._winner_d (timer_expires a) = Arbiter.Called (Arbiter.Failure CancelledError) /\
  Arbiter.cancelled (timer_expires a) = [0; 1].
Proof.
  intros a.
  destruct (@deadline_cancels_the_race nat a racing_two_waiting ltac:(discriminate))
    as (Hw & _ & Hc & _).
  split; [exact Hw | exact Hc].
Defined.

(** ** A replayed frame *)

Section Replay.
Variable P : Primitives.
Hypothesis box_ok : box_correct P.

(** X22.  A frame that the receiver has taken is not taken twice.  The
    first delivery queues the record; when the same bytes are delivered
    again the nonce they carry is one behind, [dataReceived] raises
    [BadNonce], the connection is hung up, and no record is added. *)
Theorem replayed_frame_is_rejected (s r : Connection) (owner : Common) (n : Z)
  (key m : bytes) :
  sending s key n -> receiving r key n -> (0 <= n < 2 ^ 192)%Z ->
  (Z.of_nat (length m) < 2 ^ 32)%Z ->
  (Z.of_nat (24 + length (crypto_secretbox P key m (big_endian 24 (Z.to_N n))))
   < 2 ^ 32)%Z ->
  let frame := new_bytes s (final (send_record P s (PyBytes m))) in
  let w1 := final (dataReceived P (owner, r) frame) in
  _inbound_records (snd w1) = _inbound_records r ++ [m] /\
  raised (dataReceived P w1 frame) = Some (BadNonce n (n + 1)) /\
  state (snd (final (dataReceived P w1 frame))) = HungUp /\
  _inbound_records (snd (final (dataReceived P w1 frame))) = _inbound_records r ++ [m].
Proof.
  intros [Hsn Hsk] (Hst & Hnext & Hbox & Hbuf & Hcons & Hwait) Hrange Hlen Hsealed.
  set (nonce := big_endian 24 (Z.to_N n)) in *.
  set (encrypted := nonce ++ crypto_secretbox P key m nonce).
  set (len := big_endian 4 (N.of_nat (length encrypted))).
  assert (length nonce = 24) as Hl24 by apply length_big_endian.
  assert (length encrypted = 24 + length (crypto_secretbox P key m nonce)) as Hlenc
      by (unfold encrypted; now rewrite length_app, Hl24).
  assert (send_record P s (PyBytes m)
          = Returned tt (emit (emit (set_send_nonce s (Some (n + 1)%Z))
                                    (TransportWrite len))
                              (TransportWrite encrypted))) as Hsend.
  { apply (@send_record_frame P s n key m Hsn Hsk Hrange Hlen).
    fold nonce. fold encrypted. now rewrite Hlenc. }
  destruct (@one_frame_round_trip P box_ok s r n key m Hsn Hsk Hrange Hlen Hsealed
              Hnext Hbox Hbuf) as (len' & enc' & Hsend' & Hrecv).
  assert (len' = len /\ enc' = encrypted) as [-> ->].
  { rewrite Hsend in Hsend'.
    apply (f_equal (fun o => effects (final o))) in Hsend'.
    cbn [final effects emit] in Hsend'.
    apply app_inj_tail in Hsend' as [Hsend' Henc].
    apply app_inj_tail in Hsend' as [_ Hl].
    split; congruence. }
  intros frame w1.
  assert (frame = len ++ encrypted) as Hframe.
  { unfold frame. rewrite Hsend. cbn [final]. unfold new_bytes.
    rewrite !written_emit.
    replace (written (set_send_nonce s (Some (n + 1)%Z))) with (written s)
      by reflexivity.
    rewrite <- app_assoc. apply skipn_exact. }
  set (r0 := set_next_receive_nonce (set_buf (set_buf r (buf r ++ len ++ encrypted)) [])
                                    (Some (n + 1)%Z)) in *.
  assert (w1 = (owner, recordReceived r0 m)) as Hw1.
  { unfold w1, dataReceived. rewrite Hframe.
    rewrite dataReceived_raw_in_records by exact Hst.
    now rewrite Hrecv. }
  destruct (@recordReceived_queues r0 m Hcons Hwait)
    as (Qin & Qwait & Qcons & Qst & Qbuf & Qnext & Qbox).
  set (c1 := recordReceived r0 m) in *.
  assert (_inbound_records c1 = _inbound_records r ++ [m]) as Hin1 by exact Qin.
  assert (Hex.be_value (firstn NONCE_SIZE encrypted) = n) as Hnv.
  { unfold encrypted, NONCE_SIZE. rewrite <- Hl24, firstn_exact. unfold nonce.
    rewrite be_value_big_endian; [apply Z2N.id; lia |].
    apply N2Z.inj_lt. rewrite N2Z.inj_pow, Z2N.id by lia.
    change (Z.of_N 256 ^ Z.of_N (N.of_nat 24))%Z with (2 ^ 192)%Z. lia. }
  assert (Hex.be_value len = Z.of_nat (length encrypted)) as Hval.
  { unfold len. rewrite be_value_big_endian; [apply nat_N_Z |].
    apply N2Z.inj_lt. rewrite N2Z.inj_pow, nat_N_Z.
    change (Z.of_N 256 ^ Z.of_N (N.of_nat 4))%Z with (2 ^ 32)%Z.
    rewrite Hlenc. exact Hsealed. }
  set (c2 := set_buf c1 (buf c1 ++ frame)).
  assert (_dataReceived P (owner, c1) frame
          = Raised (BadNonce n (n + 1)) (owner, set_buf c2 [])) as Hraw.
  { rewrite dataReceived_raw_in_records by (rewrite Qst; exact Hst).
    fold c2.
    rewrite (@dataReceivedRECORDS_frame P c2 len encrypted []).
    - destruct encrypted as [|b rest] eqn:E; [cbn in Hlenc; lia |].
      destruct (@decrypt_record_nonce P (set_buf c2 []) b rest (n + 1)%Z) as [Hbad _].
      + unfold c2. cbn [next_receive_nonce set_buf]. fold c1. now rewrite Qnext.
      + rewrite Hbad by (rewrite Hnv; lia). now rewrite Hnv.
    - unfold c2. cbn [buf set_buf]. rewrite Qbuf, Hframe.
      change (buf r0) with (@nil byte). now rewrite app_nil_r.
    - apply length_big_endian.
    - exact Hval. }
  split; [now rewrite Hw1 |].
  rewrite Hw1. unfold dataReceived. rewrite Hraw.
  cbn [isinstance_BadHandshake raised final snd].
  split; [reflexivity |]. split; [reflexivity |]. exact Hin1.
Qed.

End Replay.

(** The frame of "hello" is delivered twice to the receiver of the
    fixtures. *)
Lemma replayed_frame_is_rejected_witness :
  let frame := new_bytes (Fixture.negotiated Fixture.sender)
                 (final (send_record Fixture.primitives
                           (Fixture.negotiated Fixture.sender)
                           (PyBytes Fixture.m0))) in
  let w1 := final (dataReceived Fixture.primitives
                     (Fixture.receiver, Fixture.negotiated Fixture.receiver) frame) in
  raised (dataReceived Fixture.primitives w1 frame) = Some (BadNonce 0 1) /\
  _inbound_records (snd (final (dataReceived Fixture.primitives w1 frame)))
  = [Fixture.m0].
Proof.
  intros frame w1.
  destruct (@replayed_frame_is_rejected Fixture.primitives fixture_box_correct
              (Fixture.negotiated Fixture.sender) (Fixture.negotiated Fixture.receiver)
              Fixture.receiver 0 (Fixture.key ++ info_sender_key) Fixture.m0)
    as (_ & Hraise & _ & Hin).
  - split; reflexivity.
  - repeat split.
  - lia.
  - reflexivity.
  - reflexivity.
  - split; [exact Hraise | exact Hin].
Defined.

(** ** Waiting for the transit key *)

Lemma ask_all_pending (ds : list nat) : forall ws called,
  KeyWait.ask_all {| KeyWait.key := None; KeyWait.waiters := Some ws;
                     KeyWait.called := called |} ds
  = {| KeyWait.key := None; KeyWait.waiters := Some (ws ++ ds);
       KeyWait.called := called |}.
Proof.
  induction ds as [|d ds IH]; intros ws called.
  - cbn. now rewrite app_nil_r.
  - unfold KeyWait.ask_all. cbn [fold_left KeyWait._get_transit_key KeyWait.key
                                  KeyWait.waiters KeyWait.called final].
    fold (KeyWait.ask_all {| KeyWait.key := None; KeyWait.waiters := Some (ws ++ [d]);
                             KeyWait.called := called |} ds).
    rewrite IH. now rewrite <- app_assoc.
Qed.

(** X23.  Callers that ask for the transit key before it is set each get a
    pending Deferred; [set_transit_key] then calls every one of them back
    with the key, once each and in the order they asked, and drops the
    list.  After that a caller gets the key at once (if the key is not
    empty).  A second [set_transit_key] raises [AttributeError], the list
    being gone, after it has replaced the key; and after an empty key was
    set, asking for the key raises [AttributeError] too. *)
Theorem key_reaches_every_waiter (ds : list nat) (k : bytes) :
  let asked := KeyWait.ask_all KeyWait.init ds in
  let set := final (KeyWait.set_transit_key asked k) in
  KeyWait.waiters asked = Some ds /\ KeyWait.called asked = [] /\
  KeyWait.set_transit_key asked k
  = Returned tt {| KeyWait.key := Some k; KeyWait.waiters := None;
                   KeyWait.called := map (fun d => (d, k)) ds |} /\
  (k <> [] -> forall d,
     KeyWait._get_transit_key set d = Returned (KeyWait.Succeeded k) set) /\
  (k = [] -> forall d, KeyWait._get_transit_key set d = Raised AttributeError set) /\
  (forall k2,
     KeyWait.set_transit_key set k2
     = Raised AttributeError
              {| KeyWait.key := Some k2; KeyWait.waiters := None;
                 KeyWait.called := map (fun d => (d, k)) ds |}).
Proof.
  intros asked set.
  assert (asked = {| KeyWait.key := None; KeyWait.waiters := Some ds;
                     KeyWait.called := [] |}) as Hasked
      by (unfold asked, KeyWait.init; now rewrite ask_all_pending).
  unfold set. rewrite Hasked.
  cbn [KeyWait.set_transit_key KeyWait.waiters KeyWait.called final app].
  split; [reflexivity |]. split; [reflexivity |]. split; [reflexivity |].
  split; [| split; [| reflexivity]].
  - intros Hne d. destruct k as [|b k]; [congruence | reflexivity].
  - intros -> d. reflexivity.
Qed.

(** ** What a series of records looks like on the wire *)

Section Wire.
Variable P : Primitives.

Lemma send_all_written (key : bytes) (ms : list bytes) : forall s n,
  sending s key n -> (0 <= n)%Z -> (n + Z.of_nat (length ms) <= 2 ^ 192)%Z ->
  (forall m nonce, In m ms ->
     (Z.of_nat (length m) < 2 ^ 32)%Z /\
     (Z.of_nat (24 + length (crypto_secretbox P key m nonce)) < 2 ^ 32)%Z) ->
  written (send_all P s ms) = written s ++ frames P key n ms /\
  sending (send_all P s ms) key (n + Z.of_nat (length ms)).
Proof.
  induction ms as [|m ms IH]; intros s n Hs Hn0 Hn Hfit.
  - cbn. now rewrite app_nil_r, Z.add_0_r.
  - destruct Hs as [Hsn Hsk].
    destruct (Hfit m (big_endian 24 (Z.to_N n)) (or_introl eq_refl)) as [Hlen Hsealed].
    cbn [length] in Hn.
    set (nonce := big_endian 24 (Z.to_N n)) in *.
    set (sealed := crypto_secretbox P key m nonce) in *.
    assert (length (nonce ++ sealed) = 24 + length sealed) as Hlenc.
    { rewrite length_app. unfold nonce. now rewrite length_big_endian. }
    assert (send_record P s (PyBytes m)
            = Returned tt
                (emit (emit (set_send_nonce s (Some (n + 1)%Z))
                            (TransportWrite
                               (big_endian 4 (N.of_nat (length (nonce ++ sealed))))))
                      (TransportWrite (nonce ++ sealed)))) as Hsend.
    { apply (@send_record_frame P s n key m Hsn Hsk); [lia | exact Hlen |].
      fold nonce. fold sealed. now rewrite Hlenc. }
    unfold send_all. cbn [fold_left]. rewrite Hsend. cbn [final].
    match goal with
    | |- context [fold_left _ ms ?x] => set (s1 := x); fold (send_all P s1 ms)
    end.
    destruct (IH s1 (n + 1)%Z) as [Hw Hs1].
    + split; [reflexivity | exact Hsk].
    + lia.
    + lia.
    + intros m' nonce' Hin. apply Hfit. now right.
    + split.
      * rewrite Hw. unfold s1. rewrite !written_emit.
        replace (written (set_send_nonce s (Some (n + 1)%Z))) with (written s)
          by reflexivity.
        cbn [frames]. unfold frame. fold nonce. fold sealed.
        rewrite Hlenc. now rewrite <- !app_assoc.
      * replace (n + Z.of_nat (length (m :: ms)))%Z
          with (n + 1 + Z.of_nat (length ms))%Z by (cbn [length]; lia).
        exact Hs1.
Qed.

(** X24.  What [send_record] writes for a series of records is their
    frames, one after the other and nothing else: each frame is the
    four-byte big-endian length of the rest, the 24-byte big-endian nonce
    and the sealed record, and the nonces go up by one from frame to
    frame, starting with [send_nonce], so no nonce is used twice under the
    key.  Afterwards [send_nonce] is higher by the number of records. *)
Theorem records_on_the_wire (s : Connection) (key : bytes) (n : Z) (ms : list bytes) :
  sending s key n -> (0 <= n)%Z -> (n + Z.of_nat (length ms) <= 2 ^ 192)%Z ->
  (forall m nonce, In m ms ->
     (Z.of_nat (length m) < 2 ^ 32)%Z /\
     (Z.of_nat (24 + length (crypto_secretbox P key m nonce)) < 2 ^ 32)%Z) ->
  new_bytes s (send_all P s ms) = frames P key n ms /\
  send_nonce (send_all P s ms) = Some (n + Z.of_nat (length ms))%Z.
Proof.
  intros Hs Hn0 Hn Hfit.
  destruct (@send_all_written key ms s n Hs Hn0 Hn Hfit) as [Hw [Hnonce _]].
  split; [| exact Hnonce].
  unfold new_bytes. rewrite Hw. apply skipn_exact.
Qed.

End Wire.

(** The sender of the fixtures sends "hello" and "world". *)
Lemma records_on_the_wire_witness :
  new_bytes (Fixture.negotiated Fixture.sender)
            (send_all Fixture.primitives (Fixture.negotiated Fixture.sender)
                      [Fixture.m0; Fixture.m1])
  = frame Fixture.primitives (Fixture.key ++ info_sender_key) 0 Fixture.m0
    ++ frame Fixture.primitives (Fixture.key ++ info_sender_key) 1 Fixture.m1.
Proof.
  destruct (@records_on_the_wire Fixture.primitives (Fixture.negotiated Fixture.sender)
              (Fixture.key ++ info_sender_key) 0 [Fixture.m0; Fixture.m1])
    as [H _].
  - split; reflexivity.
  - lia.
  - cbn. lia.
  - intros m nonce [<- | [<- | []]]; split; reflexivity.
  - rewrite H. cbn [frames]. now rewrite app_nil_r.
Defined.

(** ** A sender has one winner *)

Lemma nth_error_replace_nth (A : Type) (i j : nat) (x : A) (l : list A) :
  nth_error (replace_nth i x l) j
  = if Nat.eqb i j
    then match nth_error l i with Some _ => Some x | None => None end
    else nth_error l j.
Proof.
  revert i j. induction l as [|y l IH]; intros i j.
  - destruct i, j; cbn; try reflexivity.
    + now destruct (Nat.eqb i j).
  - destruct i as [|i], j as [|j]; cbn [replace_nth nth_error Nat.eqb];
      try reflexivity.
    apply IH.
Qed.

Lemma deliverRecords_same (c : Connection) :
  c_id (_deliverRecords c) = c_id c /\ state (_deliverRecords c) = state c.
Proof.
  unfold _deliverRecords.
  destruct (deliver_loop (_inbound_records c) (_waiting_reads c) (effects c))
    as [[inbound waiting] log].
  now split.
Qed.

Lemma recordReceived_same (c : Connection) (record : bytes) :
  c_id (recordReceived c record) = c_id c /\
  state (recordReceived c record) = state c.
Proof.
  unfold recordReceived. destruct (_consumer c); [now split |].
  apply (deliverRecords_same
           (set_inbound_records c (_inbound_records c ++ [record]))).
Qed.

Section OneWinner.
Variable P : Primitives.

Lemma negotiationSuccessful_same (o : Common) (c : Connection) :
  match _negotiationSuccessful P o c with
  | Returned _ c' => c_id c' = c_id c /\ state c' = Records
  | Raised _ c' => c_id c' = c_id c
  end.
Proof.
  unfold _negotiationSuccessful.
  destruct (_sender_record_key P o); [| reflexivity].
  destruct (_receiver_record_key P o); [| reflexivity].
  cbn [_negotiation_d set_next_receive_nonce set_receive_box set_send_nonce
         set_send_box emit set_state].
  destruct (_negotiation_d c); [now split | reflexivity].
Qed.

Lemma dataReceivedRECORDS_same (c : Connection) :
  match dataReceivedRECORDS P c with
  | Returned _ c' => c_id c' = c_id c /\ state c' = state c
  | Raised _ c' => c_id c' = c_id c
  end.
Proof.
  unfold dataReceivedRECORDS.
  destruct (Nat.ltb (length (buf c)) 4); [now split |].
  destruct (Hex.int_base16 (Hex.hexlify (firstn 4 (buf c)))) as [len | e];
    [| reflexivity].
  destruct (Z.of_nat (length (buf c)) <? 4 + len)%Z; [now split |].
  set (c1 := set_buf c (skipn (4 + Z.to_nat len) (buf c))).
  set (encrypted := firstn (Z.to_nat len) (skipn 4 (buf c))).
  assert (match _decrypt_record P c1 encrypted with
          | Returned _ c' => c_id c' = c_id c /\ state c' = state c
          | Raised _ c' => c_id c' = c_id c
          end) as H.
  { unfold _decrypt_record.
    destruct (Hex.int_base16 (Hex.hexlify (firstn NONCE_SIZE encrypted)));
      [| reflexivity].
    destruct (next_receive_nonce c1); [| reflexivity].
    destruct (negb _); [reflexivity |].
    cbn [receive_box set_next_receive_nonce].
    destruct (receive_box c1); [| reflexivity].
    destruct (SecretBox_decrypt P b encrypted); [now split | reflexivity]. }
  destruct (_decrypt_record P c1 encrypted) as [record c2 | e c2]; [| exact H].
  destruct (recordReceived_same c2 record) as [Hid Hst].
  destruct H as [Hid2 Hst2]. split; congruence.
Qed.

Lemma kc_expecting (expected : bytes) (k : block) :
  keeps_choice k -> keeps_choice (expecting expected k).
Proof.
  intros Hk o c Hc. unfold expecting, _check_and_remove.
  destruct (negb (startswith (buf c) (firstn (length (buf c)) expected)));
    [split; [apply Hc | reflexivity] |].
  destruct (Nat.ltb (length (buf c)) (length expected));
    [split; [exact Hc | reflexivity] |].
  exact (Hk o (set_buf c (skipn (length expected) (buf c))) Hc).
Qed.

Lemma chosen_undecided (o : Common) (c : Connection) (st : conn_state) :
  is_sender o = true -> st <> WaitForDecision -> st <> Go -> st <> Records ->
  chosen_ok o (set_state c st).
Proof.
  intros Hrole Hw Hg Hr. split; [exact Hrole |]. split; [exact Hw |].
  intros [H | H]; cbn [state set_state] in H; congruence.
Qed.

Lemma kc_relay (k : block) : keeps_choice k -> keeps_choice (block_relay k).
Proof.
  intros Hk o c Hc. unfold block_relay.
  destruct (state c) eqn:E; try (now apply Hk).
  apply kc_expecting; [| exact Hc].
  intros o' c' Hc'.
  apply (Hk o' (set_state c' Start)).
  apply chosen_undecided; [apply Hc' | discriminate | discriminate | discriminate].
Qed.

Lemma kc_start (k : block) : keeps_choice k -> keeps_choice (block_start P k).
Proof.
  intros Hk o c Hc. unfold block_start.
  destruct (state c) eqn:E; try (now apply Hk).
  destruct (_send_this P o) as [hs | e]; [| split; [apply Hc | reflexivity]].
  apply (Hk o (set_state (emit c (TransportWrite hs)) Handshake)).
  apply chosen_undecided; [apply Hc | discriminate | discriminate | discriminate].
Qed.

Lemma kc_handshake (k : block) : keeps_choice k -> keeps_choice (block_handshake P k).
Proof.
  intros Hk o c Hc. unfold block_handshake.
  destruct (state c) eqn:E; try (now apply Hk).
  destruct (_expect_this P o) as [expected | e]; [| split; [apply Hc | reflexivity]].
  apply kc_expecting; [| exact Hc].
  intros o' c' Hc'.
  destruct (description c') as [d |]; [| split; [apply Hc' | reflexivity]].
  unfold connection_ready. rewrite (proj1 Hc'). cbn [negb].
  destruct (_winner o') eqn:Ew.
  - apply (Hk o' (set_state c' Nevermind)).
    apply chosen_undecided; [apply Hc' | discriminate | discriminate | discriminate].
  - apply (Hk (set_winner o' (c_id c') (Some d)) (set_state c' Go)).
    split; [apply Hc' |]. split; [discriminate | reflexivity].
Qed.

Lemma kc_wait_for_decision (k : block) :
  keeps_choice k -> keeps_choice (block_wait_for_decision P k).
Proof.
  intros Hk o c Hc. unfold block_wait_for_decision.
  destruct (state c) eqn:E; try (now apply Hk).
  destruct Hc as (_ & Hw & _). now destruct Hw.
Qed.

Lemma kc_go (k : block) : keeps_choice k -> keeps_choice (block_go P k).
Proof.
  intros Hk o c Hc. unfold block_go.
  destruct (state c) eqn:E; try (now apply Hk).
  destruct Hc as (Hrole & _ & Hwin).
  pose proof (@negotiationSuccessful_same o (emit c (TransportWrite b_go))) as H.
  destruct (_negotiationSuccessful P o (emit c (TransportWrite b_go)))
    as [a c' | e c']; [| split; [exact Hrole | exact H]].
  destruct H as [Hid Hst].
  assert (chosen_ok o c') as Hc'.
  { split; [exact Hrole |]. split; [rewrite Hst; discriminate |].
    intros _. rewrite Hid. apply Hwin. now left. }
  pose proof (Hk o c' Hc') as H.
  destruct (k (o, c')) as [a' w | e w]; rewrite Hid in H; exact H.
Qed.

Lemma kc_nevermind (k : block) : keeps_choice k -> keeps_choice (block_nevermind k).
Proof.
  intros Hk o c Hc. unfold block_nevermind.
  destruct (state c) eqn:E; try (now apply Hk).
  split; [apply Hc | reflexivity].
Qed.

Lemma kc_records (k : block) : keeps_choice k -> keeps_choice (block_records P k).
Proof.
  intros Hk o c Hc. unfold block_records.
  destruct (state c) eqn:E; try (now apply Hk).
  pose proof (dataReceivedRECORDS_same c) as H.
  destruct Hc as (Hrole & Hw & Hwin).
  destruct (dataReceivedRECORDS P c) as [a c' | e c']; cbn [lift_conn fst snd].
  - destruct H as [Hid Hst]. split; [| exact Hid].
    split; [exact Hrole |]. rewrite Hst, Hid, E.
    split; [discriminate | exact (fun _ => Hwin (or_intror E))].
  - split; [exact Hrole | exact H].
Qed.

Lemma kc_exception : keeps_choice block_exception.
Proof.
  intros o c Hc. unfold block_exception.
  destruct (state c) eqn:E; cbn [fst snd];
    first [split; [apply Hc | reflexivity]
          | split; [| reflexivity]; destruct Hc as (Hrole & Hw & Hwin);
            split; [exact Hrole |]; rewrite E; split; [discriminate | exact (fun H => Hwin H)]].
Qed.

Lemma chosen_hung_up (o : Common) (c : Connection) (e : exn) :
  is_sender o = true -> chosen_ok o (hung_up c e).
Proof.
  intros Hrole.
  apply (@chosen_undecided o (emit (set_error (emit c (SetTimeout None)) (Some e))
                                   LoseConnection) HungUp);
    [exact Hrole | discriminate | discriminate | discriminate].
Qed.

Lemma dataReceived_choice (o : Common) (c : Connection) (data : bytes) :
  chosen_ok o c ->
  chosen_ok (fst (final (dataReceived P (o, c) data)))
            (snd (final (dataReceived P (o, c) data))) /\
  c_id (snd (final (dataReceived P (o, c) data))) = c_id c.
Proof.
  intros Hc. unfold dataReceived.
  set (c1 := set_buf c (buf c ++ data)).
  assert (chosen_ok o c1) as Hc1 by exact Hc.
  assert (match _dataReceived P (o, c) data with
          | Returned _ w => chosen_ok (fst w) (snd w) /\ c_id (snd w) = c_id c
          | Raised _ w => is_sender (fst w) = true /\ c_id (snd w) = c_id c
          end) as H.
  { unfold _dataReceived. fold c1.
    pose proof (kc_relay (kc_start (kc_handshake (kc_wait_for_decision
                  (kc_go (kc_nevermind (kc_records kc_exception)))))) Hc1)
      as Hblocks.
    destruct (state c1); first [exact Hblocks | split; [apply Hc | reflexivity]]. }
  destruct (_dataReceived P (o, c) data) as [a w | e [o' c']]; [exact H |].
  cbn [fst snd] in H. destruct H as [Hrole Hid].
  destruct (isinstance_BadHandshake e); cbn [final fst snd];
    (split; [now apply chosen_hung_up | exact Hid]).
Qed.

Lemma startNegotiation_unfold (o : Common) (c : Connection) (descr : string) :
  startNegotiation P (o, c) descr = dataReceived P (o, negotiation_start c descr) [].
Proof. reflexivity. Qed.

Lemma chosen_start (o : Common) (c : Connection) (descr : string) :
  is_sender o = true -> chosen_ok o (negotiation_start c descr).
Proof.
  intros Hrole. unfold negotiation_start.
  destruct (relay_handshake (set_description c (Some descr)));
    (apply chosen_undecided; [exact Hrole | discriminate | discriminate | discriminate]).
Qed.

Lemma negotiation_start_id (c : Connection) (descr : string) :
  c_id (negotiation_start c descr) = c_id c.
Proof.
  unfold negotiation_start.
  now destruct (relay_handshake (set_description c (Some descr))).
Qed.

(** The calls that do not go through [dataReceived] leave the state of the
    connection as it is or hang it up. *)
Lemma on_conn_ok (s : system) (i : nat) (f : Connection -> Connection) :
  (forall c, c_id (f c) = c_id c /\ (state (f c) = state c \/ state (f c) = HungUp)) ->
  sys_ok s -> sys_ok (on_conn s i f).
Proof.
  intros Hf [Hrole Hall]. unfold on_conn.
  destruct (nth_error (sys_conns s) i) as [c |] eqn:E; [| now split].
  split; [exact Hrole |]. cbn [sys_owner sys_conns].
  intros j cj. rewrite nth_error_replace_nth, E.
  destruct (Nat.eqb_spec i j) as [<- | Hne]; [| apply Hall].
  intros [= <-]. destruct (Hall i c E) as (Hid & Hw & Hwin).
  destruct (Hf c) as [Hfid [Hst | Hst]]; rewrite Hfid, Hst.
  - now repeat split.
  - repeat split; [exact Hid | discriminate | intros [H | H]; discriminate H].
Qed.

Lemma on_world_ok (s : system) (i : nat) (prepare : Connection -> Connection)
  (data : bytes) :
  (forall o c, is_sender o = true ->
     chosen_ok o (prepare c) \/ prepare c = c) ->
  (forall c, c_id (prepare c) = c_id c) ->
  sys_ok s ->
  sys_ok (on_world s i (fun w => dataReceived P (fst w, prepare (snd w)) data)).
Proof.
  intros Hprep Hpid [Hrole Hall]. unfold on_world.
  destruct (nth_error (sys_conns s) i) as [c |] eqn:E; [| now split].
  cbn [fst snd].
  destruct (Hall i c E) as (Hid & Hw & Hwin).
  assert (chosen_ok (sys_owner s) (prepare c)) as Hc.
  { destruct (Hprep (sys_owner s) c Hrole) as [H | ->]; [exact H |].
    split; [exact Hrole |]. split; [exact Hw |]. now rewrite Hid. }
  destruct (@dataReceived_choice (sys_owner s) (prepare c) data Hc)
    as [(Hrole' & Hw' & Hwin') Hid'].
  pose proof (@dataReceived_keeps_winner P (sys_owner s) (prepare c) data) as Hkeep.
  destruct (final (dataReceived P (sys_owner s, prepare c) data)) as [o' c'].
  cbn [fst snd] in *.
  split; [exact Hrole' |]. cbn [sys_owner sys_conns].
  intros j cj. rewrite nth_error_replace_nth, E.
  destruct (Nat.eqb_spec i j) as [<- | Hne].
  - intros [= <-]. rewrite Hid', Hpid, Hid in *. now repeat split.
  - intros Ej. destruct (Hall j cj Ej) as (Hidj & Hwj & Hwinj).
    split; [exact Hidj |]. split; [exact Hwj |].
    intros Hst. pose proof (Hwinj Hst) as Hwon.
    rewrite Hkeep by (rewrite Hwon; discriminate). exact Hwon.
Qed.

Lemma step_ok (s : system) (ev : event) : sys_ok s -> sys_ok (step P s ev).
Proof.
  intros Hs. destruct ev; cbn [step].
  - exact Hs.
  - exact Hs.
  - unfold add_their_direct_hints. now destruct (all_text hints).
  - unfold add_their_relay_hints. now destruct (all_text hints).
  - destruct Hs as [Hrole Hall]. split; [exact Hrole |].
    cbn [sys_owner sys_conns]. intros i c Hi.
    destruct (Nat.lt_ge_cases i (length (sys_conns s))) as [Hlt | Hge].
    + rewrite nth_error_app1 in Hi by exact Hlt. now apply Hall.
    + rewrite nth_error_app2 in Hi by exact Hge.
      destruct (i - length (sys_conns s)) as [|x] eqn:Ex;
        [| destruct x; discriminate Hi].
      cbn in Hi. injection Hi as <-. cbn [c_id state connectionMade emit Connection_init].
      repeat split; [lia | discriminate | intros [H | H]; discriminate H].
  - apply (@on_world_ok s i (fun c => negotiation_start c descr) []); [| | exact Hs].
    + intros o c Hrole. left. now apply chosen_start.
    + intros c. apply negotiation_start_id.
  - apply (@on_world_ok s i (fun c => c) data); [| | exact Hs].
    + intros o c Hrole. now right.
    + reflexivity.
  - apply on_conn_ok; [| exact Hs]. intros c. unfold send_record.
    destruct record as [record | | |]; try (split; [reflexivity | now left]).
    destruct (send_nonce c); [| split; [reflexivity | now left]].
    destruct (negb _); [split; [reflexivity | now left] |].
    destruct (negb _); [split; [reflexivity | now left] |].
    destruct (Hex.unhexlify _); [| split; [reflexivity | now left]].
    cbn [send_box set_send_nonce].
    destruct (send_box c); [| split; [reflexivity | now left]].
    destruct (SecretBox_encrypt P b record a); [| split; [reflexivity | now left]].
    destruct (Hex.unhexlify _); split; try reflexivity; now left.
  - apply on_conn_ok; [| exact Hs]. intros c. unfold receive_record.
    destruct (deliverRecords_same (set_waiting_reads c (_waiting_reads c ++ [d])))
      as [Hid Hst].
    split; [exact Hid | left; exact Hst].
  - apply on_conn_ok; [| exact Hs]. intros c. unfold connectConsumer.
    destruct (_consumer c); split; try reflexivity; now left.
  - apply on_conn_ok; [| exact Hs]. intros c. split; [reflexivity | now right].
  - apply on_conn_ok; [| exact Hs]. intros c. split; [reflexivity | now left].
  - apply on_conn_ok; [| exact Hs]. intros c. unfold connectionLost.
    destruct (_negotiation_d (emit c (SetTimeout None)));
      split; try reflexivity; now left.
  - apply on_conn_ok; [| exact Hs]. intros c. split; [reflexivity | now left].
Qed.

Lemma run_events_ok (evs : list event) : forall s,
  sys_ok s -> sys_ok (run_events P s evs).
Proof.
  induction evs as [|ev evs IH]; intros s Hs; [exact Hs |].
  cbn [run_events fold_left]. apply IH. now apply step_ok.
Qed.

(** X25.  A sender ends up with at most one connection in state "records":
    whatever calls are made, on however many connections, a connection of
    a sender that is in state "records" is the owner's winner, so two
    connections that are both in state "records" are the same
    connection. *)
Theorem sender_has_one_winner (owner : Common) (evs : list event) :
  is_sender owner = true ->
  forall i j ci cj,
    nth_error (sys_conns (run_events P (boot owner) evs)) i = Some ci ->
    nth_error (sys_conns (run_events P (boot owner) evs)) j = Some cj ->
    state ci = Records -> state cj = Records ->
    i = j /\ _winner (sys_owner (run_events P (boot owner) evs)) = Some i.
Proof.
  intros Hrole i j ci cj Hi Hj Hsi Hsj.
  assert (sys_ok (boot owner)) as Hboot.
  { split; [exact Hrole |]. intros k c Hk. destruct k; discriminate Hk. }
  destruct (@run_events_ok evs (boot owner) Hboot) as [_ Hall].
  destruct (Hall i ci Hi) as (_ & _ & Hwi).
  destruct (Hall j cj Hj) as (_ & _ & Hwj).
  pose proof (Hwi (or_intror Hsi)) as Wi.
  pose proof (Hwj (or_intror Hsj)) as Wj.
  split; [congruence | exact Wi].
Qed.

End OneWinner.

(** Two connections of the sender of the fixtures both get the receiver's
    handshake: the first goes on to "records", the second is hung up. *)
Lemma sender_has_one_winner_witness :
  let evs := [EvBuildProtocol None; EvBuildProtocol None;
              EvStartNegotiation 0 "->a"; EvStartNegotiation 1 "->b";
              EvDataReceived 0 (build_receiver_handshake Fixture.primitives Fixture.key);
              EvDataReceived 1 (build_receiver_handshake Fixture.primitives Fixture.key)] in
  let s := run_events Fixture.primitives (boot Fixture.sender) evs in
  map state (sys_conns s) = [Records; HungUp] /\ _winner (sys_owner s) = Some 0.
Proof.
  intros evs s. split; [reflexivity |].
  pose (c0 := nth 0 (sys_conns s) (Connection_init 0 None)).
  assert (nth_error (sys_conns s) 0 = Some c0) as Hc0 by (vm_compute; reflexivity).
  assert (state c0 = Records) as Hst by (vm_compute; reflexivity).
  assert (is_sender Fixture.sender = true) as Hrole by reflexivity.
  destruct (@sender_has_one_winner Fixture.primitives Fixture.sender evs Hrole
              0 0 c0 c0 Hc0 Hc0 Hst Hst) as [_ H].
  exact H.
Defined.

(** ** One record for each call *)

Lemma skipn_next (A : Type) (k : nat) (l rest : list A) (x : A) :
  skipn k l = x :: rest ->
  skipn (S k) l = rest /\ firstn (S k) l = firstn k l ++ [x] /\ k < length l.
Proof.
  revert l. induction k as [|k IH]; intros l H.
  - cbn in H. subst l. cbn. repeat split. lia.
  - destruct l as [|y l]; [discriminate H |].
    cbn [skipn] in H. destruct (IH l H) as (Hs & Hf & Hlt).
    split; [exact Hs |]. split; [| cbn [length]; lia].
    change (firstn (S (S k)) (y :: l)) with (y :: firstn (S k) l).
    now rewrite Hf.
Qed.

Section PerCall.
Variable P : Primitives.
Hypothesis box_ok : box_correct P.

(** A whole frame at the front of the buffer, with the nonce the receiver
    expects and sealed under its key: the record is handed on, the nonce
    goes up by one and the rest of the buffer stays. *)
Lemma frame_taken (c : Connection) (key : bytes) (n : Z) (m surplus : bytes) :
  next_receive_nonce c = Some n -> receive_box c = Some key ->
  (0 <= n < 2 ^ 192)%Z ->
  (Z.of_nat (24 + length (crypto_secretbox P key m (big_endian 24 (Z.to_N n))))
   < 2 ^ 32)%Z ->
  buf c = frame P key n m ++ surplus ->
  dataReceivedRECORDS P c
  = Returned tt
      (recordReceived (set_next_receive_nonce (set_buf c surplus) (Some (n + 1)%Z)) m).
Proof.
  intros Hnext Hkey Hrange Hsealed Hbuf. unfold frame in Hbuf.
  set (nonce := big_endian 24 (Z.to_N n)) in *.
  set (sealed := crypto_secretbox P key m nonce) in *.
  assert (length nonce = 24) as Hl24 by apply length_big_endian.
  set (encrypted := nonce ++ sealed).
  assert (length encrypted = 24 + length sealed) as Hlenc
      by (unfold encrypted; now rewrite length_app, Hl24).
  set (len := big_endian 4 (N.of_nat (24 + length sealed))) in *.
  assert (Hex.be_value nonce = n) as Hnv.
  { unfold nonce. rewrite be_value_big_endian; [apply Z2N.id; lia |].
    apply N2Z.inj_lt. rewrite N2Z.inj_pow, Z2N.id by lia.
    change (Z.of_N 256 ^ Z.of_N (N.of_nat 24))%Z with (2 ^ 192)%Z. lia. }
  assert (Hex.be_value len = Z.of_nat (length encrypted)) as Hval.
  { unfold len. rewrite be_value_big_endian; [rewrite Hlenc; apply nat_N_Z |].
    apply N2Z.inj_lt. rewrite N2Z.inj_pow, nat_N_Z.
    change (Z.of_N 256 ^ Z.of_N (N.of_nat 4))%Z with (2 ^ 32)%Z.
    exact Hsealed. }
  assert (firstn NONCE_SIZE encrypted = nonce) as Hfirst
      by (unfold NONCE_SIZE, encrypted; rewrite <- Hl24; apply firstn_exact).
  assert (skipn NONCE_SIZE encrypted = sealed) as Hskip
      by (unfold NONCE_SIZE, encrypted; rewrite <- Hl24; apply skipn_exact).
  rewrite (@dataReceivedRECORDS_frame P c len encrypted surplus).
  - assert (exists e0 etail, encrypted = e0 :: etail) as (e0 & etail & Eenc).
    { destruct encrypted as [|e0 etail]; [discriminate Hlenc | eauto]. }
    pose proof (@decrypt_record_nonce P (set_buf c surplus) e0 etail n Hnext)
      as [_ Hmatch].
    rewrite <- Eenc, Hfirst in Hmatch.
    rewrite (Hmatch Hnv key Hkey).
    unfold SecretBox_decrypt. rewrite Hfirst, Hskip, Hl24.
    cbn [Nat.eqb NONCE_SIZE].
    unfold sealed. rewrite box_ok. reflexivity.
  - rewrite Hbuf. unfold encrypted. now rewrite <- !app_assoc.
  - apply length_big_endian.
  - exact Hval.
Qed.

(** X26.  The frames of several records lie in the receiver's buffer after
    one call of [dataReceived].  That call hands on the first record only,
    and every later call, also one that brings no bytes, hands on exactly
    one more, in order, checking the nonces as it goes; when all are handed
    on the buffer is empty and further calls change nothing. *)
Theorem one_record_per_call (r : Connection) (owner : Common) (key : bytes) (n : Z)
  (ms : list bytes) (j : nat) :
  receiving r key n -> (0 <= n)%Z -> (n + Z.of_nat (length ms) <= 2 ^ 192)%Z ->
  (forall m nonce, In m ms ->
     (Z.of_nat (24 + length (crypto_secretbox P key m nonce)) < 2 ^ 32)%Z) ->
  let w := feed P (owner, r) (frames P key n ms :: repeat [] j) in
  fst w = owner /\
  _inbound_records (snd w) = _inbound_records r ++ firstn (S j) ms /\
  buf (snd w) = frames P key (n + Z.of_nat (S j)) (skipn (S j) ms) /\
  next_receive_nonce (snd w) = Some (n + Z.of_nat (Nat.min (S j) (length ms)))%Z.
Proof.
  intros (Hst & Hnext & Hbox & Hbuf & Hcons & Hwait) Hn0 Hn Hfit.
  set (good c k :=
         state c = Records /\ next_receive_nonce c = Some (n + Z.of_nat k)%Z /\
         receive_box c = Some key /\ _consumer c = None /\ _waiting_reads c = [] /\
         buf c = frames P key (n + Z.of_nat k) (skipn k ms) /\
         _inbound_records c = _inbound_records r ++ firstn k ms /\
         k <= length ms).
  assert (forall c k, good c k ->
            dataReceivedRECORDS P c
            = Returned tt (snd (final (lift_conn owner (dataReceivedRECORDS P c)))) /\
            good (snd (final (lift_conn owner (dataReceivedRECORDS P c))))
                 (Nat.min (S k) (length ms))) as Hstep.
  { intros c k (Gst & Gnext & Gbox & Gcons & Gwait & Gbuf & Gin & Gk).
    destruct (skipn k ms) as [|m rest] eqn:E.
    - assert (k = length ms) as Ek.
      { apply (f_equal (@length bytes)) in E. rewrite length_skipn in E.
        cbn [length] in E. lia. }
      cbn [frames] in Gbuf.
      rewrite (@records_nothing_buffered P c Gbuf). cbn [lift_conn final snd].
      split; [reflexivity |].
      replace (Nat.min (S k) (length ms)) with k by lia.
      unfold good. rewrite E. now repeat split.
    - destruct (@skipn_next _ k ms rest m E) as (Es & Ef & Hlt).
      cbn [frames] in Gbuf.
      assert (In m ms) as Hin.
      { rewrite <- (firstn_skipn k ms), E. apply in_or_app. right. now left. }
      rewrite (@frame_taken c key (n + Z.of_nat k) m _ Gnext Gbox ltac:(lia)
                 (Hfit m _ Hin) Gbuf).
      cbn [lift_conn final snd]. split; [reflexivity |].
      replace (Nat.min (S k) (length ms)) with (S k) by lia.
      set (c1 := set_next_receive_nonce
                   (set_buf c (frames P key (n + Z.of_nat k + 1) rest))
                   (Some (n + Z.of_nat k + 1)%Z)).
      destruct (@recordReceived_queues c1 m Gcons Gwait)
        as (Qin & Qwait & Qcons & Qst & Qbuf & Qnext & Qbox).
      unfold good. rewrite Qin, Qwait, Qcons, Qst, Qbuf, Qnext, Qbox.
      unfold c1. cbn [state next_receive_nonce receive_box buf _inbound_records
                        set_next_receive_nonce set_buf].
      rewrite Es, Ef, Gin, <- app_assoc.
      replace (n + Z.of_nat (S k))%Z with (n + Z.of_nat k + 1)%Z by lia.
      repeat split; auto; lia. }
  assert (forall i, fst (feed P (owner, r) (frames P key n ms :: repeat [] i)) = owner /\
                    good (snd (feed P (owner, r) (frames P key n ms :: repeat [] i)))
                         (Nat.min (S i) (length ms))) as Hall.
  { induction i as [|i IH].
    - cbn [repeat feed fold_left]. unfold dataReceived.
      rewrite dataReceived_raw_in_records by exact Hst.
      set (c0 := set_buf r (buf r ++ frames P key n ms)).
      assert (good c0 0) as G0.
      { unfold good, c0. cbn [state next_receive_nonce receive_box _consumer
                                _waiting_reads buf _inbound_records set_buf skipn firstn].
        rewrite Hbuf, app_nil_r, Z.add_0_r. cbn [app]. repeat split; auto. lia. }
      destruct (Hstep c0 0 G0) as [Hret Hgood].
      destruct (dataReceivedRECORDS P c0) as [a c' | e c']; [| discriminate Hret].
      cbn [lift_conn final fst snd] in *. now split.
    - change (repeat [] (S i)) with (@nil byte :: repeat [] i).
      rewrite repeat_cons, app_comm_cons. unfold feed.
      rewrite fold_left_app.
      match goal with
      | |- context [fold_left ?f [[]] ?x] => set (wi := x)
      end.
      change (fst wi = owner /\ good (snd wi) (Nat.min (S i) (length ms))) in IH.
      clearbody wi. destruct wi as [o c]. destruct IH as [Ho Hg].
      cbn [fold_left fst snd] in Ho, Hg |- *. subst o.
      unfold dataReceived.
      rewrite dataReceived_raw_in_records by apply Hg.
      rewrite app_nil_r, (@set_buf_same c (buf c) eq_refl).
      destruct (Hstep c _ Hg) as [Hret Hgood].
      destruct (dataReceivedRECORDS P c) as [a c' | e c']; [| discriminate Hret].
      cbn [lift_conn final fst snd] in *. split; [reflexivity |].
      replace (Nat.min (S (S i)) (length ms))
        with (Nat.min (S (Nat.min (S i) (length ms))) (length ms)) by lia.
      exact Hgood. }
  intros w. destruct (Hall j) as [Ho (_ & Gnext & _ & _ & _ & Gbuf & Gin & _)].
  fold w in Ho, Gnext, Gbuf, Gin.
  split; [exact Ho |]. split; [| split; [| exact Gnext]].
  - rewrite Gin. f_equal.
    destruct (Nat.le_gt_cases (S j) (length ms)) as [Hle | Hgt].
    + now replace (Nat.min (S j) (length ms)) with (S j) by lia.
    + replace (Nat.min (S j) (length ms)) with (length ms) by lia.
      rewrite firstn_all. symmetry. apply firstn_all2. lia.
  - rewrite Gbuf.
    destruct (Nat.le_gt_cases (S j) (length ms)) as [Hle | Hgt].
    + now replace (Nat.min (S j) (length ms)) with (S j) by lia.
    + replace (Nat.min (S j) (length ms)) with (length ms) by lia.
      rewrite skipn_all, (@skipn_all2 _ (S j) ms) by lia. reflexivity.
Qed.

End PerCall.

(** Everything the sender of the fixtures wrote for "hello" and "world"
    reaches the receiver in one call; a second call brings nothing. *)
Lemma one_record_per_call_witness :
  let wire := frames Fixture.primitives (Fixture.key ++ info_sender_key) 0
                     [Fixture.m0; Fixture.m1] in
  let w := (Fixture.receiver, Fixture.negotiated Fixture.receiver) in
  _inbound_records (snd (feed Fixture.primitives w [wire])) = [Fixture.m0] /\
  _inbound_records (snd (feed Fixture.primitives w [wire; []]))
  = [Fixture.m0; Fixture.m1].
Proof.
  intros wire w.
  assert (receiving (Fixture.negotiated Fixture.receiver)
                    (Fixture.key ++ info_sender_key) 0) as Hr by (repeat split).
  assert (forall m nonce, In m [Fixture.m0; Fixture.m1] ->
            (Z.of_nat (24 + length (crypto_secretbox Fixture.primitives
                                      (Fixture.key ++ info_sender_key) m nonce))
             < 2 ^ 32)%Z) as Hfit
      by (intros m nonce [<- | [<- | []]]; reflexivity).
  destruct (@one_record_per_call Fixture.primitives fixture_box_correct
              (Fixture.negotiated Fixture.receiver) Fixture.receiver
              (Fixture.key ++ info_sender_key) 0 [Fixture.m0; Fixture.m1] 0
              Hr ltac:(lia) ltac:(cbn; lia) Hfit) as (_ & H0 & _).
  destruct (@one_record_per_call Fixture.primitives fixture_box_correct
              (Fixture.negotiated Fixture.receiver) Fixture.receiver
              (Fixture.key ++ info_sender_key) 0 [Fixture.m0; Fixture.m1] 1
              Hr ltac:(lia) ltac:(cbn; lia) Hfit) as (_ & H1 & _).
  split; [exact H0 | exact H1].
Defined.
